(** * Adaptive chunking (src/chunk_adaptive.c): a shallow embedding

    The C source computes with 64-bit and 32-bit integers, with IEEE-754
    binary64 doubles and with PostgreSQL relations.  Integers are modelled
    as [Z] with the wrap-around written out, doubles as the Standard
    Library's [spec_float] at precision 53 and maximal exponent 1024 (the
    executable specification of binary64 arithmetic, round to nearest
    even), relations as lists of rows with their list of indexes. *)

From Stdlib Require Import ZArith List Bool Lia String Sorted.
From Stdlib Require Import Floats.SpecFloat.
Import ListNotations.
Local Open Scope Z_scope.

(** ** Machine integers *)

Module Int.

Definition INT64_MIN : Z := - 2 ^ 63.
Definition INT64_MAX : Z := 2 ^ 63 - 1.

Definition in_int64 (z : Z) : bool := (INT64_MIN <=? z) && (z <=? INT64_MAX).

(** Two's-complement wrap-around of a 64-bit signed result. *)
Definition wrap64 (z : Z) : Z := (z + 2 ^ 63) mod 2 ^ 64 - 2 ^ 63.

(** Two's-complement wrap-around of a 32-bit signed result ([int]). *)
Definition wrap32 (z : Z) : Z := (z + 2 ^ 31) mod 2 ^ 32 - 2 ^ 31.

Definition add64 (a b : Z) : Z := wrap64 (a + b).
Definition sub64 (a b : Z) : Z := wrap64 (a - b).
Definition mul64 (a b : Z) : Z := wrap64 (a * b).

(** C's [/] on integers truncates toward zero. *)
Definition div64 (a b : Z) : Z := wrap64 (Z.quot a b).

End Int.

(** ** Doubles *)

Module Double.

Definition prec : Z := 53.
Definition emax : Z := 1024.

Definition double : Type := spec_float.

Definition add : double -> double -> double := SFadd prec emax.
Definition sub : double -> double -> double := SFsub prec emax.
Definition mul : double -> double -> double := SFmul prec emax.
Definition div : double -> double -> double := SFdiv prec emax.
Definition fabs : double -> double := SFabs.

(** [a < b], [a <= b] and [a > b] of C; all are false on a NaN. *)
Definition lt (a b : double) : bool := SFltb a b.
Definition le (a b : double) : bool := SFleb a b.
Definition gt (a b : double) : bool := SFltb b a.

(** [(double) z] for an integer: round to nearest, ties to even. *)
Definition of_int (z : Z) : double := binary_normalize prec emax z 0 false.

(** The integral part of a double (toward zero), when it has one. *)
Definition trunc (d : double) : option Z :=
  match d with
  | S754_zero _ => Some 0
  | S754_finite s m e => Some (cond_Zopp s (Z.shiftl (Zpos m) e))
  | S754_infinity _ | S754_nan => None
  end.

Definition is_finite (d : double) : bool :=
  match d with
  | S754_zero _ | S754_finite _ _ _ => true
  | S754_infinity _ | S754_nan => false
  end.

(** The literals of the source, as the binary64 values nearest to them. *)
Definition d1_0 : double := S754_finite false 4503599627370496 (-52).
Definition d0_5 : double := S754_finite false 4503599627370496 (-53).
Definition d0_15 : double := S754_finite false 5404319552844595 (-55).
Definition d1_1 : double := S754_finite false 4953959590107546 (-52).
Definition d0_0 : double := S754_zero false.

End Double.

Import Int Double.


(** ** Events and errors

    [elog] and [ereport] below ERROR write a message and return; at ERROR
    they abort the call.  A computation therefore yields the messages it
    wrote, in order, and a value or the error that stopped it.  The scans a
    call opens and the configuration options it reads are recorded in the
    same trace. *)

Definition Oid : Type := Z.
Definition AttrNumber : Type := Z.
Definition Datum : Type := Z.

Inductive Event : Type :=
  | ConfigRead (name : string)                  (* GetConfigOption *)
  | IndexScan (relid : Oid) (indexoid : Oid)    (* index_beginscan *)
  | HeapScan (relid : Oid)                      (* heap_beginscan *)
  | WarnNoIndex (relid : Oid) (attnum : AttrNumber)
  | DebugUndersized                             (* "chunk sufficiently full, but undersized" *)
  | DebugBoost (incr_factor : double)           (* "increase interval to probe for better threshold" *)
  | DebugKeepPrevious (current_interval : Z)    (* "use previous size of" *)
  | DebugBelowThreshold (chunk_interval : Z)    (* "below change threshold, keeping old interval" *)
  | LogMakingChange (chunk_interval : Z).       (* "making change" *)

Inductive Error : Type :=
  | ErrMissingConfig (name : string)
  | ErrParseConfig (name : string)
  | ErrNoComparison (atttype : Z)
  | ErrNoHypertable (dimension_id : Z)
  | ErrNullPointer.

Inductive result (A : Type) : Type :=
  | Ok (a : A)
  | Err (e : Error).
Arguments Ok {A} a.
Arguments Err {A} e.

Definition M (A : Type) : Type := list Event * result A.

Definition ret {A} (a : A) : M A := ([], Ok a).
Definition raise {A} (e : Error) : M A := ([], Err e).
Definition emit (ev : Event) : M unit := ([ev], Ok tt).

Definition bind {A B} (m : M A) (f : A -> M B) : M B :=
  match m with
  | (tr, Ok a) => let '(tr', r) := f a in (tr ++ tr', r)
  | (tr, Err e) => (tr, Err e)
  end.

Notation "x <- m ;; k" := (bind m (fun x => k))
  (at level 100, m at next level, right associativity).
Notation "m ;;; k" := (bind m (fun _ => k))
  (at level 100, right associativity).

Definition trace {A} (m : M A) : list Event := fst m.
Definition outcome {A} (m : M A) : result A := snd m.

(** ** Relations, rows and indexes *)

(** A row gives each attribute (numbered from 1) a value or NULL. *)
Definition HeapTuple : Type := list (option Datum).

(** An index is ordered by its leading column, ascending or descending,
    with the NULLs at one end. *)
Record Index : Type := {
  indexoid : Oid;
  rd_att_attnum : AttrNumber;    (* idxrel->rd_att->attrs[0]->attnum *)
  descending : bool;
  nulls_first : bool
}.

Record Relation : Type := {
  relid : Oid;
  tuples : list HeapTuple;       (* the rows the snapshot sees, in heap order *)
  indexlist : list Index         (* RelationGetIndexList *)
}.

(** [heap_getattr]: the value and the [isnull] flag. *)
Definition heap_getattr (tuple : HeapTuple) (attnum : AttrNumber) : Datum * bool :=
  match nth_error tuple (Z.to_nat (attnum - 1)) with
  | Some (Some v) => if 1 <=? attnum then (v, false) else (0, true)
  | _ => (0, true)
  end.

(** The comparison function of the types a dimension column can have
    (integers, dates and timestamps, whose datum is the integer itself):
    negative, zero or positive. *)
Definition cmp_proc (a b : Datum) : Z :=
  match Z.compare a b with Lt => -1 | Eq => 0 | Gt => 1 end.

Definition INT8OID : Oid := 20.
Definition INT2OID : Oid := 21.
Definition INT4OID : Oid := 23.
Definition DATEOID : Oid := 1082.
Definition TIMESTAMPOID : Oid := 1114.
Definition TIMESTAMPTZOID : Oid := 1184.

(** [lookup_type_cache (atttype, TYPECACHE_CMP_PROC)] for those types; any
    other type is taken to have no comparison function here. *)
Definition lookup_type_cache (atttype : Oid) : option (Datum -> Datum -> Z) :=
  if existsb (Z.eqb atttype)
       [INT8OID; INT2OID; INT4OID; DATEOID; TIMESTAMPOID; TIMESTAMPTZOID]
  then Some cmp_proc else None.

Inductive MinMaxResult : Type :=
  | MINMAX_NO_INDEX
  | MINMAX_NO_TUPLES
  | MINMAX_FOUND.

Definition MinMaxResult_eqb (a b : MinMaxResult) : bool :=
  match a, b with
  | MINMAX_NO_INDEX, MINMAX_NO_INDEX
  | MINMAX_NO_TUPLES, MINMAX_NO_TUPLES
  | MINMAX_FOUND, MINMAX_FOUND => true
  | _, _ => false
  end.

(** The caller's array [Datum minmax[2]]. *)
Definition MinMax : Type := (Datum * Datum)%type.

(** *** minmax_heapscan

    [bool nulls[2] = {true}] sets [nulls[0]] to true and [nulls[1]] to false:
    the loop compares every value with the [minmax[1]] the caller passed in. *)

Record ScanState : Type := {
  mm0 : Datum; mm1 : Datum;
  null0 : bool; null1 : bool
}.

Definition heapscan_step (cmp_proc : Datum -> Datum -> Z) (attnum : AttrNumber)
    (st : ScanState) (tuple : HeapTuple) : ScanState :=
  let '(value, isnull) := heap_getattr tuple attnum in
  if isnull then st
  else
    let st1 :=
      if null0 st || (cmp_proc value (mm0 st) <? 0)
      then {| mm0 := value; mm1 := mm1 st; null0 := false; null1 := null1 st |}
      else st in
    if null1 st1 || (cmp_proc value (mm1 st1) >? 0)
    then {| mm0 := mm0 st1; mm1 := value; null0 := null0 st1; null1 := false |}
    else st1.

Definition minmax_heapscan (rel : Relation) (atttype : Oid) (attnum : AttrNumber)
    (minmax : MinMax) : M (MinMaxResult * MinMax) :=
  cmp <- match lookup_type_cache atttype with
         | Some cmp => ret cmp
         | None => raise (ErrNoComparison atttype)
         end ;;
  emit (HeapScan (relid rel)) ;;;
  let st0 := {| mm0 := fst minmax; mm1 := snd minmax; null0 := true; null1 := false |} in
  let st := fold_left (heapscan_step cmp attnum) (tuples rel) st0 in
  ret (if null0 st || null1 st then MINMAX_NO_TUPLES else MINMAX_FOUND,
       (mm0 st, mm1 st)).

(** *** minmax_indexscan *)

(** The order of two keys in an index. *)
Definition index_key_le (idx : Index) (k1 k2 : Datum * bool) : bool :=
  match snd k1, snd k2 with
  | true, true => true
  | true, false => nulls_first idx
  | false, true => negb (nulls_first idx)
  | false, false =>
      if descending idx then fst k2 <=? fst k1 else fst k1 <=? fst k2
  end.

Fixpoint index_insert (idx : Index) (t : HeapTuple) (l : list HeapTuple)
  : list HeapTuple :=
  match l with
  | [] => [t]
  | u :: l' =>
      if index_key_le idx (heap_getattr t (rd_att_attnum idx))
                          (heap_getattr u (rd_att_attnum idx))
      then t :: l
      else u :: index_insert idx t l'
  end.

(** The rows of the relation in the order of the index. *)
Definition index_entries (idx : Index) (rel : Relation) : list HeapTuple :=
  fold_right (index_insert idx) [] (tuples rel).

Inductive ScanDirection : Type := BackwardScanDirection | ForwardScanDirection.

(** [index_getnext] on a scan that has just been started or rescanned. *)
Definition index_getnext (idx : Index) (rel : Relation) (dir : ScanDirection)
  : option HeapTuple :=
  match dir with
  | ForwardScanDirection => hd_error (index_entries idx rel)
  | BackwardScanDirection => hd_error (rev (index_entries idx rel))
  end.

(** [minmax[n] = v; nulls[n++] = false] on the two-element arrays. *)
Definition store_next (n : Z) (v : Datum) (st : ScanState) : ScanState :=
  if n =? 0
  then {| mm0 := v; mm1 := mm1 st; null0 := false; null1 := null1 st |}
  else {| mm0 := mm0 st; mm1 := v; null0 := null0 st; null1 := false |}.

Definition minmax_indexscan (rel : Relation) (idx : Index) (attnum : AttrNumber)
    (minmax : MinMax) : M (MinMaxResult * MinMax) :=
  emit (IndexScan (relid rel) (indexoid idx)) ;;;
  let st0 := {| mm0 := fst minmax; mm1 := snd minmax; null0 := true; null1 := true |} in
  let n0 := 0 in
  let '(st1, n1) :=
    match index_getnext idx rel BackwardScanDirection with
    | Some tuple => (store_next n0 (fst (heap_getattr tuple attnum)) st0, n0 + 1)
    | None => (st0, n0)
    end in
  let '(st2, n2) :=
    match index_getnext idx rel ForwardScanDirection with
    | Some tuple => (store_next n1 (fst (heap_getattr tuple attnum)) st1, n1 + 1)
    | None => (st1, n1)
    end in
  ret (if null0 st2 || null1 st2 then MINMAX_NO_TUPLES else MINMAX_FOUND,
       (mm0 st2, mm1 st2)).

(** *** relation_minmax_indexscan: the loop over the index list *)

Fixpoint relation_minmax_indexscan_loop (rel : Relation) (attnum : AttrNumber)
    (indexes : list Index) (res : MinMaxResult) (minmax : MinMax)
  : M (MinMaxResult * MinMax) :=
  match indexes with
  | [] => ret (res, minmax)
  | idx :: rest =>
      r <- (if rd_att_attnum idx =? attnum
            then minmax_indexscan rel idx attnum minmax
            else ret (res, minmax)) ;;
      if MinMaxResult_eqb (fst r) MINMAX_FOUND
      then ret r
      else relation_minmax_indexscan_loop rel attnum rest (fst r) (snd r)
  end.

Definition relation_minmax_indexscan (rel : Relation) (atttype : Oid)
    (attnum : AttrNumber) (minmax : MinMax) : M (MinMaxResult * MinMax) :=
  relation_minmax_indexscan_loop rel attnum (indexlist rel) MINMAX_NO_INDEX minmax.

Definition table_has_minmax_index (rel : Relation) (atttype : Oid)
    (attnum : AttrNumber) (minmax : MinMax) : M bool :=
  r <- relation_minmax_indexscan rel atttype attnum minmax ;;
  ret (negb (MinMaxResult_eqb (fst r) MINMAX_NO_INDEX)).

(** *** chunk_get_minmax *)

Definition chunk_get_minmax (rel : Relation) (atttype : Oid) (attnum : AttrNumber)
    (minmax : MinMax) : M (bool * MinMax) :=
  r <- relation_minmax_indexscan rel atttype attnum minmax ;;
  r' <- (if MinMaxResult_eqb (fst r) MINMAX_NO_INDEX
         then emit (WarnNoIndex (relid rel) attnum) ;;;
              minmax_heapscan rel atttype attnum (snd r)
         else ret r) ;;
  ret (MinMaxResult_eqb (fst r') MINMAX_FOUND, snd r').

(** ** What the file takes from outside

    The result of converting a double that has no 64-bit integral part (C
    leaves it undefined; the processor decides), the conversion of a column
    value to the internal time of the dimension ([time_value_to_internal],
    utils.c), the contents of the uninitialised array [minmax] of the loop
    body when a chunk is processed, the block size and the parser of
    configuration values of PostgreSQL. *)
Record Externals : Type := {
  int64_of_invalid : double -> Z;
  time_value_to_internal : Datum -> Oid -> Z;
  stack_minmax : Oid -> MinMax;
  BLCKSZ : Z;
  parse_int : string -> option Z
}.

(** [(int64) d]. *)
Definition to_int64 (X : Externals) (d : double) : Z :=
  match Double.trunc d with
  | Some z => if in_int64 z then z else int64_of_invalid X d
  | None => int64_of_invalid X d
  end.

(** ** The memory budget *)

Record Settings : Type := {
  fixed_effective_memory_cache_size : Z;    (* the static variable *)
  system_memory_bytes : Z;
  GetConfigOption : string -> option string
}.

Definition read_blocks (X : Externals) (S : Settings) (name : string) : M Z :=
  emit (ConfigRead name) ;;;
  match GetConfigOption S name with
  | None => raise (ErrMissingConfig name)
  | Some val =>
      match parse_int X val with
      | None => raise (ErrParseConfig name)
      | Some nblocks => ret nblocks
      end
  end.

Definition estimate_effective_memory_cache_size (X : Externals) (S : Settings) : M Z :=
  let sysmem_bound_bytes := div64 (system_memory_bytes S) 2 in
  if fixed_effective_memory_cache_size S >? 0
  then ret (fixed_effective_memory_cache_size S)
  else
    shared_buffers <- read_blocks X S "shared_buffers" ;;
    effective_cache_size <- read_blocks X S "effective_cache_size" ;;
    let memory_bytes := Z.max shared_buffers effective_cache_size in
    let memory_bytes := mul64 memory_bytes (BLCKSZ X) in
    let memory_bytes :=
      if memory_bytes >? sysmem_bound_bytes then sysmem_bound_bytes else memory_bytes in
    ret memory_bytes.

Definition DEFAULT_NUM_CHUNKS_TO_FIT_IN_CACHE_MEM : Z := 4.

Definition calculate_initial_chunk_target_size (X : Externals) (S : Settings) : M Z :=
  m <- estimate_effective_memory_cache_size X S ;;
  ret (div64 m DEFAULT_NUM_CHUNKS_TO_FIT_IN_CACHE_MEM).

(** ** The catalog as calculate_chunk_interval sees it *)

Record DimensionSlice : Type := {
  slice_dimension_id : Z;
  range_start : Z;
  range_end : Z
}.

Record Chunk : Type := {
  table : Relation;               (* the relation chunk->table_id *)
  cube : list DimensionSlice;     (* chunk->cube *)
  chunk_attno : AttrNumber;       (* chunk_get_attno of the dimension's column *)
  total_relation_size : Z         (* pg_total_relation_size (chunk->table_id) *)
}.

Record Dimension : Type := {
  dimension_id : Z;
  column_type : Oid;
  interval_length : Z
}.

Record Hypertable : Type := {
  hypertable_id : Z;
  space : list Dimension
}.

Record Catalog : Type := {
  dimension_get_hypertable_id : Z -> Z;
  hypertable_get_by_id : Z -> option Hypertable;
  chunk_get_window : Z -> Z -> Z -> list Chunk
}.

Definition hypercube_get_slice_by_dimension_id (cube : list DimensionSlice) (id : Z)
  : option DimensionSlice :=
  find (fun s => slice_dimension_id s =? id) cube.

Definition hyperspace_get_dimension_by_id (space : list Dimension) (id : Z)
  : option Dimension :=
  find (fun d => dimension_id d =? id) space.

(** A pointer the source dereferences without a test (only an [Assert]
    guards it). *)
Definition deref {A} (p : option A) : M A :=
  match p with
  | Some a => ret a
  | None => raise ErrNullPointer
  end.

(** ** calculate_chunk_interval *)

Definition DEFAULT_CHUNK_WINDOW : Z := 3.
Definition INTERVAL_FILLFACTOR_THRESH : double := d0_5.
Definition SIZE_FILLFACTOR_THRESH : double := d0_15.
Definition INTERVAL_MIN_CHANGE_THRESH : double := d0_15.
Definition NUM_UNDERSIZED_INTERVALS : Z := 1.
Definition UNDERSIZED_FILLFACTOR_THRESH : double := Double.mul SIZE_FILLFACTOR_THRESH d1_1.

(** The variables the loop over the window updates. *)
Record Acc : Type := {
  chunk_interval : Z;                 (* int64 *)
  undersized_intervals : Z;           (* int64 *)
  num_intervals : Z;                  (* int *)
  num_undersized_intervals : Z;       (* int *)
  undersized_fillfactor : double
}.

Definition acc_init : Acc :=
  {| chunk_interval := 0; undersized_intervals := 0; num_intervals := 0;
     num_undersized_intervals := 0; undersized_fillfactor := d0_0 |}.

(** What the loop body computes from a chunk whose min and max were found. *)
Record Sample : Type := {
  slice_interval : Z;
  interval_fillfactor : double;
  extrapolated_chunk_size : Z;
  size_fillfactor : double
}.

Definition sample_of (X : Externals) (chunk_target_size_bytes : Z)
    (chunk_size slice_interval min max : Z) : Sample :=
  let interval_fillfactor :=
    Double.div (Double.sub (of_int max) (of_int min)) (of_int slice_interval) in
  let extrapolated_chunk_size :=
    to_int64 X (Double.div (of_int chunk_size) interval_fillfactor) in
  let size_fillfactor :=
    Double.div (of_int extrapolated_chunk_size) (of_int chunk_target_size_bytes) in
  {| slice_interval := slice_interval;
     interval_fillfactor := interval_fillfactor;
     extrapolated_chunk_size := extrapolated_chunk_size;
     size_fillfactor := size_fillfactor |}.

(** The two branches that classify a sample. *)
Definition accumulate (X : Externals) (acc : Acc) (s : Sample) : M Acc :=
  if gt (interval_fillfactor s) INTERVAL_FILLFACTOR_THRESH
     && gt (size_fillfactor s) SIZE_FILLFACTOR_THRESH
  then
    ret {| chunk_interval :=
             to_int64 X (Double.add (of_int (chunk_interval acc))
                           (Double.div (of_int (slice_interval s)) (size_fillfactor s)));
           undersized_intervals := undersized_intervals acc;
           num_intervals := wrap32 (num_intervals acc + 1);
           num_undersized_intervals := num_undersized_intervals acc;
           undersized_fillfactor := undersized_fillfactor acc |}
  else if gt (interval_fillfactor s) INTERVAL_FILLFACTOR_THRESH
  then
    emit DebugUndersized ;;;
    ret {| chunk_interval := chunk_interval acc;
           undersized_intervals := add64 (undersized_intervals acc) (slice_interval s);
           num_intervals := num_intervals acc;
           num_undersized_intervals := wrap32 (num_undersized_intervals acc + 1);
           undersized_fillfactor :=
             Double.add (undersized_fillfactor acc) (size_fillfactor s) |}
  else ret acc.

(** The body of [foreach(lc, chunks)]. *)
Definition window_step (X : Externals) (dim : Dimension) (chunk_target_size_bytes : Z)
    (acc : Acc) (chunk : Chunk) : M Acc :=
  slice <- deref (hypercube_get_slice_by_dimension_id (cube chunk) (dimension_id dim)) ;;
  let chunk_size := total_relation_size chunk in
  let slice_interval := sub64 (range_end slice) (range_start slice) in
  r <- chunk_get_minmax (table chunk) (column_type dim) (chunk_attno chunk)
         (stack_minmax X (relid (table chunk))) ;;
  if fst r
  then
    let min := time_value_to_internal X (fst (snd r)) (column_type dim) in
    let max := time_value_to_internal X (snd (snd r)) (column_type dim) in
    accumulate X acc (sample_of X chunk_target_size_bytes chunk_size slice_interval min max)
  else ret acc.

Fixpoint foreach {A B} (f : A -> B -> M A) (l : list B) (a : A) : M A :=
  match l with
  | [] => ret a
  | b :: l' => a' <- f a b ;; foreach f l' a'
  end.

(** The three-way choice after the loop: the candidate interval, or [None]
    where the function returns the current interval at once. *)
Definition candidate_interval (X : Externals) (current_interval : Z) (acc : Acc)
  : M (option Z) :=
  if (num_intervals acc =? 0) && (num_undersized_intervals acc >? NUM_UNDERSIZED_INTERVALS)
  then
    let avg_fillfactor :=
      Double.div (undersized_fillfactor acc) (of_int (num_undersized_intervals acc)) in
    let incr_factor := Double.div UNDERSIZED_FILLFACTOR_THRESH avg_fillfactor in
    let avg_interval := div64 (undersized_intervals acc) (num_undersized_intervals acc) in
    emit (DebugBoost incr_factor) ;;;
    ret (Some (to_int64 X (Double.mul (of_int avg_interval) incr_factor)))
  else if num_intervals acc =? 0
  then
    emit (DebugKeepPrevious current_interval) ;;;
    ret None
  else ret (Some (div64 (chunk_interval acc) (num_intervals acc))).

Definition interval_diff (chunk_interval current_interval : Z) : double :=
  Double.fabs (Double.sub d1_0
                 (Double.div (of_int chunk_interval) (of_int current_interval))).

(** The change threshold. *)
Definition dampen (current_interval chunk_interval : Z) : M Z :=
  if le (interval_diff chunk_interval current_interval) INTERVAL_MIN_CHANGE_THRESH
  then
    emit (DebugBelowThreshold chunk_interval) ;;;
    ret current_interval
  else
    emit (LogMakingChange chunk_interval) ;;;
    ret chunk_interval.

(** The function from the end of the loop on. *)
Definition finish_interval (X : Externals) (current_interval : Z) (acc : Acc) : M Z :=
  c <- candidate_interval X current_interval acc ;;
  match c with
  | None => ret current_interval
  | Some chunk_interval => dampen current_interval chunk_interval
  end.

(** The function up to the end of the loop: the current interval of the
    dimension and the variables the loop leaves. *)
Definition scan_window (X : Externals) (cat : Catalog)
    (dimension_id dimension_coord chunk_target_size_bytes : Z) : M (Z * Acc) :=
  let hypertable_id := dimension_get_hypertable_id cat dimension_id in
  if hypertable_id <=? 0
  then raise (ErrNoHypertable dimension_id)
  else
    ht <- deref (hypertable_get_by_id cat hypertable_id) ;;
    dim <- deref (hyperspace_get_dimension_by_id (space ht) dimension_id) ;;
    let current_interval := interval_length dim in
    let chunks := chunk_get_window cat hypertable_id dimension_coord DEFAULT_CHUNK_WINDOW in
    acc <- foreach (window_step X dim chunk_target_size_bytes) chunks acc_init ;;
    ret (current_interval, acc).

Definition calculate_chunk_interval (X : Externals) (cat : Catalog)
    (dimension_id dimension_coord chunk_target_size_bytes : Z) : M Z :=
  w <- scan_window X cat dimension_id dimension_coord chunk_target_size_bytes ;;
  finish_interval X (fst w) (snd w).

(** The candidate the function holds before the change threshold. *)
Definition candidate_of_window (X : Externals) (cat : Catalog)
    (dimension_id dimension_coord chunk_target_size_bytes : Z) : M (option Z) :=
  w <- scan_window X cat dimension_id dimension_coord chunk_target_size_bytes ;;
  candidate_interval X (fst w) (snd w).

(** ** Setting up adaptive chunking

    The functions that parse a target size, validate a chunk sizing
    function and update a hypertable write warnings of their own and fail
    with errors of their own; they also run the functions above, whose
    messages and errors are kept as they are. *)

Definition InvalidOid : Oid := 0.
Definition OidIsValid (objectId : Oid) : bool := negb (objectId =? InvalidOid).

(** The row of pg_proc of a function. *)
Record Form_pg_proc : Type := {
  proname : string;
  pronamespace : Oid;
  pronargs : Z;
  prorettype : Oid;
  proargtypes : list Oid
}.

(** The hypertable of the cache, as chunk_adaptive_set reads and writes it:
    [open_dimension_column] is the column name of
    [hyperspace_get_dimension (ht->space, DIMENSION_TYPE_OPEN, 0)], if there
    is such a dimension. *)
Record HypertableEntry : Type := {
  open_dimension_column : option string;
  chunk_sizing_func : Oid;
  chunk_target_size : Z              (* ht->fd.chunk_target_size *)
}.

Inductive TypeFuncClass : Type :=
  | TYPEFUNC_SCALAR
  | TYPEFUNC_COMPOSITE
  | TYPEFUNC_RECORD
  | TYPEFUNC_OTHER.

Definition is_composite (c : TypeFuncClass) : bool :=
  match c with TYPEFUNC_COMPOSITE => true | _ => false end.

Inductive SetupEvent : Type :=
  | Reported (ev : Event)                (* written by the functions above *)
  | WarnSmallTargetSize                  (* "target chunk size for adaptive chunking is less than 10 MB" *)
  | WarnNoIndexOnHypertable (colname : string) (relid : Oid)
  | HypertableUpdate (relid : Oid) (ht : HypertableEntry).   (* hypertable_update *)

Inductive SetupError : Type :=
  | Raised (e : Error)                   (* raised by the functions above *)
  | ErrInvalidMemoryAmount               (* "invalid memory amount" *)
  | ErrInvalidDataAmount                 (* "invalid data amount" *)
  | ErrInvalidSizingFunc                 (* "invalid chunk sizing function" *)
  | ErrCacheLookupFailed (func : Oid)    (* "cache lookup failed for function" *)
  | ErrInvalidSignature                  (* "invalid function signature" *)
  | ErrTableDoesNotExist                 (* "table does not exist" *)
  | ErrNoOpenDimension                   (* "no open dimension found for adaptive chunking" *)
  | ErrColumnDoesNotExist (colname : string)
  | ErrNotHypertable (relid : Oid)       (* "table ... is not a hypertable" *)
  | ErrRecordContext                     (* "function returning record called in context ..." *)
  | ErrCouldNotOpenRelation (relid : Oid).   (* heap_open *)

Inductive reply (A : Type) : Type :=
  | Done (a : A)
  | Failed (e : SetupError).
Arguments Done {A} a.
Arguments Failed {A} e.

Definition Setup (A : Type) : Type := list SetupEvent * reply A.

Definition sret {A} (a : A) : Setup A := ([], Done a).
Definition sraise {A} (e : SetupError) : Setup A := ([], Failed e).
Definition semit (ev : SetupEvent) : Setup unit := ([ev], Done tt).

Definition sbind {A B} (m : Setup A) (f : A -> Setup B) : Setup B :=
  match m with
  | (tr, Done a) => let '(tr', r) := f a in (tr ++ tr', r)
  | (tr, Failed e) => (tr, Failed e)
  end.

Notation "x <~ m ;; k" := (sbind m (fun x => k))
  (at level 100, m at next level, right associativity).
Notation "m ~;; k" := (sbind m (fun _ => k))
  (at level 100, right associativity).

(** A call of one of the functions above. *)
Definition lift {A} (m : M A) : Setup A :=
  (map Reported (trace m),
   match outcome m with
   | Ok a => Done a
   | Err e => Failed (Raised e)
   end).

Definition reports {A} (m : Setup A) : list SetupEvent := fst m.
Definition answer {A} (m : Setup A) : reply A := snd m.

(** What these functions take from PostgreSQL and from the rest of the
    extension: the comparison of strings without regard to case, the
    catalog lookups, the copy of a C string into a name (which leaves the
    name as it is when the string is NULL), the relation behind an Oid, the
    hypertable cache and the kind of result the caller of
    chunk_adaptive_set expects. *)
Record Backend : Type := {
  pg_strcasecmp : string -> string -> Z;
  get_attnum : Oid -> string -> AttrNumber;
  get_atttype : Oid -> AttrNumber -> Oid;
  SearchSysCache1_PROCOID : Oid -> option Form_pg_proc;
  get_namespace_name : Oid -> option string;
  namestrcpy : string -> option string -> string;
  heap_open : Oid -> option Relation;
  hypertable_cache_get_entry : Oid -> option HypertableEntry;
  get_call_result_type : TypeFuncClass
}.

(** *** convert_text_memory_amount_to_bytes, set_effective_memory_cache_size *)

Definition convert_text_memory_amount_to_bytes (X : Externals)
    (memory_amount : option string) : Setup Z :=
  match memory_amount with
  | None => sraise ErrInvalidMemoryAmount
  | Some amount =>
      match parse_int X amount with
      | None => sraise ErrInvalidDataAmount
      | Some nblocks =>
          let bytes := nblocks in
          let bytes := mul64 bytes (BLCKSZ X) in
          sret bytes
      end
  end.

(** The function assigns the static variable and returns its new value: the
    settings after the call are returned with it. *)
Definition set_effective_memory_cache_size (X : Externals) (S : Settings)
    (memory_amount : string) : Setup (Z * Settings) :=
  bytes <~ convert_text_memory_amount_to_bytes X (Some memory_amount) ;;
  sret (bytes,
        {| fixed_effective_memory_cache_size := bytes;
           system_memory_bytes := system_memory_bytes S;
           GetConfigOption := GetConfigOption S |}).

(** *** chunk_sizing_func_validate *)

Record ChunkSizingInfo : Type := {
  table_relid : Oid;
  func : Oid;
  target_size : option string;       (* text *, NULL or a text *)
  colname : option string;           (* const char *, NULL or a name *)
  check_for_index : bool;
  func_schema : string;
  func_name : string;
  target_size_bytes : Z
}.

Definition CHUNK_SIZING_FUNC_NARGS : Z := 3.

(** [info] is the object behind the pointer, [None] for NULL; the result is
    the object after the call. *)
Definition chunk_sizing_func_validate (B : Backend) (func : Oid)
    (info : option ChunkSizingInfo) : Setup (option ChunkSizingInfo) :=
  if negb (OidIsValid func) then sraise ErrInvalidSizingFunc
  else
    match SearchSysCache1_PROCOID B func with
    | None => sraise (ErrCacheLookupFailed func)
    | Some form =>
        let typearr := fun i => nth i (proargtypes form) InvalidOid in
        if negb (pronargs form =? CHUNK_SIZING_FUNC_NARGS)
           || negb (typearr 0%nat =? INT4OID)
           || negb (typearr 1%nat =? INT8OID)
           || negb (typearr 2%nat =? INT8OID)
           || negb (prorettype form =? INT8OID)
        then sraise ErrInvalidSignature
        else
          sret (match info with
                | None => None
                | Some info =>
                    Some {| table_relid := table_relid info;
                            func := func;
                            target_size := target_size info;
                            colname := colname info;
                            check_for_index := check_for_index info;
                            func_schema :=
                              namestrcpy B (func_schema info)
                                (get_namespace_name B (pronamespace form));
                            func_name :=
                              namestrcpy B (func_name info) (Some (proname form));
                            target_size_bytes := target_size_bytes info |}
                end)
    end.

(** *** chunk_target_size_in_bytes *)

Definition chunk_target_size_in_bytes (X : Externals) (B : Backend) (S : Settings)
    (target_size_text : string) : Setup Z :=
  let target_size := target_size_text in
  if (pg_strcasecmp B target_size "off" =? 0)
     || (pg_strcasecmp B target_size "disable" =? 0)
  then sret 0
  else
    target_size_bytes <~
      (if pg_strcasecmp B target_size "estimate" =? 0
       then lift (calculate_initial_chunk_target_size X S)
       else convert_text_memory_amount_to_bytes X (Some target_size)) ;;
    let target_size_bytes :=
      if target_size_bytes <=? 0 then 0 else target_size_bytes in
    sret target_size_bytes.

(** *** chunk_adaptive_sizing_info_validate *)

Definition MB : Z := 1024 * 1024.

Definition set_target_size_bytes (info : ChunkSizingInfo) (bytes : Z) : ChunkSizingInfo :=
  {| table_relid := table_relid info;
     func := func info;
     target_size := target_size info;
     colname := colname info;
     check_for_index := check_for_index info;
     func_schema := func_schema info;
     func_name := func_name info;
     target_size_bytes := bytes |}.

(** The object after a call that was given a pointer to it. *)
Definition pointee {A} (before : A) (after : option A) : A :=
  match after with
  | Some a => a
  | None => before
  end.

(** [table_has_minmax_index] with the [heap_open] of its first line. *)
Definition open_table_has_minmax_index (X : Externals) (B : Backend) (relid : Oid)
    (atttype : Oid) (attnum : AttrNumber) : Setup bool :=
  match heap_open B relid with
  | None => sraise (ErrCouldNotOpenRelation relid)
  | Some rel => lift (table_has_minmax_index rel atttype attnum (stack_minmax X relid))
  end.

Definition chunk_adaptive_sizing_info_validate (X : Externals) (B : Backend)
    (S : Settings) (info : ChunkSizingInfo) : Setup ChunkSizingInfo :=
  if negb (OidIsValid (table_relid info)) then sraise ErrTableDoesNotExist
  else
    match colname info with
    | None => sraise ErrNoOpenDimension
    | Some name =>
        let attnum := get_attnum B (table_relid info) name in
        let atttype := get_atttype B (table_relid info) attnum in
        if negb (OidIsValid atttype) then sraise (ErrColumnDoesNotExist name)
        else
          after <~ chunk_sizing_func_validate B (func info) (Some info) ;;
          let info := pointee info after in
          info <~ match target_size info with
                  | None => sret (set_target_size_bytes info 0)
                  | Some text =>
                      bytes <~ chunk_target_size_in_bytes X B S text ;;
                      sret (set_target_size_bytes info bytes)
                  end ;;
          if (target_size_bytes info <=? 0) || negb (OidIsValid (func info))
          then sret info
          else
            (if (target_size_bytes info >? 0) && (target_size_bytes info <? 10 * MB)
             then semit WarnSmallTargetSize
             else sret tt) ~;;
            (if check_for_index info
             then
               has_index <~ open_table_has_minmax_index X B (table_relid info)
                              atttype attnum ;;
               if negb has_index
               then semit (WarnNoIndexOnHypertable name (table_relid info))
               else sret tt
             else sret tt) ~;;
            sret info
    end.

(** *** chunk_adaptive_set

    The arguments are the table, the target size (NULL or a text) and the
    sizing function (NULL or a function).  The result is the pair of values
    of the tuple returned, with the hypertable as it was written. *)

Definition set_colname (info : ChunkSizingInfo) (name : string) : ChunkSizingInfo :=
  {| table_relid := table_relid info;
     func := func info;
     target_size := target_size info;
     colname := Some name;
     check_for_index := check_for_index info;
     func_schema := func_schema info;
     func_name := func_name info;
     target_size_bytes := target_size_bytes info |}.

Definition chunk_adaptive_set (X : Externals) (B : Backend) (S : Settings)
    (arg0 : Oid) (arg1 : option string) (arg2 : option Oid)
  : Setup ((Oid * Z) * HypertableEntry) :=
  let info :=
    {| table_relid := arg0;
       target_size := arg1;
       func := match arg2 with None => InvalidOid | Some f => f end;
       colname := None;
       check_for_index := true;
       func_schema := EmptyString;
       func_name := EmptyString;
       target_size_bytes := 0 |} in
  if negb (OidIsValid (table_relid info)) then sraise ErrTableDoesNotExist
  else
    match hypertable_cache_get_entry B (table_relid info) with
    | None => sraise (ErrNotHypertable (table_relid info))
    | Some ht =>
        match open_dimension_column ht with
        | None => sraise ErrNoOpenDimension
        | Some name =>
            let info := set_colname info name in
            info <~ chunk_adaptive_sizing_info_validate X B S info ;;
            if negb (is_composite (get_call_result_type B)) then sraise ErrRecordContext
            else
              r <~ (if OidIsValid (func info)
                    then sret ({| open_dimension_column := open_dimension_column ht;
                                  chunk_sizing_func := func info;
                                  chunk_target_size := chunk_target_size ht |},
                               func info)
                    else if OidIsValid (chunk_sizing_func ht)
                    then chunk_sizing_func_validate B (chunk_sizing_func ht) (Some info) ~;;
                         sret (ht, chunk_sizing_func ht)
                    else sraise ErrInvalidSizingFunc) ;;
              let '(ht, values0) := r in
              let values1 := target_size_bytes info in
              let ht := {| open_dimension_column := open_dimension_column ht;
                           chunk_sizing_func := chunk_sizing_func ht;
                           chunk_target_size := target_size_bytes info |} in
              semit (HypertableUpdate (table_relid info) ht) ~;;
              sret ((values0, values1), ht)
        end
    end.

(** ** Concrete surroundings for examples

    An x86-64 processor (the conversion of a double without a 64-bit
    integral part gives the smallest integer), an integer column (its
    internal time is the value itself), zeroes in the uninitialised array,
    blocks of 8 kB, and a parser for strings of decimal digits. *)

Fixpoint parse_digits (s : string) (acc : Z) : option Z :=
  match s with
  | EmptyString => Some acc
  | String c s' =>
      let n := Z.of_nat (Ascii.nat_of_ascii c) in
      if (48 <=? n) && (n <=? 57) then parse_digits s' (10 * acc + (n - 48)) else None
  end.

Definition parse_decimal (s : string) : option Z :=
  match s with
  | EmptyString => None
  | _ => match parse_digits s 0 with
         | Some v => if v <? 2 ^ 31 then Some v else None
         | None => None
         end
  end.

Definition x86_64 : Externals :=
  {| int64_of_invalid := fun _ => INT64_MIN;
     time_value_to_internal := fun value _ => value;
     stack_minmax := fun _ => (0, 0);
     BLCKSZ := 8192;
     parse_int := parse_decimal |}.

(** A hypertable with one dimension (id 1, an INT8 column) and the given
    window of chunks. *)
Definition one_dimension (current_interval : Z) (chunks : list Chunk) : Catalog :=
  {| dimension_get_hypertable_id := fun id => if id =? 1 then 1 else 0;
     hypertable_get_by_id := fun id =>
       if id =? 1
       then Some {| hypertable_id := 1;
                    space := [ {| dimension_id := 1; column_type := INT8OID;
                                  interval_length := current_interval |} ] |}
       else None;
     chunk_get_window := fun _ _ _ => chunks |}.

(** A chunk of one column with the given values, an index on it in
    descending order, the slice [[range_start, range_end)] and a size. *)
Definition simple_chunk (oid : Oid) (indexes : list Index) (values : list Z)
    (range_start range_end size : Z) : Chunk :=
  {| table := {| relid := oid; tuples := map (fun v => [Some v]) values;
                 indexlist := indexes |};
     cube := [ {| slice_dimension_id := 1; range_start := range_start;
                  range_end := range_end |} ];
     chunk_attno := 1;
     total_relation_size := size |}.

Definition time_desc_idx : Index :=
  {| indexoid := 9001; rd_att_attnum := 1; descending := true; nulls_first := true |}.
Definition time_asc_idx : Index :=
  {| indexoid := 9002; rd_att_attnum := 1; descending := false; nulls_first := false |}.

(** The chunk of the scenarios: a day in seconds. *)
Definition scenario_chunk (size : Z) : Chunk :=
  simple_chunk 100 [time_desc_idx] [0; 43200; 86400] 0 86400 size.

(** ** Definitions the properties are stated with *)

Definition is_index_scan (ev : Event) : bool :=
  match ev with IndexScan _ _ => true | _ => false end.

Definition is_heap_scan (ev : Event) : bool :=
  match ev with HeapScan _ => true | _ => false end.
Definition is_no_index_warning (ev : Event) : bool :=
  match ev with WarnNoIndex _ _ => true | _ => false end.

(** The value a configuration option parses to, in blocks. *)
Definition config_blocks (X : Externals) (S : Settings) (name : string) : option Z :=
  match GetConfigOption S name with
  | Some val => parse_int X val
  | None => None
  end.

Definition is_config_read (ev : Event) : bool :=
  match ev with ConfigRead _ => true | _ => false end.

(** [parse_int] stores its result in an [int]. *)
Definition parses_int32 (X : Externals) : Prop :=
  forall s v, parse_int X s = Some v -> - 2 ^ 31 <= v < 2 ^ 31.

(** A server of 16 GB with shared_buffers of 128 MB and an
    effective_cache_size of 4 GB, in blocks of 8 kB. *)
Definition settings_16GB (fixed : Z) : Settings :=
  {| fixed_effective_memory_cache_size := fixed;
     system_memory_bytes := 17179869184;
     GetConfigOption := fun name =>
       if String.eqb name "shared_buffers" then Some "16384"%string
       else if String.eqb name "effective_cache_size" then Some "524288"%string
       else None |}.

Definition is_scan_event (ev : Event) : bool :=
  match ev with
  | IndexScan _ _ | HeapScan _ | WarnNoIndex _ _ | DebugUndersized => true
  | _ => false
  end.

Definition is_boost (ev : Event) : bool :=
  match ev with DebugBoost _ => true | _ => false end.

(** The literal 0.165 as a double. *)
Definition d0_165 : double := S754_finite false 5944751508129055 (-55).

(** The candidate of the undersized path: the mean slice width times 0.165
    over the mean size fillfactor. *)
Definition boost_candidate (X : Externals) (acc : Acc) : Z :=
  let avg_interval := div64 (undersized_intervals acc) (num_undersized_intervals acc) in
  let avg_fillfactor :=
    Double.div (undersized_fillfactor acc) (of_int (num_undersized_intervals acc)) in
  to_int64 X (Double.mul (of_int avg_interval) (Double.div d0_165 avg_fillfactor)).

(** Two undersized chunks and a single one. *)
Definition undersized_chunk (oid : Oid) (day size : Z) : Chunk :=
  simple_chunk oid [time_desc_idx] [86400 * day; 86400 * (day + 1)]
    (86400 * day) (86400 * (day + 1)) size.

Definition usable (s : Sample) : bool :=
  gt (interval_fillfactor s) INTERVAL_FILLFACTOR_THRESH
  && gt (size_fillfactor s) SIZE_FILLFACTOR_THRESH.

(** What the loop body extracts from a chunk: its sample, or nothing when no
    minimum and maximum are found. *)
Definition chunk_sample (X : Externals) (dim : Dimension) (target : Z) (chunk : Chunk)
  : result (option Sample) :=
  match hypercube_get_slice_by_dimension_id (cube chunk) (dimension_id dim) with
  | None => Err ErrNullPointer
  | Some slice =>
      match outcome (chunk_get_minmax (table chunk) (column_type dim) (chunk_attno chunk)
                       (stack_minmax X (relid (table chunk)))) with
      | Err e => Err e
      | Ok r =>
          if fst r
          then Ok (Some (sample_of X target (total_relation_size chunk)
                           (sub64 (range_end slice) (range_start slice))
                           (time_value_to_internal X (fst (snd r)) (column_type dim))
                           (time_value_to_internal X (snd (snd r)) (column_type dim))))
          else Ok None
      end
  end.

(** The variables after a sample, without the messages. *)
Definition add_sample (X : Externals) (acc : Acc) (s : Sample) : Acc :=
  if usable s
  then {| chunk_interval :=
            to_int64 X (Double.add (of_int (chunk_interval acc))
                          (Double.div (of_int (slice_interval s)) (size_fillfactor s)));
          undersized_intervals := undersized_intervals acc;
          num_intervals := wrap32 (num_intervals acc + 1);
          num_undersized_intervals := num_undersized_intervals acc;
          undersized_fillfactor := undersized_fillfactor acc |}
  else if gt (interval_fillfactor s) INTERVAL_FILLFACTOR_THRESH
  then {| chunk_interval := chunk_interval acc;
          undersized_intervals := add64 (undersized_intervals acc) (slice_interval s);
          num_intervals := num_intervals acc;
          num_undersized_intervals := wrap32 (num_undersized_intervals acc + 1);
          undersized_fillfactor :=
            Double.add (undersized_fillfactor acc) (size_fillfactor s) |}
  else acc.

(** The same chunk with another size. *)
Definition with_size (c : Chunk) (size : Z) : Chunk :=
  {| table := table c; cube := cube c; chunk_attno := chunk_attno c;
     total_relation_size := size |}.

(** The slice of the chunk in the dimension has a positive width of at most
    2^50. *)
Definition width_ok (dim : Dimension) (c : Chunk) : Prop :=
  forall slice,
    hypercube_get_slice_by_dimension_id (cube c) (dimension_id dim) = Some slice ->
    0 < sub64 (range_end slice) (range_start slice) <= 2 ^ 50.

(** Two runs of the loop that differ in the sum of the implied intervals
    only, the second having the smaller one, after at most [j] chunks. *)
Definition acc_le (a2 a1 : Acc) (j : Z) : Prop :=
  0 <= chunk_interval a2 <= chunk_interval a1
  /\ chunk_interval a1 <= j * 2 ^ 53
  /\ 0 <= num_intervals a1 <= j
  /\ undersized_intervals a2 = undersized_intervals a1
  /\ num_intervals a2 = num_intervals a1
  /\ num_undersized_intervals a2 = num_undersized_intervals a1
  /\ undersized_fillfactor a2 = undersized_fillfactor a1.

(** A sample that is filled well enough but too small. *)
Definition undersized (s : Sample) : bool :=
  negb (usable s) && gt (interval_fillfactor s) INTERVAL_FILLFACTOR_THRESH.

(** The samples of the chunks of a window, in order. *)
Fixpoint window_samples (X : Externals) (dim : Dimension) (target : Z)
    (chunks : list Chunk) : result (list Sample) :=
  match chunks with
  | [] => Ok []
  | c :: rest =>
      match chunk_sample X dim target c with
      | Err e => Err e
      | Ok o =>
          match window_samples X dim target rest with
          | Err e => Err e
          | Ok ss => Ok (match o with Some s => s :: ss | None => ss end)
          end
      end
  end.

Definition sum_widths (ss : list Sample) : Z :=
  fold_right (fun s acc => slice_interval s + acc) 0 ss.

(** The value of the column in a row. *)
Definition column_value (attnum : AttrNumber) (t : HeapTuple) : Datum :=
  fst (heap_getattr t attnum).

Definition not_null (attnum : AttrNumber) (t : HeapTuple) : bool :=
  negb (snd (heap_getattr t attnum)).

(** The least or greatest ([f] is [Z.min] or [Z.max]) of a value and a list
    of values. *)
Fixpoint extreme (f : Z -> Z -> Z) (v : Z) (vs : list Z) : Z :=
  match vs with
  | [] => v
  | v' :: vs' => f v (extreme f v' vs')
  end.

(** The order of the values in an index. *)
Definition index_ord (idx : Index) (x y : Z) : bool :=
  if descending idx then y <=? x else x <=? y.

(** The element an index puts first, and the one it puts last. *)
Definition index_first (idx : Index) (x y : Z) : Z := if index_ord idx x y then x else y.
Definition index_last (idx : Index) (x y : Z) : Z := if index_ord idx x y then y else x.

Fixpoint last_from {A} (x : A) (l : list A) : A :=
  match l with
  | [] => x
  | y :: l' => last_from y l'
  end.

(** ** Definitions the further properties are stated with *)

(** The index has the attribute as its first column (the test of
    relation_minmax_indexscan). *)
Definition leads (attnum : AttrNumber) (idx : Index) : bool :=
  rd_att_attnum idx =? attnum.

(** The [isnull] flag of the column in a row. *)
Definition is_null (attnum : AttrNumber) (t : HeapTuple) : bool :=
  snd (heap_getattr t attnum).

(** A table of one INT8 column with four rows, two of them NULL, without an
    index. *)
Definition sparse_rel : Relation :=
  {| relid := 200; tuples := [[None]; [Some 5]; [None]; [Some 3]]; indexlist := [] |}.

(** A table whose only column is NULL in every row, with an index on it. *)
Definition null_rel : Relation :=
  {| relid := 201; tuples := [[None]; [None]]; indexlist := [time_desc_idx] |}.

(** An index on another column, then two on the first column. *)
Definition other_idx : Index :=
  {| indexoid := 9003; rd_att_attnum := 2; descending := false; nulls_first := false |}.

(** A table with these three indexes, in this order. *)
Definition indexed_rel (rows : list HeapTuple) : Relation :=
  {| relid := 202; tuples := rows; indexlist := [other_idx; time_desc_idx; time_asc_idx] |}.

(** The same catalog with another window of chunks. *)
Definition with_window (cat : Catalog) (chunks : list Chunk) : Catalog :=
  {| dimension_get_hypertable_id := dimension_get_hypertable_id cat;
     hypertable_get_by_id := hypertable_get_by_id cat;
     chunk_get_window := fun _ _ _ => chunks |}.

(** The message that ends a call: the decision taken. *)
Definition is_decision (ev : Event) : bool :=
  match ev with
  | DebugKeepPrevious _ | DebugBelowThreshold _ | LogMakingChange _ => true
  | _ => false
  end.

(** A chunk without rows, with an index on the column. *)
Definition empty_chunk (oid : Oid) : Chunk :=
  simple_chunk oid [time_desc_idx] [] 86400 172800 8192.

(** The error that reading a configuration option in blocks ends with, when
    it fails. *)
Definition config_error (S : Settings) (name : string) : Error :=
  match GetConfigOption S name with
  | None => ErrMissingConfig name
  | Some _ => ErrParseConfig name
  end.

(** The settings with another value of the static variable. *)
Definition with_fixed (S : Settings) (fixed : Z) : Settings :=
  {| fixed_effective_memory_cache_size := fixed;
     system_memory_bytes := system_memory_bytes S;
     GetConfigOption := GetConfigOption S |}.

(** Settings whose effective_cache_size the parser of the examples does not
    read (it has a unit). *)
Definition settings_with_unit : Settings :=
  {| fixed_effective_memory_cache_size := -1;
     system_memory_bytes := 17179869184;
     GetConfigOption := fun name =>
       if String.eqb name "shared_buffers" then Some "16384"%string
       else if String.eqb name "effective_cache_size" then Some "4GB"%string
       else None |}.

(** Comparison of strings without regard to the case of ASCII letters. *)
Definition ascii_lower (c : Ascii.ascii) : Z :=
  let ch := Z.of_nat (Ascii.nat_of_ascii c) in
  if (65 <=? ch) && (ch <=? 90) then ch + 32 else ch.

Fixpoint ascii_strcasecmp (s1 s2 : string) : Z :=
  match s1, s2 with
  | EmptyString, EmptyString => 0
  | EmptyString, String c2 _ => - ascii_lower c2
  | String c1 _, EmptyString => ascii_lower c1
  | String c1 r1, String c2 r2 =>
      if ascii_lower c1 =? ascii_lower c2 then ascii_strcasecmp r1 r2
      else ascii_lower c1 - ascii_lower c2
  end.

(** A database with one hypertable, the table 50 with the column "time"
    (attribute 1, an INT8), and two functions: 7000 has the signature of a
    chunk sizing function, 7001 takes two arguments. *)
Definition example_backend (rel : Relation) (ht : HypertableEntry) : Backend :=
  {| pg_strcasecmp := ascii_strcasecmp;
     get_attnum := fun relid name =>
       if (relid =? 50) && String.eqb name "time" then 1 else 0;
     get_atttype := fun relid attnum =>
       if (relid =? 50) && (attnum =? 1) then INT8OID else InvalidOid;
     SearchSysCache1_PROCOID := fun func =>
       if func =? 7000
       then Some {| proname := "calculate_chunk_interval"; pronamespace := 2200;
                    pronargs := 3; prorettype := INT8OID;
                    proargtypes := [INT4OID; INT8OID; INT8OID] |}
       else if func =? 7001
       then Some {| proname := "two_arguments"; pronamespace := 2200;
                    pronargs := 2; prorettype := INT8OID;
                    proargtypes := [INT4OID; INT8OID] |}
       else None;
     get_namespace_name := fun oid =>
       if oid =? 2200 then Some "_timescaledb_internal"%string else None;
     namestrcpy := fun name str => match str with Some s => s | None => name end;
     heap_open := fun relid => if relid =? 50 then Some rel else None;
     hypertable_cache_get_entry := fun relid => if relid =? 50 then Some ht else None;
     get_call_result_type := TYPEFUNC_COMPOSITE |}.

(** The table 50, without rows, and its entry in the hypertable cache. *)
Definition table_50 (indexes : list Index) : Relation :=
  {| relid := 50; tuples := []; indexlist := indexes |}.

Definition hypertable_50 : HypertableEntry :=
  {| open_dimension_column := Some "time"%string;
     chunk_sizing_func := 7000;
     chunk_target_size := 0 |}.

(** The signature (int, bigint, bigint) -> bigint. *)
Definition sizing_signature (form : Form_pg_proc) : Prop :=
  pronargs form = 3
  /\ nth 0 (proargtypes form) InvalidOid = INT4OID
  /\ nth 1 (proargtypes form) InvalidOid = INT8OID
  /\ nth 2 (proargtypes form) InvalidOid = INT8OID
  /\ prorettype form = INT8OID.

(** The kinds of messages and effects of the setup functions. *)
Definition is_config_report (ev : SetupEvent) : bool :=
  match ev with Reported (ConfigRead _) => true | _ => false end.

Definition is_small_target_warning (ev : SetupEvent) : bool :=
  match ev with WarnSmallTargetSize => true | _ => false end.

Definition is_hypertable_index_warning (ev : SetupEvent) : bool :=
  match ev with WarnNoIndexOnHypertable _ _ => true | _ => false end.

Definition is_hypertable_update (ev : SetupEvent) : bool :=
  match ev with HypertableUpdate _ _ => true | _ => false end.

(** What chunk_sizing_func_validate writes through the pointer. *)
Definition with_func (B : Backend) (info : ChunkSizingInfo) (func : Oid)
    (form : Form_pg_proc) : ChunkSizingInfo :=
  {| table_relid := table_relid info;
     func := func;
     target_size := target_size info;
     colname := colname info;
     check_for_index := check_for_index info;
     func_schema :=
       namestrcpy B (func_schema info) (get_namespace_name B (pronamespace form));
     func_name := namestrcpy B (func_name info) (Some (proname form));
     target_size_bytes := target_size_bytes info |}.

(** The arguments of a call for the table 50 and the function 7000. *)
Definition info_50 (target : option string) (check : bool) : ChunkSizingInfo :=
  {| table_relid := 50;
     func := 7000;
     target_size := target;
     colname := Some "time"%string;
     check_for_index := check;
     func_schema := EmptyString;
     func_name := EmptyString;
     target_size_bytes := 0 |}.

(** ... and the object the validation leaves for them. *)
Definition validated_50 (target : option string) (check : bool) (bytes : Z)
  : ChunkSizingInfo :=
  {| table_relid := 50;
     func := 7000;
     target_size := target;
     colname := Some "time"%string;
     check_for_index := check;
     func_schema := "_timescaledb_internal";
     func_name := "calculate_chunk_interval";
     target_size_bytes := bytes |}.

(** Anything but an update of the hypertable. *)
Definition no_update (ev : SetupEvent) : bool := negb (is_hypertable_update ev).

(** The slice of the chunk in the dimension has a width from 0 to 2^63. *)
Definition width_nonneg (dim : Dimension) (c : Chunk) : Prop :=
  forall slice,
    hypercube_get_slice_by_dimension_id (cube c) (dimension_id dim) = Some slice ->
    0 <= sub64 (range_end slice) (range_start slice).

(** A chunk whose data spans its whole slice, of width [w], and whose size
    is the target size [T]. *)
Definition on_target (X : Externals) (dim : Dimension) (T w : Z) (c : Chunk) : Prop :=
  exists slice mm,
    hypercube_get_slice_by_dimension_id (cube c) (dimension_id dim) = Some slice
    /\ sub64 (range_end slice) (range_start slice) = w
    /\ total_relation_size c = T
    /\ outcome (chunk_get_minmax (table c) (column_type dim) (chunk_attno c)
                  (stack_minmax X (relid (table c)))) = Ok (true, mm)
    /\ Double.sub (of_int (time_value_to_internal X (snd mm) (column_type dim)))
                  (of_int (time_value_to_internal X (fst mm) (column_type dim)))
       = of_int w.

(** ** Rounding to nearest, as a function of the value rounded

    [binary_round_aux] of the Standard Library rounds a mantissa, an
    exponent and a location.  The definitions below say which double it
    arrives at for the positive value [N / D * 2 ^ e]. *)

Notation fexp := (SpecFloat.fexp Double.prec Double.emax).

(** The location of [N / D] between [N / D] (the integer quotient) and its
    successor. *)
Definition loc_of (N D : Z) : location :=
  if N mod D =? 0 then loc_Exact else loc_Inexact (2 * (N mod D) ?= D).

Definition rec_of (N D : Z) : shr_record :=
  shr_record_of_loc (N / D) (loc_of N D).

Definition canon_shift (m e : Z) : Z := Z.max 0 (fexp (Zdigits2 m + e) - e).

Definition rne (N D : Z) : Z := round_nearest_even (N / D) (loc_of N D).

(** The mantissa and exponent [binary_round_aux] arrives at for the positive
    value [N / D * 2 ^ e]. *)
Definition round_me (N D e : Z) : Z * Z :=
  let n1 := canon_shift (N / D) e in
  let m2 := rne N (D * 2 ^ n1) in
  let n2 := canon_shift m2 (e + n1) in
  (m2 / 2 ^ n2, e + n1 + n2).

Definition SF_of_me (me : Z * Z) : spec_float :=
  match fst me with
  | 0 => S754_zero false
  | Z.pos m => if snd me <=? emax - prec then S754_finite false m (snd me)
               else S754_infinity false
  | Z.neg _ => S754_nan
  end.

Definition RND (N D e : Z) : spec_float :=
  binary_round_aux prec emax false (N / D) e (loc_of N D).

(** The description [N / D * 2 ^ e] is fine enough: its exponent is at
    most the one the result will have. *)
Definition fine (N D e : Z) : Prop := e <= fexp (Zdigits2 (N / D) + e).

(** [N / D * 2 ^ e <= N' / D' * 2 ^ e'], on integers: [K] is any number
    that makes both exponents non-negative. *)
Definition vle (K N D e N' D' e' : Z) : Prop :=
  N * D' * 2 ^ (e + K) <= N' * D * 2 ^ (e' + K).

(** The order of two results (mantissa, exponent) of a rounding. *)
Definition le_me (a b : Z * Z) : Prop :=
  fst a = 0
  \/ (0 < fst b /\ (snd a < snd b \/ (snd a = snd b /\ fst a <= fst b))).

(** Non-negative finite doubles in canonical form. *)
Definition nnf (x : spec_float) : bool :=
  match x with
  | S754_zero false => true
  | S754_finite false m e => bounded prec emax m e
  | _ => false
  end.

(** ... and +infinity. *)
Definition nnx (x : spec_float) : Prop := nnf x = true \/ x = S754_infinity false.

Definition mant (x : spec_float) : Z :=
  match x with S754_finite _ m _ => Z.pos m | _ => 0 end.
Definition expo (x : spec_float) : Z :=
  match x with S754_finite _ _ e => e | _ => -1074 end.

(** [x] is the rounding of [N / D * 2 ^ e]. *)
Definition repr (x : spec_float) (N D e : Z) : Prop :=
  0 <= N /\ 0 < D /\ fine N D e /\ x = RND N D e.

(** The value of a canonical double, scaled by [2 ^ K]. *)
Definition val (K : Z) (x : spec_float) : Z := mant x * 2 ^ (expo x + K).

(** The integral part. *)
Definition trunc_pos (x : spec_float) : Z :=
  match x with
  | S754_finite _ m e => Z.shiftl (Z.pos m) e
  | _ => 0
  end.

(** * Properties *)

(** ** Rounding is monotone *)

Lemma digits2_pos_size p : digits2_pos p = Pos.size p.
Proof. induction p; simpl; congruence. Qed.

Lemma Zdigits2_bounds m :
  0 < m -> 2 ^ (Zdigits2 m - 1) <= m < 2 ^ Zdigits2 m.
Proof.
  destruct m as [|p|p]; try lia. intros _. cbn [Zdigits2]. rewrite digits2_pos_size.
  pose proof (Pos.size_gt p) as Hgt. pose proof (Pos.size_le p) as Hle.
  assert (H1 : Z.pos p < 2 ^ Z.pos (Pos.size p)).
  { rewrite <- Pos2Z.inj_pow. apply Pos2Z.pos_lt_pos. exact Hgt. }
  assert (H2 : 2 ^ Z.pos (Pos.size p) <= 2 * Z.pos p).
  { rewrite <- Pos2Z.inj_pow. change (2 * Z.pos p) with (Z.pos p~0).
    apply Pos2Z.pos_le_pos. exact Hle. }
  split; [|exact H1].
  assert (2 ^ Z.pos (Pos.size p) = 2 * 2 ^ (Z.pos (Pos.size p) - 1)).
  { rewrite <- Z.pow_succ_r by lia. f_equal. lia. }
  lia.
Qed.

Lemma Zdigits2_nonneg m : 0 <= Zdigits2 m.
Proof. destruct m; simpl; lia. Qed.

Lemma Zdigits2_pos m : 0 < m -> 0 < Zdigits2 m.
Proof. destruct m; simpl; lia. Qed.

(** The number of digits is characterised by its bounds. *)
Lemma Zdigits2_unique m d :
  0 < m -> 2 ^ (d - 1) <= m < 2 ^ d -> Zdigits2 m = d.
Proof.
  intros Hm [Hlo Hhi]. pose proof (Zdigits2_bounds m Hm) as [Hl Hh].
  pose proof (Zdigits2_pos m Hm).
  assert (0 < d).
  { destruct (Z_lt_le_dec 0 d); auto.
    assert (2 ^ d <= 2 ^ 0) by (apply Z.pow_le_mono_r; lia). simpl in *. lia. }
  destruct (Z_lt_le_dec (Zdigits2 m) d).
  - assert (2 ^ Zdigits2 m <= 2 ^ (d - 1)) by (apply Z.pow_le_mono_r; lia). lia.
  - destruct (Z_lt_le_dec d (Zdigits2 m)); [|lia].
    assert (2 ^ d <= 2 ^ (Zdigits2 m - 1)) by (apply Z.pow_le_mono_r; lia). lia.
Qed.

Lemma Zdigits2_le m d : 0 <= m -> 0 <= d -> m < 2 ^ d -> Zdigits2 m <= d.
Proof.
  intros Hm Hd Hlt. destruct (Z.eq_dec m 0) as [->|Hne]; [simpl; lia|].
  pose proof (Zdigits2_bounds m ltac:(lia)) as [Hl _].
  destruct (Z_lt_le_dec d (Zdigits2 m)); [|lia].
  assert (2 ^ d <= 2 ^ (Zdigits2 m - 1)) by (apply Z.pow_le_mono_r; lia). lia.
Qed.

Lemma Zdigits2_ge m d : 0 < d -> 2 ^ (d - 1) <= m -> d <= Zdigits2 m.
Proof.
  intros Hd Hle.
  assert (0 < m) by (pose proof (Z.pow_pos_nonneg 2 (d - 1)); lia).
  pose proof (Zdigits2_bounds m ltac:(lia)) as [_ Hh].
  destruct (Z_lt_le_dec (Zdigits2 m) d); [|lia].
  assert (2 ^ Zdigits2 m <= 2 ^ (d - 1)).
  { apply Z.pow_le_mono_r; try lia. }
  lia.
Qed.

Lemma shr_1_nonneg m r s :
  0 <= m ->
  shr_1 (Build_shr_record m r s) = Build_shr_record (m / 2) (Z.odd m) (r || s).
Proof.
  intros Hm. rewrite <- Z.div2_div.
  destruct m as [|[p|p|]|p]; try lia; reflexivity.
Qed.

Ltac zbool :=
  repeat match goal with
         | |- context [?a =? ?b] => destruct (Z.eqb_spec a b)
         | |- context [?a <=? ?b] => destruct (Z.leb_spec a b)
         | |- context [?a <? ?b] => destruct (Z.ltb_spec a b)
         end;
  cbn [negb andb orb]; try reflexivity; try lia.

Lemma rec_of_cases N D :
  0 < D -> 0 <= N ->
  exists r s, rec_of N D = Build_shr_record (N / D) r s
              /\ (r || s = negb (N mod D =? 0))
              /\ (r = (D <=? 2 * (N mod D)))
              /\ (s = negb (N mod D =? 0) && negb (2 * (N mod D) =? D)).
Proof.
  intros HD HN. unfold rec_of, loc_of.
  pose proof (Z.mod_pos_bound N D HD) as Hr.
  destruct (Z.eqb_spec (N mod D) 0) as [H0|H0].
  - exists false, false. cbn [shr_record_of_loc]. repeat split; zbool.
  - destruct (Z.compare_spec (2 * (N mod D)) D) as [He|Hl|Hg];
      cbn [shr_record_of_loc].
    + exists true, false. repeat split; zbool.
    + exists false, true. repeat split; zbool.
    + exists true, true. repeat split; zbool.
Qed.

Lemma rec_of_intro N D r s :
  0 < D -> 0 <= N ->
  r = (D <=? 2 * (N mod D)) ->
  s = negb (N mod D =? 0) && negb (2 * (N mod D) =? D) ->
  Build_shr_record (N / D) r s = rec_of N D.
Proof.
  intros HD HN Hr Hs.
  destruct (rec_of_cases N D HD HN) as [r' [s' [Heq [_ [Hr' Hs']]]]].
  rewrite Heq. congruence.
Qed.

Lemma shr_1_rec_of N D :
  0 < D -> 0 <= N -> shr_1 (rec_of N D) = rec_of N (2 * D).
Proof.
  intros HD HN.
  destruct (rec_of_cases N D HD HN) as [r [s [Heq [Hrs [Hr Hs]]]]].
  rewrite Heq. rewrite shr_1_nonneg by (apply Z.div_pos; lia).
  pose proof (Z.mod_pos_bound N D HD) as Hb.
  pose proof (Z.div_mod N D ltac:(lia)) as Hdm.
  set (q := N / D) in *. set (t := N mod D) in *.
  pose proof (Z.div_mod q 2 ltac:(lia)) as Hq.
  pose proof (Z.mod_pos_bound q 2 ltac:(lia)) as Hqb.
  assert (Hdiv : N / (2 * D) = q / 2).
  { symmetry. apply (Z.div_unique N (2 * D) (q / 2) (D * (q mod 2) + t)); nia. }
  assert (Hmod : N mod (2 * D) = D * (q mod 2) + t).
  { symmetry. apply (Z.mod_unique N (2 * D) (q / 2) (D * (q mod 2) + t)); nia. }
  rewrite <- Hdiv. apply rec_of_intro; try lia.
  - rewrite Hmod. rewrite Zodd_mod.
    destruct (Z.eq_dec (q mod 2) 0) as [E|E].
    + rewrite E. zbool; nia.
    + assert (E1 : q mod 2 = 1) by lia. rewrite E1. zbool; nia.
  - rewrite Hmod, Hrs.
    destruct (Z.eq_dec (q mod 2) 0) as [E|E].
    + rewrite E. zbool; nia.
    + assert (E1 : q mod 2 = 1) by lia. rewrite E1. zbool; nia.
Qed.

(** Iterating a function [p] times, as [iter_pos] does. *)
Lemma iter_pos_invariant {A} (f : A -> A) (I : Z -> A -> Prop) :
  (forall k x, 0 <= k -> I k x -> I (k + 1) (f x)) ->
  forall p k x, 0 <= k -> I k x -> I (k + Z.pos p) (iter_pos f p x).
Proof.
  intros Hf. induction p as [p IH|p IH|]; intros k x Hk Hx; simpl.
  - replace (k + Z.pos p~1) with (k + 1 + Z.pos p + Z.pos p) by lia.
    apply IH; [lia|]. apply IH; [lia|]. apply Hf; auto.
  - replace (k + Z.pos p~0) with (k + Z.pos p + Z.pos p) by lia.
    apply IH; [lia|]. apply IH; auto.
  - apply Hf; auto.
Qed.

Lemma iter_shr_1_rec_of N D p :
  0 < D -> 0 <= N ->
  iter_pos shr_1 p (rec_of N D) = rec_of N (D * 2 ^ Z.pos p).
Proof.
  intros HD HN.
  pose proof (iter_pos_invariant shr_1 (fun k x => x = rec_of N (D * 2 ^ k))) as H.
  specialize (H ltac:(intros k x Hk ->; rewrite shr_1_rec_of;
                      [f_equal; rewrite Z.pow_add_r by lia; lia
                      | pose proof (Z.pow_pos_nonneg 2 k); nia | lia])).
  specialize (H p 0 (rec_of N D) ltac:(lia)).
  simpl in H. rewrite Z.mul_1_r in H. apply H. reflexivity.
Qed.

Lemma shr_rec_of N D e n :
  0 < D -> 0 <= N ->
  shr (rec_of N D) e n = (rec_of N (D * 2 ^ Z.max 0 n), e + Z.max 0 n).
Proof.
  intros HD HN. unfold shr. destruct n as [|p|p].
  - simpl. rewrite Z.mul_1_r, Z.add_0_r. reflexivity.
  - rewrite iter_shr_1_rec_of by assumption. rewrite Z.max_r by lia. reflexivity.
  - rewrite Z.max_l by lia. simpl. rewrite Z.mul_1_r, Z.add_0_r. reflexivity.
Qed.

Lemma loc_of_shr_record_rec_of N D :
  loc_of_shr_record (rec_of N D) = loc_of N D.
Proof.
  unfold rec_of. destruct (loc_of N D) as [|[| |]]; reflexivity.
Qed.

Lemma shr_m_rec_of N D : shr_m (rec_of N D) = N / D.
Proof.
  unfold rec_of. destruct (loc_of N D) as [|[| |]]; reflexivity.
Qed.

Lemma fexp_spec x : fexp x = Z.max (x - 53) (-1074).
Proof. reflexivity. Qed.

Lemma rec_of_exact m : shr_record_of_loc m loc_Exact = rec_of m 1.
Proof.
  unfold rec_of, loc_of. rewrite Z.div_1_r, Z.mod_1_r. reflexivity.
Qed.

Lemma pow2_pos k : 0 <= k -> 0 < 2 ^ k.
Proof. intros. apply Z.pow_pos_nonneg; lia. Qed.

Lemma rne_bounds N D : 0 < D -> 0 <= N -> N / D <= rne N D <= N / D + 1.
Proof.
  intros HD HN. unfold rne, round_nearest_even.
  destruct (loc_of N D) as [|[| |]]; try lia.
  destruct (Z.even (N / D)); lia.
Qed.

Lemma RND_spec N D e :
  0 < D -> 0 <= N -> RND N D e = SF_of_me (round_me N D e).
Proof.
  intros HD HN. unfold RND, binary_round_aux, shr_fexp.
  change (shr_record_of_loc (N / D) (loc_of N D)) with (rec_of N D).
  rewrite shr_rec_of by assumption.
  fold (canon_shift (N / D) e).
  set (n1 := canon_shift (N / D) e).
  assert (Hn1 : 0 <= n1) by (unfold n1, canon_shift; lia).
  assert (HD1 : 0 < D * 2 ^ n1) by (pose proof (pow2_pos n1 Hn1); nia).
  replace (Z.max 0 (fexp (Zdigits2 (N / D) + e) - e)) with n1 by reflexivity.
  rewrite shr_m_rec_of, loc_of_shr_record_rec_of.
  fold (rne N (D * 2 ^ n1)).
  set (m2 := rne N (D * 2 ^ n1)).
  assert (Hm2 : 0 <= m2).
  { pose proof (rne_bounds N (D * 2 ^ n1) HD1 HN).
    pose proof (Z.div_pos N (D * 2 ^ n1) HN HD1). unfold m2. lia. }
  rewrite rec_of_exact, shr_rec_of by lia.
  fold (canon_shift m2 (e + n1)).
  replace (Z.max 0 (fexp (Zdigits2 m2 + (e + n1)) - (e + n1)))
    with (canon_shift m2 (e + n1)) by reflexivity.
  rewrite shr_m_rec_of, Z.mul_1_l.
  unfold SF_of_me, round_me. fold n1. fold m2. cbn [fst snd].
  reflexivity.
Qed.

Lemma div_pow2_lt q n d :
  0 <= q -> 0 <= n -> 0 <= d -> q < 2 ^ d -> d - n <= 53 -> q / 2 ^ n < 2 ^ 53.
Proof.
  intros Hq Hn Hd Hlt Hle. pose proof (pow2_pos n Hn).
  apply Z.div_lt_upper_bound; [lia|].
  rewrite <- Z.pow_add_r by lia.
  assert (2 ^ d <= 2 ^ (n + 53)) by (apply Z.pow_le_mono_r; lia). lia.
Qed.

Lemma div_pow2_ge q n d :
  0 <= n -> n <= d -> 2 ^ d <= q -> 2 ^ (d - n) <= q / 2 ^ n.
Proof.
  intros Hn Hd Hle. pose proof (pow2_pos n Hn).
  apply Z.div_le_lower_bound; [lia|].
  rewrite <- Z.pow_add_r by lia. replace (n + (d - n)) with d by lia. exact Hle.
Qed.

Lemma step1_facts N D e :
  0 < D -> 0 <= N -> fine N D e ->
  let n1 := canon_shift (N / D) e in
  0 <= n1
  /\ e + n1 = fexp (Zdigits2 (N / D) + e)
  /\ -1074 <= e + n1
  /\ 0 <= N / (D * 2 ^ n1) < 2 ^ 53
  /\ (-1074 < e + n1 -> 2 ^ 52 <= N / (D * 2 ^ n1)).
Proof.
  intros HD HN Hfine n1. unfold fine in Hfine.
  assert (Hn1 : n1 = fexp (Zdigits2 (N / D) + e) - e).
  { unfold n1, canon_shift. lia. }
  assert (Hn0 : 0 <= n1) by lia.
  pose proof (pow2_pos n1 Hn0) as Hp.
  assert (Hq : 0 <= N / D) by (apply Z.div_pos; lia).
  rewrite <- Z.div_div by lia.
  set (q := N / D) in *.
  rewrite fexp_spec in *.
  split; [lia|]. split; [lia|]. split; [lia|]. split.
  - split; [apply Z.div_pos; lia|].
    destruct (Z.eq_dec q 0) as [E|E].
    + rewrite E. rewrite Z.div_0_l by lia. apply pow2_pos. lia.
    + pose proof (Zdigits2_bounds q ltac:(lia)) as [_ Hh].
      apply (div_pow2_lt q n1 (Zdigits2 q)); try lia.
      apply Zdigits2_nonneg.
  - intros Hgt.
    assert (Hq0 : q <> 0).
    { intros E. rewrite E in *. simpl in *. lia. }
    pose proof (Zdigits2_bounds q ltac:(lia)) as [Hl _].
    assert (Hn : n1 = Zdigits2 q - 53) by lia.
    replace 52 with (Zdigits2 q - 1 - n1) by lia.
    apply div_pow2_ge; lia.
Qed.

Lemma step3_shift m2 e1 :
  0 <= m2 <= 2 ^ 53 -> -1074 <= e1 ->
  (m2 = 2 ^ 53 -> canon_shift m2 e1 = 1)
  /\ (m2 < 2 ^ 53 -> canon_shift m2 e1 = 0).
Proof.
  intros Hm He. unfold canon_shift. rewrite fexp_spec. split.
  - intros ->. change (Zdigits2 (2 ^ 53)) with 54. lia.
  - intros Hlt. pose proof (Zdigits2_le m2 53 ltac:(lia) ltac:(lia) Hlt). lia.
Qed.

(** The result of the rounding, read off the rounded mantissa. *)
Lemma round_me_cases N D e :
  0 < D -> 0 <= N -> fine N D e ->
  let n1 := canon_shift (N / D) e in
  let m2 := rne N (D * 2 ^ n1) in
  -1074 <= e + n1
  /\ 0 <= m2 <= 2 ^ 53
  /\ (-1074 < e + n1 -> 2 ^ 52 <= m2)
  /\ ((m2 < 2 ^ 53 /\ round_me N D e = (m2, e + n1))
      \/ (m2 = 2 ^ 53 /\ round_me N D e = (2 ^ 52, e + n1 + 1))).
Proof.
  intros HD HN Hfine n1 m2.
  destruct (step1_facts N D e HD HN Hfine) as [Hn0 [He1 [Hemin [Hm1 Hnorm]]]].
  fold n1 in Hn0, He1, Hemin, Hm1, Hnorm.
  assert (HD1 : 0 < D * 2 ^ n1) by (pose proof (pow2_pos n1 Hn0); nia).
  pose proof (rne_bounds N (D * 2 ^ n1) HD1 HN) as Hb. fold m2 in Hb.
  assert (Hm2 : 0 <= m2 <= 2 ^ 53) by lia.
  split; [exact Hemin|]. split; [exact Hm2|]. split; [lia|].
  destruct (step3_shift m2 (e + n1) Hm2 Hemin) as [Hs1 Hs0].
  unfold round_me. fold n1. fold m2.
  destruct (Z_lt_le_dec m2 (2 ^ 53)) as [Hlt|Hge].
  - left. split; [exact Hlt|]. rewrite (Hs0 Hlt).
    rewrite Z.div_1_r, Z.add_0_r. reflexivity.
  - right. assert (Heq : m2 = 2 ^ 53) by lia. split; [exact Heq|].
    rewrite (Hs1 Heq). rewrite Heq. reflexivity.
Qed.

(** Rounding a quotient to the nearest integer is monotone. *)
Lemma rne_mono N D N' D' :
  0 < D -> 0 <= N -> 0 < D' -> 0 <= N' ->
  N * D' <= N' * D -> rne N D <= rne N' D'.
Proof.
  intros HD HN HD' HN' Hle.
  pose proof (Z.div_mod N D ltac:(lia)) as E.
  pose proof (Z.mod_pos_bound N D HD) as B.
  pose proof (Z.div_mod N' D' ltac:(lia)) as E'.
  pose proof (Z.mod_pos_bound N' D' HD') as B'.
  pose proof (rne_bounds N D HD HN) as R.
  pose proof (rne_bounds N' D' HD' HN') as R'.
  assert (Hq : N / D <= N' / D').
  { apply Z.div_le_lower_bound; [lia|].
    (* D' * (N/D) <= N' *)
    assert (D * (D' * (N / D)) <= D * N') by nia. nia. }
  destruct (Z.eq_dec (N / D) (N' / D')) as [Heq|Hne]; [|lia].
  assert (Hr : (N mod D) * D' <= (N' mod D') * D) by nia.
  unfold rne, round_nearest_even, loc_of in *. rewrite <- Heq in *.
  destruct (Z.eqb_spec (N mod D) 0) as [H0|H0]; [lia|].
  destruct (Z.eqb_spec (N' mod D') 0) as [H0'|H0']; [nia|].
  destruct (Z.compare_spec (2 * (N mod D)) D) as [C|C|C];
    destruct (Z.compare_spec (2 * (N' mod D')) D') as [C'|C'|C'];
    try lia; try nia; destruct (Z.even (N / D)); try lia; nia.
Qed.

Lemma round_me_mono K N D e N' D' e' :
  0 < D -> 0 <= N -> fine N D e ->
  0 < D' -> 0 <= N' -> fine N' D' e' ->
  0 <= e + K -> 0 <= e' + K ->
  vle K N D e N' D' e' ->
  le_me (round_me N D e) (round_me N' D' e').
Proof.
  intros HD HN Hf HD' HN' Hf' HK HK' Hle. unfold vle in Hle.
  destruct (step1_facts N D e HD HN Hf) as [Hn0 [_ [_ [Hm1 Hnorm1]]]].
  destruct (step1_facts N' D' e' HD' HN' Hf') as [Hn0' [_ [_ [Hm1' Hnorm1']]]].
  destruct (round_me_cases N D e HD HN Hf) as [Hemin [Hm2 [Hnorm Hcase]]].
  destruct (round_me_cases N' D' e' HD' HN' Hf') as [Hemin' [Hm2' [Hnorm' Hcase']]].
  set (n1 := canon_shift (N / D) e) in *.
  set (n1' := canon_shift (N' / D') e') in *.
  set (m2 := rne N (D * 2 ^ n1)) in *.
  set (m2' := rne N' (D' * 2 ^ n1')) in *.
  pose proof (pow2_pos n1 Hn0) as HA. pose proof (pow2_pos n1' Hn0') as HA'.
  pose proof (pow2_pos (e + K) HK) as HP. pose proof (pow2_pos (e' + K) HK') as HP'.
  set (D1 := D * 2 ^ n1) in *. set (D1' := D' * 2 ^ n1') in *.
  assert (HD1 : 0 < D1) by (unfold D1; nia).
  assert (HD1' : 0 < D1') by (unfold D1'; nia).
  (* the same inequality at the exponents of the results *)
  assert (Hle1 : N * D1' * 2 ^ (e + n1 + K) <= N' * D1 * 2 ^ (e' + n1' + K)).
  { replace (e + n1 + K) with (e + K + n1) by lia.
    replace (e' + n1' + K) with (e' + K + n1') by lia.
    rewrite (Z.pow_add_r 2 (e + K) n1), (Z.pow_add_r 2 (e' + K) n1') by lia.
    unfold D1, D1'.
    set (A := 2 ^ n1) in *. set (A' := 2 ^ n1') in *.
    set (P := 2 ^ (e + K)) in *. set (P' := 2 ^ (e' + K)) in *.
    assert (N * D' * P * (A * A') <= N' * D * P' * (A * A')).
    { apply Z.mul_le_mono_nonneg_r; nia. }
    replace (N * (D' * A') * (P * A)) with (N * D' * P * (A * A')) by ring.
    replace (N' * (D * A) * (P' * A')) with (N' * D * P' * (A * A')) by ring.
    assumption. }
  assert (HNlo : -1074 < e + n1 -> 2 ^ 52 * D1 <= N).
  { intros H. specialize (Hnorm1 H).
    pose proof (Z.mul_div_le N D1 HD1). nia. }
  assert (HNhi' : N' < 2 ^ 53 * D1').
  { pose proof (Z.div_mod N' D1' ltac:(lia)).
    pose proof (Z.mod_pos_bound N' D1' HD1'). nia. }
  unfold le_me.
  destruct (Z.lt_trichotomy (e + n1) (e' + n1')) as [Hlt|[Heq|Hgt]].
  - (* the second value is in a higher binade *)
    assert (Hbig : 2 ^ 52 <= m2') by (apply Hnorm'; lia).
    destruct Hcase as [[Hc ->]|[Hc ->]]; destruct Hcase' as [[Hc' ->]|[Hc' ->]];
      cbn [fst snd].
    + right. split; [lia|]. left. lia.
    + right. split; [lia|]. left. lia.
    + right. split; [lia|].
      destruct (Z.eq_dec (e + n1 + 1) (e' + n1')) as [E|E]; [right; lia | left; lia].
    + right. split; [lia|]. left. lia.
  - (* same binade *)
    assert (Hm : m2 <= m2').
    { apply rne_mono; try assumption.
      rewrite Heq in Hle1.
      pose proof (pow2_pos (e' + n1' + K) ltac:(lia)) as HQ.
      set (Q := 2 ^ (e' + n1' + K)) in *.
      destruct (Z_le_gt_dec (N * D1') (N' * D1)) as [H|H]; [exact H|].
      exfalso. assert (N' * D1 * Q < N * D1' * Q) by (apply Z.mul_lt_mono_pos_r; lia).
      lia. }
    destruct Hcase as [[Hc ->]|[Hc ->]]; destruct Hcase' as [[Hc' ->]|[Hc' ->]];
      cbn [fst snd].
    + destruct (Z.eq_dec m2 0) as [E|E]; [left; exact E|].
      right. split; [lia|]. right. lia.
    + right. split; [lia|]. left. lia.
    + lia.
    + right. split; [lia|]. right. lia.
  - (* impossible: the first value would be the greater one *)
    exfalso.
    specialize (HNlo ltac:(lia)).
    pose proof (pow2_pos (e' + n1' + K) ltac:(lia)) as HQ.
    assert (Hpow : 2 * 2 ^ (e' + n1' + K) <= 2 ^ (e + n1 + K)).
    { rewrite <- Z.pow_succ_r by lia. apply Z.pow_le_mono_r; lia. }
    set (Q := 2 ^ (e' + n1' + K)) in *. set (P1 := 2 ^ (e + n1 + K)) in *.
    change (2 ^ 53) with (2 * 2 ^ 52) in HNhi'.
    set (T := 2 ^ 52) in *. assert (0 < T) by (unfold T; lia).
    assert (N' * D1 * Q < 2 * T * D1' * D1 * Q).
    { apply Z.mul_lt_mono_pos_r; [lia|]. apply Z.mul_lt_mono_pos_r; lia. }
    assert (T * D1 * D1' * (2 * Q) <= N * D1' * P1).
    { transitivity (N * D1' * (2 * Q)).
      - apply Z.mul_le_mono_nonneg_r; [lia|]. apply Z.mul_le_mono_nonneg_r; lia.
      - apply Z.mul_le_mono_nonneg_l; [nia|lia]. }
    nia.
Qed.

Lemma SFleb_finite m e m' e' :
  SFleb (S754_finite false m e) (S754_finite false m' e') = true
  <-> e < e' \/ (e = e' /\ Z.pos m <= Z.pos m').
Proof.
  unfold SFleb, SFcompare.
  destruct (Z.compare_spec e e') as [He|He|He].
  - change (Pos.compare_cont Eq m m') with (Pos.compare m m').
    destruct (Pos.compare_spec m m') as [Hm|Hm|Hm]; split; intros H;
      try discriminate; try reflexivity; try lia.
  - split; intros; [lia|reflexivity].
  - split; intros H; [discriminate|lia].
Qed.

Lemma SF_of_me_le a b :
  0 <= fst a -> 0 <= fst b -> le_me a b ->
  SFleb (SF_of_me a) (SF_of_me b) = true.
Proof.
  destruct a as [m e], b as [m' e']. unfold le_me, SF_of_me. cbn [fst snd].
  intros Hm Hm' Hle.
  destruct m as [|m|m]; [|clear Hm|lia].
  - destruct m' as [|m'|m']; [reflexivity| |lia].
    destruct (e' <=? emax - prec); reflexivity.
  - destruct Hle as [Hle|[Hpos Hle]]; [discriminate|].
    destruct m' as [|m'|m']; try lia.
    destruct (Z.leb_spec e (emax - prec)); destruct (Z.leb_spec e' (emax - prec));
      try reflexivity.
    + apply SFleb_finite. lia.
    + exfalso. lia.
Qed.

Lemma round_me_nonneg N D e :
  0 < D -> 0 <= N -> fine N D e -> 0 <= fst (round_me N D e).
Proof.
  intros HD HN Hf.
  destruct (round_me_cases N D e HD HN Hf) as [_ [Hm2 [_ [[_ ->]|[_ ->]]]]];
    cbn [fst]; lia.
Qed.

(** Rounding is monotone. *)
Lemma RND_mono K x N D e x' N' D' e' :
  repr x N D e -> repr x' N' D' e' ->
  0 <= e + K -> 0 <= e' + K ->
  vle K N D e N' D' e' ->
  SFleb x x' = true.
Proof.
  intros [HN [HD [Hf ->]]] [HN' [HD' [Hf' ->]]] HK HK' Hle.
  rewrite !RND_spec by assumption.
  apply SF_of_me_le; try (apply round_me_nonneg; assumption).
  apply (round_me_mono K); assumption.
Qed.

(** The result of a rounding is in canonical form. *)
Lemma repr_nnx x N D e : repr x N D e -> nnx x.
Proof.
  intros [HN [HD [Hf ->]]]. rewrite RND_spec by assumption.
  destruct (round_me_cases N D e HD HN Hf) as [Hemin [Hm2 [Hnorm Hcase]]].
  set (e1 := e + canon_shift (N / D) e) in *.
  set (m2 := rne N (D * 2 ^ canon_shift (N / D) e)) in *.
  unfold nnx, SF_of_me.
  destruct Hcase as [[Hlt ->]|[Heq ->]]; cbn [fst snd].
  - destruct m2 as [|p|p] eqn:Ep; [left; reflexivity| |lia].
    destruct (Z.leb_spec e1 (emax - prec)) as [Hb|Hb]; [left|right; reflexivity].
    cbn [nnf]. unfold bounded, canonical_mantissa.
    apply andb_true_iff. split; [|apply Z.leb_le; exact Hb].
    apply Z.eqb_eq. rewrite fexp_spec.
    change (Z.pos (digits2_pos p)) with (Zdigits2 (Z.pos p)).
    destruct (Z.eq_dec e1 (-1074)) as [E|E].
    + pose proof (Zdigits2_le (Z.pos p) 53 ltac:(lia) ltac:(lia) Hlt). lia.
    + rewrite (Zdigits2_unique (Z.pos p) 53); [lia|lia|].
      split; [apply Hnorm; lia | exact Hlt].
  - change (2 ^ 52) with (Z.pos 4503599627370496).
    destruct (Z.leb_spec (e1 + 1) (emax - prec)) as [Hb|Hb]; [left|right; reflexivity].
    cbn [nnf]. unfold bounded, canonical_mantissa.
    apply andb_true_iff. split; [|apply Z.leb_le; exact Hb].
    apply Z.eqb_eq. rewrite fexp_spec.
    change (Z.pos (digits2_pos 4503599627370496)) with 53. lia.
Qed.

Lemma nnf_bounds x :
  nnf x = true ->
  0 <= mant x < 2 ^ 53 /\ -1074 <= expo x <= 971
  /\ (-1074 < expo x -> 2 ^ 52 <= mant x)
  /\ fexp (Zdigits2 (mant x) + expo x) = expo x.
Proof.
  destruct x as [[|]|s| |[|] m e]; cbn [nnf mant expo]; try discriminate.
  - intros _. repeat split; try lia.
  - unfold bounded, canonical_mantissa. intros H.
    apply andb_true_iff in H. destruct H as [Hc Hb].
    apply Z.eqb_eq in Hc. apply Z.leb_le in Hb.
    change (Z.pos (digits2_pos m)) with (Zdigits2 (Z.pos m)) in Hc.
    pose proof (Zdigits2_bounds (Z.pos m) ltac:(lia)) as [Hl Hh].
    pose proof (Zdigits2_pos (Z.pos m) ltac:(lia)) as Hd.
    rewrite fexp_spec in Hc. change (emax - prec) with 971 in Hb.
    assert (Hd53 : Zdigits2 (Z.pos m) <= 53) by lia.
    assert (2 ^ Zdigits2 (Z.pos m) <= 2 ^ 53) by (apply Z.pow_le_mono_r; lia).
    repeat split; try lia.
    + intros Hgt. assert (Zdigits2 (Z.pos m) = 53) by lia.
      replace 52 with (Zdigits2 (Z.pos m) - 1) by lia. exact Hl.
    + rewrite fexp_spec. exact Hc.
Qed.

(** A canonical double is the rounding of its own value. *)
Lemma nnf_repr x : nnf x = true -> repr x (mant x) 1 (expo x).
Proof.
  intros Hx. destruct (nnf_bounds x Hx) as [Hm [He [Hnorm Hc]]].
  unfold repr. split; [lia|]. split; [lia|].
  assert (Hfine : fine (mant x) 1 (expo x)).
  { unfold fine. rewrite Z.div_1_r. lia. }
  split; [exact Hfine|].
  rewrite RND_spec by lia.
  unfold round_me. rewrite Z.div_1_r.
  assert (Hs : canon_shift (mant x) (expo x) = 0).
  { unfold canon_shift. lia. }
  rewrite Hs. change (2 ^ 0) with 1. rewrite Z.mul_1_r.
  assert (Hr : rne (mant x) 1 = mant x).
  { unfold rne, loc_of. rewrite Z.div_1_r, Z.mod_1_r. reflexivity. }
  rewrite Hr, Z.add_0_r, Hs, Z.div_1_r, Z.add_0_r.
  destruct x as [[|]|s| |[|] m e]; cbn [nnf mant expo] in *; try discriminate.
  - reflexivity.
  - unfold SF_of_me. cbn [fst snd].
    destruct (Z.leb_spec e (emax - prec)) as [Hb|Hb]; [reflexivity|].
    change (emax - prec) with 971 in Hb. lia.
Qed.

Lemma val_nonneg K x : 0 <= val K x.
Proof.
  unfold val. destruct x; cbn [mant expo]; lia.
Qed.

Lemma pow2_lt_mono a b : 0 <= a -> a < b -> 2 * 2 ^ a <= 2 ^ b.
Proof.
  intros Ha Hab. rewrite <- Z.pow_succ_r by lia. apply Z.pow_le_mono_r; lia.
Qed.

Lemma canonical_lt K m e m' e' :
  0 <= m < 2 ^ 53 -> 2 ^ 52 <= m' -> 0 <= e + K -> e < e' ->
  m * 2 ^ (e + K) < m' * 2 ^ (e' + K).
Proof.
  intros Hm Hm' HK Hlt.
  pose proof (pow2_lt_mono (e + K) (e' + K) HK ltac:(lia)) as Hp.
  pose proof (pow2_pos (e + K) HK) as Hpos.
  change (2 ^ 53) with (2 * 2 ^ 52) in Hm.
  set (T := 2 ^ 52) in *. assert (0 < T) by (unfold T; lia).
  set (P := 2 ^ (e + K)) in *. set (P' := 2 ^ (e' + K)) in *.
  assert (m * P < 2 * T * P) by (apply Z.mul_lt_mono_pos_r; lia).
  assert (T * (2 * P) <= T * P') by (apply Z.mul_le_mono_nonneg_l; lia).
  assert (T * P' <= m' * P') by (apply Z.mul_le_mono_nonneg_r; lia).
  lia.
Qed.

(** On canonical doubles [<=] is the order of the values. *)
Lemma nnf_le_val K x y :
  nnf x = true -> nnf y = true -> 1074 <= K ->
  (SFleb x y = true <-> val K x <= val K y).
Proof.
  intros Hx Hy HK.
  destruct (nnf_bounds x Hx) as [Hm [He [Hn _]]].
  destruct (nnf_bounds y Hy) as [Hm' [He' [Hn' _]]].
  pose proof (val_nonneg K y) as Hvy.
  unfold val in *.
  destruct x as [[|]|s| |[|] m e]; cbn [nnf] in Hx; try discriminate;
    destruct y as [[|]|s'| |[|] m' e']; cbn [nnf] in Hy; try discriminate;
    cbn [mant expo] in *.
  - split; [lia | reflexivity].
  - split; [intros _; exact Hvy | reflexivity].
  - pose proof (pow2_pos (e + K) ltac:(lia)).
    split; [discriminate | intros H'; exfalso; nia].
  - rewrite SFleb_finite.
    pose proof (pow2_pos (e + K) ltac:(lia)).
    pose proof (pow2_pos (e' + K) ltac:(lia)).
    destruct (Z.lt_trichotomy e e') as [Hlt|[Heq|Hgt]].
    + pose proof (canonical_lt K (Z.pos m) e (Z.pos m') e' Hm ltac:(apply Hn'; lia)
                    ltac:(lia) Hlt).
      split; intros; lia.
    + subst e'. split.
      * intros [Hc|[_ Hc]]; [lia|]. apply Z.mul_le_mono_nonneg_r; lia.
      * intros Hc. right. split; [reflexivity|].
        destruct (Z_le_gt_dec (Z.pos m) (Z.pos m')); [assumption|].
        assert (Z.pos m' * 2 ^ (e + K) < Z.pos m * 2 ^ (e + K))
          by (apply Z.mul_lt_mono_pos_r; lia). lia.
    + pose proof (canonical_lt K (Z.pos m') e' (Z.pos m) e Hm' ltac:(apply Hn; lia)
                    ltac:(lia) Hgt).
      split; intros; lia.
Qed.

Lemma nnf_lt_val K x y :
  nnf x = true -> nnf y = true -> 1074 <= K ->
  (SFltb x y = true <-> val K x < val K y).
Proof.
  intros Hx Hy HK.
  pose proof (nnf_le_val K y x Hy Hx HK) as Hle.
  assert (Hsw : SFltb x y = negb (SFleb y x)).
  { clear Hle. unfold SFltb, SFleb.
    destruct x as [[|]|s| |[|] m e]; cbn [nnf] in Hx; try discriminate;
      destruct y as [[|]|s'| |[|] m' e']; cbn [nnf] in Hy; try discriminate;
      try reflexivity.
    cbn [SFcompare]. rewrite (Z.compare_antisym e e').
    change (Pos.compare_cont Eq m' m) with (Pos.compare m' m).
    change (Pos.compare_cont Eq m m') with (Pos.compare m m').
    rewrite (Pos.compare_antisym m m').
    destruct (e ?= e'); cbn [CompOpp]; try reflexivity.
    destruct (m ?= m')%positive; reflexivity. }
  rewrite Hsw. rewrite negb_true_iff.
  split.
  - intros H. destruct (Z_lt_le_dec (val K x) (val K y)) as [Hlt|Hge]; [exact Hlt|].
    destruct Hle as [_ Hr]. specialize (Hr Hge). congruence.
  - intros H. destruct (SFleb y x) eqn:E; [|reflexivity].
    destruct Hle as [Hl _]. specialize (Hl eq_refl). lia.
Qed.

Lemma trunc_pos_val K x :
  nnf x = true -> 1074 <= K -> trunc_pos x = val K x / 2 ^ K.
Proof.
  intros Hx HK. destruct (nnf_bounds x Hx) as [Hm [He _]].
  unfold val.
  destruct x as [[|]|s| |[|] m e]; cbn [nnf] in Hx; try discriminate;
    cbn [mant expo trunc_pos] in *.
  - reflexivity.
  - pose proof (pow2_pos K ltac:(lia)) as HPK.
    destruct (Z_le_gt_dec 0 e) as [Hpos|Hneg].
    + rewrite Z.shiftl_mul_pow2 by lia.
      rewrite Z.pow_add_r by lia. rewrite Z.mul_assoc.
      rewrite Z.div_mul by lia. reflexivity.
    + rewrite Z.shiftl_div_pow2 by lia.
      replace K with ((e + K) + - e) at 2 by lia.
      rewrite (Z.pow_add_r 2 (e + K) (- e)) by lia.
      pose proof (pow2_pos (e + K) ltac:(lia)).
      pose proof (pow2_pos (- e) ltac:(lia)).
      rewrite (Z.mul_comm (2 ^ (e + K)) (2 ^ (- e))).
      rewrite Z.div_mul_cancel_r by lia. reflexivity.
Qed.

Lemma trunc_pos_mono x y :
  nnf x = true -> nnf y = true -> SFleb x y = true ->
  0 <= trunc_pos x <= trunc_pos y.
Proof.
  intros Hx Hy Hle.
  rewrite (trunc_pos_val 1074 x Hx), (trunc_pos_val 1074 y Hy) by lia.
  apply (nnf_le_val 1074 x y Hx Hy) in Hle; [|lia].
  pose proof (val_nonneg 1074 x).
  split.
  - apply Z.div_pos; lia.
  - apply Z.div_le_mono; lia.
Qed.

Lemma Pos_iter_xO m d : Z.pos (Pos.iter xO m d) = Z.pos m * 2 ^ Z.pos d.
Proof.
  induction d as [|d IH] using Pos.peano_ind.
  - cbn [Pos.iter]. rewrite Pos2Z.inj_xO. change (2 ^ 1) with 2. ring.
  - rewrite Pos.iter_succ, Pos2Z.inj_succ, Z.pow_succ_r by lia.
    rewrite Pos2Z.inj_xO, IH. ring.
Qed.

Lemma shl_align_spec m e e' :
  Z.pos (fst (shl_align m e e')) = Z.pos m * 2 ^ (e - Z.min e e')
  /\ snd (shl_align m e e') = Z.min e e'.
Proof.
  unfold shl_align. destruct (e' - e) as [|d|d] eqn:Hd; cbn [fst snd].
  - replace (Z.min e e') with e by lia. rewrite Z.sub_diag. split; lia.
  - replace (Z.min e e') with e by lia. rewrite Z.sub_diag. split; lia.
  - replace (Z.min e e') with e' by lia. rewrite Pos_iter_xO.
    replace (e - e') with (Z.pos d) by lia. split; reflexivity.
Qed.

Lemma Zdigits2_shift m k :
  0 < m -> 0 <= k -> Zdigits2 (m * 2 ^ k) = Zdigits2 m + k.
Proof.
  intros Hm Hk. pose proof (Zdigits2_bounds m Hm) as [Hl Hh].
  pose proof (Zdigits2_pos m Hm) as Hd. pose proof (pow2_pos k Hk) as Hp.
  apply Zdigits2_unique; [nia|].
  replace (Zdigits2 m + k - 1) with (Zdigits2 m - 1 + k) by lia.
  rewrite !Z.pow_add_r by lia. split; nia.
Qed.

(** [binary_round] on a positive mantissa. *)
Lemma binary_round_repr m e :
  let e' := Z.min e (fexp (Zdigits2 (Z.pos m) + e)) in
  repr (binary_round prec emax false m e) (Z.pos m * 2 ^ (e - e')) 1 e'.
Proof.
  intros e'. unfold binary_round.
  destruct (shl_align_spec m e (fexp (Z.pos (digits2_pos m) + e))) as [Hf Hs].
  change (Z.pos (digits2_pos m)) with (Zdigits2 (Z.pos m)) in *.
  fold e' in Hf, Hs.
  destruct (shl_align m e (fexp (Zdigits2 (Z.pos m) + e))) as [mz ez].
  cbn [fst snd] in Hf, Hs. subst ez.
  pose proof (pow2_pos (e - e') ltac:(lia)) as Hp.
  unfold repr. split; [lia|]. split; [lia|]. split.
  - unfold fine. rewrite Z.div_1_r.
    rewrite Zdigits2_shift by lia.
    replace (Zdigits2 (Z.pos m) + (e - e') + e') with (Zdigits2 (Z.pos m) + e) by lia.
    lia.
  - unfold RND, loc_of. rewrite Z.div_1_r, Z.mod_1_r. rewrite <- Hf. reflexivity.
Qed.

Lemma repr_zero : repr (S754_zero false) 0 1 (-1074).
Proof.
  unfold repr. split; [lia|]. split; [lia|]. split; [|reflexivity].
  unfold fine. rewrite fexp_spec. simpl. lia.
Qed.

(** [binary_normalize] on a non-negative integer. *)
Lemma binary_normalize_repr z e :
  0 <= z ->
  exists N e',
    repr (binary_normalize prec emax z e false) N 1 e'
    /\ Z.min e (-1074) <= e' <= Z.max e (-1074)
    /\ (forall K, 0 <= e' + K -> 0 <= e + K -> N * 2 ^ (e' + K) = z * 2 ^ (e + K)).
Proof.
  intros Hz. destruct z as [|m|m]; [| |lia]; cbn [binary_normalize].
  - exists 0, (-1074). split; [exact repr_zero|]. split; [lia|]. intros; lia.
  - pose proof (binary_round_repr m e) as Hr. cbn zeta in Hr.
    set (e' := Z.min e (fexp (Zdigits2 (Z.pos m) + e))) in *.
    exists (Z.pos m * 2 ^ (e - e')), e'. split; [exact Hr|].
    assert (He' : Z.min e (-1074) <= e' <= e).
    { unfold e'. rewrite fexp_spec. lia. }
    split; [lia|].
    intros K HK HK'. rewrite <- Z.mul_assoc, <- Z.pow_add_r by lia.
    f_equal. f_equal. lia.
Qed.

(** *** Conversion of integers *)
Lemma of_int_nnx z : 0 <= z -> nnx (of_int z).
Proof.
  intros Hz. destruct (binary_normalize_repr z 0 Hz) as [N [e' [Hr _]]].
  exact (repr_nnx _ _ _ _ Hr).
Qed.

Lemma of_int_mono a b :
  0 <= a <= b -> SFleb (of_int a) (of_int b) = true.
Proof.
  intros Hab.
  destruct (binary_normalize_repr a 0 ltac:(lia)) as [N [e [Hr [He Hv]]]].
  destruct (binary_normalize_repr b 0 ltac:(lia)) as [N' [e' [Hr' [He' Hv']]]].
  apply (RND_mono 1074 _ _ _ _ _ _ _ _ Hr Hr'); try lia.
  unfold vle. rewrite !Z.mul_1_r, Hv, Hv' by lia.
  apply Z.mul_le_mono_nonneg_r; lia.
Qed.

(** *** Addition *)
Lemma add_repr x y :
  nnf x = true -> nnf y = true ->
  exists N e,
    repr (Double.add x y) N 1 e /\ -1074 <= e
    /\ (forall K, 1074 <= K -> N * 2 ^ (e + K) = val K x + val K y).
Proof.
  intros Hx Hy.
  destruct (nnf_bounds x Hx) as [Hm [He _]].
  destruct (nnf_bounds y Hy) as [Hm' [He' _]].
  pose proof (nnf_repr x Hx) as Rx. pose proof (nnf_repr y Hy) as Ry.
  unfold val.
  destruct x as [[|]|s| |[|] m e]; cbn [nnf] in Hx; try discriminate;
    destruct y as [[|]|s'| |[|] m' e']; cbn [nnf] in Hy; try discriminate;
    cbn [mant expo] in *.
  - exists 0, (-1074). split; [exact Rx|]. split; [lia|]. intros; lia.
  - exists (Z.pos m'), e'. split; [exact Ry|]. split; [lia|]. intros; lia.
  - exists (Z.pos m), e. split; [exact Rx|]. split; [lia|]. intros; lia.
  - unfold Double.add, SFadd. cbn [cond_Zopp].
    destruct (shl_align_spec m e (Z.min e e')) as [H1 _].
    destruct (shl_align_spec m' e' (Z.min e e')) as [H2 _].
    rewrite H1, H2.
    replace (Z.min e (Z.min e e')) with (Z.min e e') by lia.
    replace (Z.min e' (Z.min e e')) with (Z.min e e') by lia.
    set (ez := Z.min e e').
    pose proof (pow2_pos (e - ez) ltac:(lia)). pose proof (pow2_pos (e' - ez) ltac:(lia)).
    destruct (binary_normalize_repr
                (Z.pos m * 2 ^ (e - ez) + Z.pos m' * 2 ^ (e' - ez)) ez ltac:(lia))
      as [N [e2 [Hr [Hb Hv]]]].
    exists N, e2. split; [exact Hr|]. split; [lia|].
    intros K HK. rewrite Hv by lia.
    rewrite Z.mul_add_distr_r, <- !Z.mul_assoc, <- !Z.pow_add_r by lia.
    f_equal; f_equal; f_equal; lia.
Qed.

Lemma add_nnx x y : nnf x = true -> nnf y = true -> nnx (Double.add x y).
Proof.
  intros Hx Hy. destruct (add_repr x y Hx Hy) as [N [e [Hr _]]].
  exact (repr_nnx _ _ _ _ Hr).
Qed.

Lemma add_mono x x' y y' :
  nnf x = true -> nnf x' = true -> nnf y = true -> nnf y' = true ->
  SFleb x x' = true -> SFleb y y' = true ->
  SFleb (Double.add x y) (Double.add x' y') = true.
Proof.
  intros Hx Hx' Hy Hy' Hle Hle'.
  destruct (add_repr x y Hx Hy) as [N [e [Hr [He Hv]]]].
  destruct (add_repr x' y' Hx' Hy') as [N' [e' [Hr' [He' Hv']]]].
  apply (nnf_le_val 1074 x x' Hx Hx') in Hle; [|lia].
  apply (nnf_le_val 1074 y y' Hy Hy') in Hle'; [|lia].
  apply (RND_mono 1074 _ _ _ _ _ _ _ _ Hr Hr'); try lia.
  unfold vle. rewrite !Z.mul_1_r, Hv, Hv' by lia. lia.
Qed.

(** *** Division *)
Lemma new_location_spec D r :
  0 < D -> new_location D r = if r =? 0 then loc_Exact else loc_Inexact (2 * r ?= D).
Proof.
  intros HD. unfold new_location, new_location_even, new_location_odd.
  destruct (Z.even D) eqn:Hev; [reflexivity|].
  destruct (r =? 0); [reflexivity|]. f_equal.
  assert (Hodd : Z.odd D = true) by (rewrite <- Z.negb_even, Hev; reflexivity).
  apply Z.odd_spec in Hodd. destruct Hodd as [j Hj].
  destruct (Z.compare_spec (2 * r + 1) D); destruct (Z.compare_spec (2 * r) D);
    try reflexivity; lia.
Qed.

Lemma repr_zero_over D : 0 < D -> repr (S754_zero false) 0 D (-1074).
Proof.
  intros HD. unfold repr. split; [lia|]. split; [lia|]. split.
  - unfold fine. rewrite Z.div_0_l by lia. rewrite fexp_spec. simpl. lia.
  - unfold RND, loc_of. rewrite Z.div_0_l, Z.mod_0_l by lia. reflexivity.
Qed.

Lemma div_repr x y :
  nnf x = true -> nnf y = true -> 0 < mant y ->
  exists N e,
    repr (Double.div x y) N (mant y) e /\ -2045 <= e
    /\ (forall K, 2045 <= K -> N * 2 ^ (e + K) = mant x * 2 ^ (expo x - expo y + K)).
Proof.
  intros Hx Hy Hpos.
  destruct (nnf_bounds x Hx) as [Hm [He _]].
  destruct (nnf_bounds y Hy) as [Hm' [He' _]].
  destruct y as [[|]|s'| |[|] m' e']; cbn [nnf] in Hy; try discriminate;
    cbn [mant expo] in *.
  destruct x as [[|]|s| |[|] m e]; cbn [nnf] in Hx; try discriminate;
    cbn [mant expo] in *.
  - exists 0, (-1074). split; [exact (repr_zero_over (Z.pos m') ltac:(lia))|].
    split; [lia|]. intros; lia.
  - unfold Double.div, SFdiv, SFdiv_core_binary. cbn [xorb].
    set (d1 := Zdigits2 (Z.pos m)). set (d2 := Zdigits2 (Z.pos m')).
    set (e2 := Z.min (fexp (d1 + e - (d2 + e'))) (e - e')).
    set (s := e - e' - e2).
    assert (Hs : 0 <= s) by (unfold s, e2; lia).
    assert (He2 : -2045 <= e2) by (unfold e2; rewrite fexp_spec; lia).
    set (m1 := match s with
               | 0 => Z.pos m
               | Z.pos _ => Z.shiftl (Z.pos m) s
               | Z.neg _ => 0
               end).
    assert (Hm1 : m1 = Z.pos m * 2 ^ s).
    { unfold m1. destruct s as [|p|p] eqn:Es.
      - change (2 ^ 0) with 1. lia.
      - rewrite Z.shiftl_mul_pow2 by lia. reflexivity.
      - lia. }
    pose proof (pow2_pos s Hs) as Hps.
    assert (Hdiv : Z.div_eucl m1 (Z.pos m') = (m1 / Z.pos m', m1 mod Z.pos m')).
    { unfold Z.div, Z.modulo. destruct (Z.div_eucl m1 (Z.pos m')). reflexivity. }
    rewrite Hdiv. rewrite new_location_spec by lia.
    change (if m1 mod Z.pos m' =? 0 then loc_Exact
            else loc_Inexact (2 * (m1 mod Z.pos m') ?= Z.pos m'))
      with (loc_of m1 (Z.pos m')).
    change (binary_round_aux prec emax false (m1 / Z.pos m') e2 (loc_of m1 (Z.pos m')))
      with (RND m1 (Z.pos m') e2).
    exists m1, e2. split; [|split; [exact He2|]].
    + unfold repr. split; [nia|]. split; [lia|]. split; [|reflexivity].
      unfold fine.
      assert (Hdg : d1 + s - d2 <= Zdigits2 (m1 / Z.pos m')).
      { destruct (Z_le_gt_dec (d1 + s - d2) 0) as [Hz|Hz].
        - pose proof (Zdigits2_nonneg (m1 / Z.pos m')). lia.
        - apply Zdigits2_ge; [lia|].
          pose proof (Zdigits2_bounds (Z.pos m) ltac:(lia)) as [Hl1 _].
          pose proof (Zdigits2_bounds (Z.pos m') ltac:(lia)) as [_ Hh2].
          pose proof (Zdigits2_pos (Z.pos m) ltac:(lia)).
          pose proof (Zdigits2_pos (Z.pos m') ltac:(lia)).
          fold d1 in Hl1. fold d2 in Hh2.
          apply Z.div_le_lower_bound; [lia|].
          assert (Hsplit : 2 ^ (d1 - 1) * 2 ^ s = 2 ^ (d1 + s - d2 - 1) * 2 ^ d2).
          { rewrite <- !Z.pow_add_r by lia. f_equal. lia. }
          pose proof (pow2_pos (d1 + s - d2 - 1) ltac:(lia)).
          rewrite Hm1. nia. }
      rewrite !fexp_spec. unfold e2. rewrite fexp_spec. unfold s, e2 in Hdg.
      rewrite fexp_spec in Hdg. lia.
    + intros K HK. rewrite Hm1, <- Z.mul_assoc, <- Z.pow_add_r by lia.
      f_equal. f_equal. unfold s. lia.
Qed.

Lemma div_nnx x y : nnf x = true -> nnf y = true -> 0 < mant y -> nnx (Double.div x y).
Proof.
  intros Hx Hy Hp. destruct (div_repr x y Hx Hy Hp) as [N [e [Hr _]]].
  exact (repr_nnx _ _ _ _ Hr).
Qed.

(** The quotient grows with the numerator ... *)
Lemma div_mono_l x x' y :
  nnf x = true -> nnf x' = true -> nnf y = true -> 0 < mant y ->
  SFleb x x' = true ->
  SFleb (Double.div x y) (Double.div x' y) = true.
Proof.
  intros Hx Hx' Hy Hp Hle.
  destruct (div_repr x y Hx Hy Hp) as [N [e [Hr [He Hv]]]].
  destruct (div_repr x' y Hx' Hy Hp) as [N' [e' [Hr' [He' Hv']]]].
  destruct (nnf_bounds x Hx) as [Hm [Hex _]].
  destruct (nnf_bounds x' Hx') as [Hm' [Hex' _]].
  destruct (nnf_bounds y Hy) as [Hmy [Hey _]].
  apply (nnf_le_val 1074 x x' Hx Hx') in Hle; [|lia]. unfold val in Hle.
  apply (RND_mono 4096 _ _ _ _ _ _ _ _ Hr Hr'); try lia.
  unfold vle.
  replace (N * mant y * 2 ^ (e + 4096)) with (N * 2 ^ (e + 4096) * mant y) by ring.
  replace (N' * mant y * 2 ^ (e' + 4096)) with (N' * 2 ^ (e' + 4096) * mant y) by ring.
  apply Z.mul_le_mono_nonneg_r; [lia|].
  rewrite Hv, Hv' by lia.
  replace (expo x - expo y + 4096) with (expo x + 1074 + (3022 - expo y)) by lia.
  replace (expo x' - expo y + 4096) with (expo x' + 1074 + (3022 - expo y)) by lia.
  rewrite (Z.pow_add_r 2 (expo x + 1074) (3022 - expo y)) by lia.
  rewrite (Z.pow_add_r 2 (expo x' + 1074) (3022 - expo y)) by lia.
  rewrite !Z.mul_assoc.
  apply Z.mul_le_mono_nonneg_r; [|exact Hle].
  apply Z.pow_nonneg. lia.
Qed.

(** ... and shrinks when the denominator grows. *)
Lemma div_mono_r x y y' :
  nnf x = true -> nnf y = true -> nnf y' = true -> 0 < mant y ->
  SFleb y y' = true ->
  SFleb (Double.div x y') (Double.div x y) = true.
Proof.
  intros Hx Hy Hy' Hp Hle.
  destruct (nnf_bounds x Hx) as [Hm [Hex _]].
  destruct (nnf_bounds y Hy) as [Hmy [Hey _]].
  destruct (nnf_bounds y' Hy') as [Hmy' [Hey' _]].
  apply (nnf_le_val 1074 y y' Hy Hy') in Hle; [|lia]. unfold val in Hle.
  assert (Hp' : 0 < mant y').
  { destruct (Z.eq_dec (mant y') 0) as [E|E]; [|lia].
    rewrite E in Hle. pose proof (pow2_pos (expo y + 1074) ltac:(lia)). nia. }
  destruct (div_repr x y Hx Hy Hp) as [N [e [Hr [He Hv]]]].
  destruct (div_repr x y' Hx Hy' Hp') as [N' [e' [Hr' [He' Hv']]]].
  apply (RND_mono 4096 _ _ _ _ _ _ _ _ Hr' Hr); try lia.
  unfold vle.
  replace (N' * mant y * 2 ^ (e' + 4096)) with (N' * 2 ^ (e' + 4096) * mant y) by ring.
  replace (N * mant y' * 2 ^ (e + 4096)) with (N * 2 ^ (e + 4096) * mant y') by ring.
  rewrite Hv, Hv' by lia.
  set (E := expo x + 4096 - expo y - expo y' - 1074).
  replace (expo x - expo y' + 4096) with (E + (expo y + 1074)) by (unfold E; lia).
  replace (expo x - expo y + 4096) with (E + (expo y' + 1074)) by (unfold E; lia).
  assert (HE : 0 <= E) by (unfold E; lia).
  rewrite (Z.pow_add_r 2 E (expo y + 1074)) by lia.
  rewrite (Z.pow_add_r 2 E (expo y' + 1074)) by lia.
  pose proof (pow2_pos E HE).
  replace (mant x * (2 ^ E * 2 ^ (expo y + 1074)) * mant y)
    with (mant x * 2 ^ E * (mant y * 2 ^ (expo y + 1074))) by ring.
  replace (mant x * (2 ^ E * 2 ^ (expo y' + 1074)) * mant y')
    with (mant x * 2 ^ E * (mant y' * 2 ^ (expo y' + 1074))) by ring.
  apply Z.mul_le_mono_nonneg_l; [nia|exact Hle].
Qed.
(** *** Quotients of any sign *)

(** The core of a division of two finite doubles, whatever their signs. *)
Lemma SFdiv_finite sx mx ex sy my ey :
  exists N e,
    0 <= N /\ fine N (Z.pos my) e
    /\ Double.div (S754_finite sx mx ex) (S754_finite sy my ey)
       = binary_round_aux prec emax (xorb sx sy) (N / Z.pos my) e (loc_of N (Z.pos my))
    /\ Z.min (-1074) (ex - ey) <= e <= ex - ey
    /\ (forall K, 0 <= e + K -> N * 2 ^ (e + K) = Z.pos mx * 2 ^ (ex - ey + K)).
Proof.
  unfold Double.div, SFdiv, SFdiv_core_binary.
  set (d1 := Zdigits2 (Z.pos mx)). set (d2 := Zdigits2 (Z.pos my)).
  set (e2 := Z.min (fexp (d1 + ex - (d2 + ey))) (ex - ey)).
  set (s := ex - ey - e2).
  assert (Hs : 0 <= s) by (unfold s, e2; lia).
  set (m1 := match s with
             | 0 => Z.pos mx
             | Z.pos _ => Z.shiftl (Z.pos mx) s
             | Z.neg _ => 0
             end).
  assert (Hm1 : m1 = Z.pos mx * 2 ^ s).
  { unfold m1. destruct s as [|p|p] eqn:Es.
    - change (2 ^ 0) with 1. lia.
    - rewrite Z.shiftl_mul_pow2 by lia. reflexivity.
    - lia. }
  pose proof (pow2_pos s Hs) as Hps.
  assert (Hdiv : Z.div_eucl m1 (Z.pos my) = (m1 / Z.pos my, m1 mod Z.pos my)).
  { unfold Z.div, Z.modulo. destruct (Z.div_eucl m1 (Z.pos my)). reflexivity. }
  rewrite Hdiv. rewrite new_location_spec by lia.
  change (if m1 mod Z.pos my =? 0 then loc_Exact
          else loc_Inexact (2 * (m1 mod Z.pos my) ?= Z.pos my))
    with (loc_of m1 (Z.pos my)).
  exists m1, e2. split; [nia|]. split; [|split; [reflexivity|split]].
  - unfold fine.
    assert (Hdg : d1 + s - d2 <= Zdigits2 (m1 / Z.pos my)).
    { destruct (Z_le_gt_dec (d1 + s - d2) 0) as [Hz|Hz].
      - pose proof (Zdigits2_nonneg (m1 / Z.pos my)). lia.
      - apply Zdigits2_ge; [lia|].
        pose proof (Zdigits2_bounds (Z.pos mx) ltac:(lia)) as [Hl1 _].
        pose proof (Zdigits2_bounds (Z.pos my) ltac:(lia)) as [_ Hh2].
        pose proof (Zdigits2_pos (Z.pos mx) ltac:(lia)).
        pose proof (Zdigits2_pos (Z.pos my) ltac:(lia)).
        fold d1 in Hl1. fold d2 in Hh2.
        apply Z.div_le_lower_bound; [lia|].
        assert (Hsplit : 2 ^ (d1 - 1) * 2 ^ s = 2 ^ (d1 + s - d2 - 1) * 2 ^ d2).
        { rewrite <- !Z.pow_add_r by lia. f_equal. lia. }
        pose proof (pow2_pos (d1 + s - d2 - 1) ltac:(lia)).
        rewrite Hm1. nia. }
    rewrite !fexp_spec. unfold e2. rewrite fexp_spec. unfold s, e2 in Hdg.
    rewrite fexp_spec in Hdg. lia.
  - unfold e2. rewrite fexp_spec. lia.
  - intros K HK. rewrite Hm1, <- Z.mul_assoc, <- Z.pow_add_r by lia.
    f_equal. f_equal. unfold s. lia.
Qed.

(** A rounding with a negative sign is not above a non-negative double. *)
Lemma round_negative_not_gt c m e l :
  nnf c = true -> SFltb c (binary_round_aux prec emax true m e l) = false.
Proof.
  intros Hc. unfold binary_round_aux.
  destruct (shr_fexp prec emax m e l) as [mrs' e'].
  destruct (shr_fexp prec emax _ e' loc_Exact) as [mrs'' e''].
  destruct c as [[|]|s| |[|] mc ec]; cbn [nnf] in Hc; try discriminate;
    destruct (shr_m mrs'') as [|p|p]; try reflexivity;
    destruct (e'' <=? emax - prec); reflexivity.
Qed.

Lemma div_gt_nnx_finite c sx mx ex sy my ey :
  nnf c = true ->
  gt (Double.div (S754_finite sx mx ex) (S754_finite sy my ey)) c = true ->
  nnx (Double.div (S754_finite sx mx ex) (S754_finite sy my ey)).
Proof.
  intros Hc. unfold gt.
  destruct (SFdiv_finite sx mx ex sy my ey) as [N [e [HN [Hf [Heq _]]]]].
  rewrite Heq. destruct (xorb sx sy).
  - rewrite round_negative_not_gt by assumption. discriminate.
  - intros _. apply (repr_nnx _ N (Z.pos my) e).
    unfold repr. repeat split; auto; lia.
Qed.

(** A quotient above a non-negative double is a canonical double or
    +infinity, whatever was divided. *)
Lemma div_gt_nnx c x y :
  nnf c = true -> gt (Double.div x y) c = true -> nnx (Double.div x y).
Proof.
  intros Hc.
  assert (Hz : forall s, SFltb c (S754_zero s) = false).
  { intros s. destruct c as [[|]|s0| |[|] mc ec]; cbn [nnf] in Hc; try discriminate;
      reflexivity. }
  assert (Hi : SFltb c (S754_infinity true) = false).
  { destruct c as [[|]|s0| |[|] mc ec]; cbn [nnf] in Hc; try discriminate; reflexivity. }
  assert (Hn : SFltb c S754_nan = false).
  { destruct c as [[|]|s0| |[|] mc ec]; reflexivity. }
  destruct x as [sx|sx| |sx mx ex]; destruct y as [sy|sy| |sy my ey];
    try (apply div_gt_nnx_finite; assumption);
    unfold gt; cbn [Double.div SFdiv];
    try (rewrite Hn; discriminate); try (rewrite Hz; discriminate);
    destruct sx, sy; cbn [xorb]; try (rewrite Hi; discriminate);
    intros _; right; reflexivity.
Qed.

(** *** The order on canonical doubles *)
Lemma nnx_le_nnf x b : nnx x -> nnf b = true -> SFleb x b = true -> nnf x = true.
Proof.
  intros [Hx| ->] Hb; [auto|].
  destruct b as [[|]|s| |[|] m e]; cbn [nnf] in Hb; discriminate.
Qed.

Lemma SFleb_refl_nnf x : nnf x = true -> SFleb x x = true.
Proof.
  intros Hx. apply (nnf_le_val 1074 x x Hx Hx); lia.
Qed.

Lemma SFleb_trans_nnf a b c :
  nnf a = true -> nnf b = true -> nnf c = true ->
  SFleb a b = true -> SFleb b c = true -> SFleb a c = true.
Proof.
  intros Ha Hb Hc Hab Hbc.
  apply (nnf_le_val 1074 a b Ha Hb) in Hab; [|lia].
  apply (nnf_le_val 1074 b c Hb Hc) in Hbc; [|lia].
  apply (nnf_le_val 1074 a c Ha Hc); lia.
Qed.

Lemma SFltb_le_nnf a b :
  nnf a = true -> nnf b = true -> SFltb a b = true -> SFleb a b = true.
Proof.
  intros Ha Hb Hab.
  apply (nnf_lt_val 1074 a b Ha Hb) in Hab; [|lia].
  apply (nnf_le_val 1074 a b Ha Hb); lia.
Qed.

Lemma SFltb_le_trans_nnf a b c :
  nnf a = true -> nnf b = true -> nnf c = true ->
  SFltb a b = true -> SFleb b c = true -> SFltb a c = true.
Proof.
  intros Ha Hb Hc Hab Hbc.
  apply (nnf_lt_val 1074 a b Ha Hb) in Hab; [|lia].
  apply (nnf_le_val 1074 b c Hb Hc) in Hbc; [|lia].
  apply (nnf_lt_val 1074 a c Ha Hc); lia.
Qed.

Lemma val_pos_mant K x : 0 <= expo x + K -> (0 < val K x <-> 0 < mant x).
Proof.
  intros HK. unfold val. pose proof (pow2_pos (expo x + K) HK). split; nia.
Qed.

Lemma SFltb_mant_pos a b :
  nnf a = true -> nnf b = true -> SFltb a b = true -> 0 < mant b.
Proof.
  intros Ha Hb Hab.
  apply (nnf_lt_val 1074 a b Ha Hb) in Hab; [|lia].
  destruct (nnf_bounds b Hb) as [_ [He _]].
  apply (val_pos_mant 1074 b ltac:(lia)). pose proof (val_nonneg 1074 a). lia.
Qed.

Lemma SFleb_mant_pos a b :
  nnf a = true -> nnf b = true -> 0 < mant a -> SFleb a b = true -> 0 < mant b.
Proof.
  intros Ha Hb Hpos Hab.
  apply (nnf_le_val 1074 a b Ha Hb) in Hab; [|lia].
  destruct (nnf_bounds a Ha) as [_ [He _]]. destruct (nnf_bounds b Hb) as [_ [He' _]].
  apply (val_pos_mant 1074 b ltac:(lia)).
  apply (val_pos_mant 1074 a ltac:(lia)) in Hpos. lia.
Qed.

Lemma SFleb_zero_nnx x : nnx x -> SFleb (S754_zero false) x = true.
Proof.
  intros [Hx| ->]; [|reflexivity].
  destruct x as [[|]|s| |[|] m e]; cbn [nnf] in Hx; try discriminate; reflexivity.
Qed.

(** *** Integers as doubles *)
Lemma of_int_nnf z : 0 <= z <= 2 ^ 63 -> nnf (of_int z) = true.
Proof.
  intros Hz. apply (nnx_le_nnf _ (of_int (2 ^ 63))).
  - apply of_int_nnx. lia.
  - reflexivity.
  - apply of_int_mono. lia.
Qed.

Lemma of_int_mant_pos z : 0 < z <= 2 ^ 63 -> 0 < mant (of_int z).
Proof.
  intros Hz. apply (SFleb_mant_pos (of_int 1)).
  - reflexivity.
  - apply of_int_nnf. lia.
  - reflexivity.
  - apply of_int_mono. lia.
Qed.

Lemma to_int64_nnf X d :
  nnf d = true -> trunc_pos d <= INT64_MAX -> to_int64 X d = trunc_pos d.
Proof.
  intros Hd Hmax.
  pose proof (trunc_pos_mono d d Hd Hd (SFleb_refl_nnf d Hd)) as [Hpos _].
  unfold to_int64.
  assert (Ht : Double.trunc d = Some (trunc_pos d)).
  { destruct d as [[|]|s| |[|] m e]; cbn [nnf] in Hd; try discriminate; reflexivity. }
  rewrite Ht. unfold in_int64.
  destruct (Z.leb_spec INT64_MIN (trunc_pos d)) as [H1|H1];
    destruct (Z.leb_spec (trunc_pos d) INT64_MAX) as [H2|H2]; try reflexivity;
    unfold INT64_MIN in *; lia.
Qed.

(** A double between 0 and a double with a small integral part converts to
    its integral part. *)
Lemma to_int64_bounded X d b :
  nnx d -> nnf b = true -> SFleb d b = true -> trunc_pos b <= INT64_MAX ->
  nnf d = true /\ to_int64 X d = trunc_pos d /\ 0 <= trunc_pos d <= trunc_pos b.
Proof.
  intros Hd Hb Hle Hmax.
  pose proof (nnx_le_nnf d b Hd Hb Hle) as Hn.
  pose proof (trunc_pos_mono d b Hn Hb Hle) as Hm.
  split; [exact Hn|]. split; [|exact Hm].
  apply to_int64_nnf; [exact Hn|lia].
Qed.

(** ** The trace monad *)
Lemma bind_ok {A B} (m : M A) (f : A -> M B) tr a :
  m = (tr, Ok a) -> bind m f = (tr ++ fst (f a), snd (f a)).
Proof.
  intros ->. unfold bind. destruct (f a); reflexivity.
Qed.

Lemma bind_err {A B} (m : M A) (f : A -> M B) tr e :
  m = (tr, Err e) -> bind m f = (tr, Err e).
Proof.
  intros ->. reflexivity.
Qed.

Lemma outcome_bind_ok {A B} (m : M A) (f : A -> M B) a :
  outcome m = Ok a -> outcome (bind m f) = outcome (f a).
Proof.
  destruct m as [tr r]. simpl. intros ->.
  unfold bind. destruct (f a); reflexivity.
Qed.

Lemma trace_bind_ok {A B} (m : M A) (f : A -> M B) a :
  outcome m = Ok a -> trace (bind m f) = trace m ++ trace (f a).
Proof.
  destruct m as [tr r]. simpl. intros ->.
  unfold bind. destruct (f a); reflexivity.
Qed.

(** ** The scans *)

Lemma minmax_indexscan_shape rel idx attnum mm :
  exists r, minmax_indexscan rel idx attnum mm = ([IndexScan (relid rel) (indexoid idx)], Ok r)
            /\ fst r <> MINMAX_NO_INDEX.
Proof.
  unfold minmax_indexscan.
  destruct (index_getnext idx rel BackwardScanDirection);
    destruct (index_getnext idx rel ForwardScanDirection); simpl;
    eexists; (split; [reflexivity|]); simpl; discriminate.
Qed.

Lemma minmax_indexscan_empty rel idx attnum mm :
  tuples rel = [] ->
  minmax_indexscan rel idx attnum mm
  = ([IndexScan (relid rel) (indexoid idx)], Ok (MINMAX_NO_TUPLES, mm)).
Proof.
  intros Hrows. unfold minmax_indexscan, index_getnext, index_entries.
  rewrite Hrows. simpl. destruct mm; reflexivity.
Qed.

(** The loop over the indexes never fails, only starts index scans, and
    ends with MINMAX_NO_INDEX only if it started with it and no index has
    the column as its first attribute. *)
Lemma relation_minmax_indexscan_loop_shape rel attnum indexes :
  forall res mm,
  exists tr r,
    relation_minmax_indexscan_loop rel attnum indexes res mm = (tr, Ok r)
    /\ forallb is_index_scan tr = true
    /\ (fst r = MINMAX_NO_INDEX ->
        res = MINMAX_NO_INDEX
        /\ snd r = mm
        /\ tr = []
        /\ forallb (fun idx => negb (rd_att_attnum idx =? attnum)) indexes = true).
Proof.
  induction indexes as [|idx rest IH]; intros res mm; simpl.
  - exists [], (res, mm). repeat split; auto.
  - destruct (rd_att_attnum idx =? attnum) eqn:Hm.
    + destruct (minmax_indexscan_shape rel idx attnum mm) as [r [Hr Hne]].
      rewrite (bind_ok _ _ _ _ Hr).
      destruct (MinMaxResult_eqb (fst r) MINMAX_FOUND) eqn:Hf.
      * simpl. eexists _, r. split; [reflexivity|]. split; [reflexivity|].
        intros Hx. contradiction.
      * destruct (IH (fst r) (snd r)) as [tr' [r' [Hl [Htr Hno]]]].
        rewrite Hl. simpl. exists (IndexScan (relid rel) (indexoid idx) :: tr'), r'.
        split; [reflexivity|]. split; [exact Htr|].
        intros Hx. destruct (Hno Hx) as [Hres _]. contradiction.
    + unfold ret at 1. unfold bind at 1. simpl fst.
      destruct (MinMaxResult_eqb res MINMAX_FOUND) eqn:Hf.
      * simpl. exists [], (res, mm). split; [reflexivity|]. split; [reflexivity|].
        simpl. intros Hx. rewrite Hx in Hf. discriminate.
      * destruct (IH res mm) as [tr' [r' [Hl [Htr Hno]]]].
        simpl snd. rewrite Hl. simpl. exists tr', r'.
        split; [reflexivity|]. split; [exact Htr|].
        intros Hx. destruct (Hno Hx) as [Hres [Hmm [Hnil Hall]]]. auto.
Qed.

(** On a relation without rows the loop leaves the array as it was and
    ends with the result it started with or with MINMAX_NO_TUPLES. *)
Lemma relation_minmax_indexscan_loop_empty rel attnum indexes :
  tuples rel = [] ->
  forall res mm, res <> MINMAX_FOUND ->
  exists tr r,
    relation_minmax_indexscan_loop rel attnum indexes res mm = (tr, Ok (r, mm))
    /\ r <> MINMAX_FOUND.
Proof.
  intros Hrows. induction indexes as [|idx rest IH]; intros res mm Hres; simpl.
  - exists [], res. auto.
  - destruct (rd_att_attnum idx =? attnum).
    + rewrite (bind_ok _ _ _ _ (minmax_indexscan_empty rel idx attnum mm Hrows)).
      simpl. destruct (IH MINMAX_NO_TUPLES mm) as [tr [r [Hl Hr]]]; [discriminate|].
      rewrite Hl. simpl. eauto.
    + unfold ret at 1. unfold bind at 1. simpl fst.
      destruct (MinMaxResult_eqb res MINMAX_FOUND) eqn:Hf.
      { destruct res; simpl in Hf; try discriminate. contradiction. }
      destruct (IH res mm Hres) as [tr [r [Hl Hr]]].
      simpl snd. rewrite Hl. simpl. eauto.
Qed.

Lemma index_scans_only tr :
  forallb is_index_scan tr = true ->
  existsb is_heap_scan tr = false /\ existsb is_no_index_warning tr = false.
Proof.
  induction tr as [|ev tr IH]; simpl; [auto|].
  intros H. apply andb_true_iff in H. destruct H as [Hev Htr].
  destruct (IH Htr) as [H1 H2]. rewrite H1, H2.
  destruct ev; simpl in *; try discriminate; auto.
Qed.

(** C10. When some index of the chunk has the column as its first attribute,
    chunk_get_minmax neither scans the heap nor warns that an index is
    missing; if moreover the chunk has no rows, it returns false (no min
    and max found) and leaves the array as it was. *)
Theorem chunk_get_minmax_index_no_fallback rel atttype attnum mm :
  existsb (fun idx => rd_att_attnum idx =? attnum) (indexlist rel) = true ->
  existsb is_heap_scan (trace (chunk_get_minmax rel atttype attnum mm)) = false
  /\ existsb is_no_index_warning (trace (chunk_get_minmax rel atttype attnum mm)) = false
  /\ (tuples rel = [] ->
      outcome (chunk_get_minmax rel atttype attnum mm) = Ok (false, mm)).
Proof.
  intros Hidx. unfold chunk_get_minmax, relation_minmax_indexscan.
  destruct (relation_minmax_indexscan_loop_shape rel attnum (indexlist rel)
              MINMAX_NO_INDEX mm) as [tr [r [Hl [Htr Hno]]]].
  assert (Hne : MinMaxResult_eqb (fst r) MINMAX_NO_INDEX = false).
  { destruct (fst r) eqn:Hr; try reflexivity.
    destruct (Hno eq_refl) as [_ [_ [_ Hall]]].
    exfalso. clear -Hidx Hall. induction (indexlist rel) as [|i l IH]; simpl in *.
    - discriminate.
    - destruct (rd_att_attnum i =? attnum); simpl in *; [discriminate | auto]. }
  rewrite (bind_ok _ _ _ _ Hl). rewrite Hne. simpl.
  rewrite !app_nil_r.
  destruct (index_scans_only tr Htr) as [H1 H2].
  repeat split; auto.
  intros Hrows.
  destruct (relation_minmax_indexscan_loop_empty rel attnum (indexlist rel) Hrows
              MINMAX_NO_INDEX mm) as [tr' [r' [Hl' Hr']]]; [discriminate|].
  rewrite Hl in Hl'. inversion Hl'; subst. simpl.
  destruct r'; simpl; try reflexivity. contradiction.
Qed.

Lemma chunk_get_minmax_index_no_fallback_witness :
  let rel := {| relid := 100; tuples := []; indexlist := [time_desc_idx] |} in
  existsb is_heap_scan (trace (chunk_get_minmax rel INT8OID 1 (7, 8))) = false
  /\ existsb is_no_index_warning (trace (chunk_get_minmax rel INT8OID 1 (7, 8))) = false
  /\ (tuples rel = [] -> outcome (chunk_get_minmax rel INT8OID 1 (7, 8)) = Ok (false, (7, 8))).
Proof.
  apply (chunk_get_minmax_index_no_fallback
           {| relid := 100; tuples := []; indexlist := [time_desc_idx] |} INT8OID 1 (7, 8)).
  reflexivity.
Defined.

(** ** The memory budget *)
Lemma wrap64_small z : in_int64 z = true -> wrap64 z = z.
Proof.
  unfold in_int64, wrap64, INT64_MIN, INT64_MAX. intros H.
  apply andb_true_iff in H. destruct H as [H1 H2].
  apply Z.leb_le in H1. apply Z.leb_le in H2.
  rewrite Z.mod_small; lia.
Qed.

Lemma read_blocks_ok X S name v :
  config_blocks X S name = Some v ->
  read_blocks X S name = ([ConfigRead name], Ok v).
Proof.
  unfold config_blocks, read_blocks. destruct (GetConfigOption S name); [|discriminate].
  intros ->. reflexivity.
Qed.

(** C9. With a positive override, estimate_effective_memory_cache_size
    returns the override and reads no configuration option, whatever the
    configuration holds.  Without one, it returns the larger of
    shared_buffers and effective_cache_size in bytes, or half of the system
    memory when that is smaller. *)
Theorem estimate_effective_memory_cache_size_spec X S :
  0 < BLCKSZ X <= 32768 ->
  parses_int32 X ->
  in_int64 (system_memory_bytes S) = true ->
  (0 < fixed_effective_memory_cache_size S ->
     estimate_effective_memory_cache_size X S
     = ([], Ok (fixed_effective_memory_cache_size S)))
  /\ (fixed_effective_memory_cache_size S <= 0 ->
      forall shared_buffers effective_cache_size,
        config_blocks X S "shared_buffers" = Some shared_buffers ->
        config_blocks X S "effective_cache_size" = Some effective_cache_size ->
        outcome (estimate_effective_memory_cache_size X S)
        = Ok (Z.min (Z.max (shared_buffers * BLCKSZ X) (effective_cache_size * BLCKSZ X))
                    (Z.quot (system_memory_bytes S) 2))).
Proof.
  intros HB Hparse Hmem. unfold estimate_effective_memory_cache_size. split.
  - intros Hpos. apply Z.gtb_lt in Hpos. rewrite Hpos. reflexivity.
  - intros Hnp sb ecs Hsb Hecs.
    destruct (fixed_effective_memory_cache_size S >? 0) eqn:Hf.
    { apply Z.gtb_lt in Hf. lia. }
    rewrite (bind_ok _ _ _ _ (read_blocks_ok X S _ sb Hsb)).
    rewrite (bind_ok _ _ _ _ (read_blocks_ok X S _ ecs Hecs)).
    simpl. f_equal.
    assert (Hrs : - 2 ^ 31 <= sb < 2 ^ 31).
    { unfold config_blocks in Hsb. destruct (GetConfigOption S "shared_buffers");
        [eapply Hparse; eauto | discriminate]. }
    assert (Hre : - 2 ^ 31 <= ecs < 2 ^ 31).
    { unfold config_blocks in Hecs. destruct (GetConfigOption S "effective_cache_size");
        [eapply Hparse; eauto | discriminate]. }
    assert (Hmul : mul64 (Z.max sb ecs) (BLCKSZ X) = Z.max sb ecs * BLCKSZ X).
    { unfold mul64. apply wrap64_small. unfold in_int64, INT64_MIN, INT64_MAX.
      apply andb_true_iff. split; apply Z.leb_le; nia. }
    assert (Hdiv : div64 (system_memory_bytes S) 2 = Z.quot (system_memory_bytes S) 2).
    { unfold div64. apply wrap64_small. unfold in_int64, INT64_MIN, INT64_MAX in *.
      apply andb_true_iff in Hmem. destruct Hmem as [H1 H2].
      apply Z.leb_le in H1. apply Z.leb_le in H2.
      apply andb_true_iff. split; apply Z.leb_le;
        Z.quot_rem_to_equations; lia. }
    rewrite Hmul, Hdiv.
    rewrite (Z.mul_max_distr_nonneg_r sb ecs (BLCKSZ X)) by lia.
    destruct (Z.max sb ecs * BLCKSZ X >? Z.quot (system_memory_bytes S) 2) eqn:Hc.
    + apply Z.gtb_lt in Hc. rewrite Z.min_r by lia. reflexivity.
    + rewrite Z.gtb_ltb in Hc. apply Z.ltb_ge in Hc. rewrite Z.min_l by lia. reflexivity.
Qed.

Lemma parse_digits_nonneg s : forall acc v,
  0 <= acc -> parse_digits s acc = Some v -> 0 <= v.
Proof.
  induction s as [|c s IH]; intros acc v Hacc H; cbn [parse_digits] in H.
  - inversion H. lia.
  - destruct ((48 <=? Z.of_nat (Ascii.nat_of_ascii c))
              && (Z.of_nat (Ascii.nat_of_ascii c) <=? 57)) eqn:Hd; [|discriminate].
    apply andb_true_iff in Hd. destruct Hd as [H1 H2].
    apply Z.leb_le in H1. eapply IH; [|exact H]. lia.
Qed.

Lemma parse_decimal_int32 : parses_int32 x86_64.
Proof.
  intros s v. simpl. unfold parse_decimal. destruct s as [|c s]; [discriminate|].
  destruct (parse_digits (String c s) 0) as [w|] eqn:Hp; [|discriminate].
  destruct (w <? 2 ^ 31) eqn:Hw; [|discriminate].
  intros H. inversion H. subst. apply Z.ltb_lt in Hw.
  pose proof (parse_digits_nonneg _ _ _ (Z.le_refl 0) Hp). lia.
Qed.

Lemma estimate_effective_memory_cache_size_spec_witness :
  estimate_effective_memory_cache_size x86_64 (settings_16GB 1000) = ([], Ok 1000)
  /\ outcome (estimate_effective_memory_cache_size x86_64 (settings_16GB (-1)))
     = Ok 4294967296.
Proof.
  split.
  - apply (proj1 (estimate_effective_memory_cache_size_spec x86_64 (settings_16GB 1000)
                    ltac:(simpl; lia) parse_decimal_int32 eq_refl)).
    simpl; lia.
  - apply (proj2 (estimate_effective_memory_cache_size_spec x86_64 (settings_16GB (-1))
                    ltac:(simpl; lia) parse_decimal_int32 eq_refl)
             ltac:(simpl; lia) 16384 524288 eq_refl eq_refl).
Defined.

(** ** After the loop *)
Lemma calculate_chunk_interval_outcome X cat did coord target cur acc :
  outcome (scan_window X cat did coord target) = Ok (cur, acc) ->
  outcome (calculate_chunk_interval X cat did coord target)
  = outcome (finish_interval X cur acc).
Proof.
  intros H. unfold calculate_chunk_interval.
  rewrite (outcome_bind_ok _ _ _ H). reflexivity.
Qed.

Lemma calculate_chunk_interval_trace X cat did coord target cur acc :
  outcome (scan_window X cat did coord target) = Ok (cur, acc) ->
  trace (calculate_chunk_interval X cat did coord target)
  = trace (scan_window X cat did coord target) ++ trace (finish_interval X cur acc).
Proof.
  intros H. unfold calculate_chunk_interval.
  rewrite (trace_bind_ok _ _ _ H). reflexivity.
Qed.

Lemma finish_interval_candidate X cur acc tr cand :
  candidate_interval X cur acc = (tr, Ok (Some cand)) ->
  finish_interval X cur acc
  = (tr ++ trace (dampen cur cand), outcome (dampen cur cand)).
Proof.
  intros H. unfold finish_interval. rewrite (bind_ok _ _ _ _ H). reflexivity.
Qed.

(** The candidate is computed on two of the three paths and never fails. *)
Lemma candidate_interval_cases X cur acc :
  (num_intervals acc = 0 /\ 1 < num_undersized_intervals acc
   /\ exists f c, candidate_interval X cur acc = ([DebugBoost f], Ok (Some c)))
  \/ (num_intervals acc = 0 /\ num_undersized_intervals acc <= 1
      /\ candidate_interval X cur acc = ([DebugKeepPrevious cur], Ok None))
  \/ (num_intervals acc <> 0
      /\ candidate_interval X cur acc
         = ([], Ok (Some (div64 (chunk_interval acc) (num_intervals acc))))).
Proof.
  unfold candidate_interval, NUM_UNDERSIZED_INTERVALS.
  destruct (num_intervals acc =? 0) eqn:Hn;
    [apply Z.eqb_eq in Hn | apply Z.eqb_neq in Hn].
  - destruct (num_undersized_intervals acc >? 1) eqn:Hu; simpl.
    + apply Z.gtb_lt in Hu. left. repeat split; auto. eexists _, _. reflexivity.
    + rewrite Z.gtb_ltb in Hu. apply Z.ltb_ge in Hu. right. left. auto.
  - simpl. right. right. auto.
Qed.

(** C6. When the loop leaves no usable sample and at most one undersized
    one, calculate_chunk_interval returns the current interval of the
    dimension; after the loop it only writes the message that the previous
    size is kept, so the change threshold is not applied. *)
Theorem no_evidence_keeps_current_interval X cat did coord target cur acc :
  outcome (scan_window X cat did coord target) = Ok (cur, acc) ->
  num_intervals acc = 0 ->
  num_undersized_intervals acc <= 1 ->
  outcome (calculate_chunk_interval X cat did coord target) = Ok cur
  /\ trace (calculate_chunk_interval X cat did coord target)
     = trace (scan_window X cat did coord target) ++ [DebugKeepPrevious cur].
Proof.
  intros Hscan Hn Hu.
  rewrite (calculate_chunk_interval_outcome _ _ _ _ _ _ _ Hscan).
  rewrite (calculate_chunk_interval_trace _ _ _ _ _ _ _ Hscan).
  unfold finish_interval.
  destruct (candidate_interval_cases X cur acc)
    as [[_ [Hlt _]] | [[_ [_ Hc]] | [Hne _]]]; try lia.
  rewrite (bind_ok _ _ _ _ Hc). simpl. auto.
Qed.




(** ** What the loop over the window writes *)
Lemma forallb_trace_bind {A B} (P : Event -> bool) (m : M A) (f : A -> M B) :
  forallb P (trace m) = true ->
  (forall a, forallb P (trace (f a)) = true) ->
  forallb P (trace (bind m f)) = true.
Proof.
  destruct m as [tr [a|e]]; simpl; intros Hm Hf; [|exact Hm].
  specialize (Hf a). destruct (f a) as [tr' r]. simpl in *.
  rewrite forallb_app, Hm, Hf. reflexivity.
Qed.

Lemma forallb_weaken {A} (P Q : A -> bool) l :
  (forall x, P x = true -> Q x = true) -> forallb P l = true -> forallb Q l = true.
Proof.
  intros HPQ. induction l as [|x l IH]; simpl; [auto|].
  intros H. apply andb_true_iff in H. destruct H as [Hx Hl].
  rewrite (HPQ _ Hx), (IH Hl). reflexivity.
Qed.

Lemma chunk_get_minmax_trace rel atttype attnum mm :
  forallb is_scan_event (trace (chunk_get_minmax rel atttype attnum mm)) = true.
Proof.
  unfold chunk_get_minmax, relation_minmax_indexscan.
  destruct (relation_minmax_indexscan_loop_shape rel attnum (indexlist rel)
              MINMAX_NO_INDEX mm) as [tr [r [Hl [Htr _]]]].
  apply forallb_trace_bind.
  - rewrite Hl. simpl. revert Htr. apply forallb_weaken.
    intros [] H; simpl in *; congruence.
  - intros a. apply forallb_trace_bind; [|reflexivity].
    destruct (MinMaxResult_eqb (fst a) MINMAX_NO_INDEX); [|reflexivity].
    apply forallb_trace_bind; [reflexivity|]. intros _.
    unfold minmax_heapscan. apply forallb_trace_bind.
    + destruct (lookup_type_cache atttype); reflexivity.
    + intros cmp. reflexivity.
Qed.

Lemma accumulate_trace X acc s :
  forallb is_scan_event (trace (accumulate X acc s)) = true.
Proof.
  unfold accumulate.
  destruct (gt (interval_fillfactor s) INTERVAL_FILLFACTOR_THRESH
            && gt (size_fillfactor s) SIZE_FILLFACTOR_THRESH); [reflexivity|].
  destruct (gt (interval_fillfactor s) INTERVAL_FILLFACTOR_THRESH); reflexivity.
Qed.

Lemma window_step_trace X dim target acc chunk :
  forallb is_scan_event (trace (window_step X dim target acc chunk)) = true.
Proof.
  unfold window_step. apply forallb_trace_bind.
  - destruct (hypercube_get_slice_by_dimension_id _ _); reflexivity.
  - intros slice. apply forallb_trace_bind; [apply chunk_get_minmax_trace|].
    intros r. destruct (fst r); [apply accumulate_trace | reflexivity].
Qed.

Lemma foreach_trace {A B} (P : Event -> bool) (f : A -> B -> M A) l :
  (forall a b, forallb P (trace (f a b)) = true) ->
  forall a, forallb P (trace (foreach f l a)) = true.
Proof.
  intros Hf. induction l as [|b l IH]; intros a; simpl; [reflexivity|].
  apply forallb_trace_bind; auto.
Qed.

Lemma scan_window_trace X cat did coord target :
  forallb is_scan_event (trace (scan_window X cat did coord target)) = true.
Proof.
  unfold scan_window.
  destruct (dimension_get_hypertable_id cat did <=? 0); [reflexivity|].
  apply forallb_trace_bind.
  { destruct (hypertable_get_by_id cat _); reflexivity. }
  intros ht. apply forallb_trace_bind.
  { destruct (hyperspace_get_dimension_by_id _ _); reflexivity. }
  intros dim. apply forallb_trace_bind; [|reflexivity].
  apply foreach_trace. intros a b. apply window_step_trace.
Qed.

(** ** The undersized path *)

Lemma no_boost_in_scan tr :
  forallb is_scan_event tr = true -> existsb is_boost tr = false.
Proof.
  induction tr as [|ev tr IH]; simpl; [auto|].
  intros H. apply andb_true_iff in H. destruct H as [Hev Htr].
  rewrite (IH Htr). destruct ev; simpl in *; congruence.
Qed.

(** C7. The undersized calculation runs exactly when the loop leaves no
    usable sample and more than one undersized one: the message of that
    path is written in this case and in no other, and the candidate is then
    the truncated product of the mean slice width and 0.165 / the mean size
    fillfactor.  With a single undersized sample and no usable one the
    current interval is returned and that message is not written. *)
Theorem undersized_boost_exactly_when X cat did coord target cur acc :
  outcome (scan_window X cat did coord target) = Ok (cur, acc) ->
  existsb is_boost (trace (calculate_chunk_interval X cat did coord target))
  = (num_intervals acc =? 0) && (1 <? num_undersized_intervals acc)
  /\ (num_intervals acc = 0 -> 1 < num_undersized_intervals acc ->
      outcome (candidate_interval X cur acc) = Ok (Some (boost_candidate X acc)))
  /\ (num_intervals acc = 0 -> num_undersized_intervals acc = 1 ->
      outcome (calculate_chunk_interval X cat did coord target) = Ok cur).
Proof.
  intros Hscan.
  rewrite (calculate_chunk_interval_outcome _ _ _ _ _ _ _ Hscan).
  rewrite (calculate_chunk_interval_trace _ _ _ _ _ _ _ Hscan).
  rewrite existsb_app, (no_boost_in_scan _ (scan_window_trace X cat did coord target)).
  simpl. split; [|split].
  - unfold finish_interval.
    destruct (candidate_interval_cases X cur acc)
      as [[Hn [Hlt [f [c Hc]]]] | [[Hn [Hle Hc]] | [Hne Hc]]];
      rewrite (bind_ok _ _ _ _ Hc); simpl.
    + rewrite Hn. apply Z.ltb_lt in Hlt. rewrite Hlt. reflexivity.
    + rewrite Hn. simpl. symmetry. apply Z.ltb_ge. exact Hle.
    + apply Z.eqb_neq in Hne. rewrite Hne. simpl.
      unfold dampen. destruct (le _ _); reflexivity.
  - intros Hn Hlt. unfold candidate_interval, NUM_UNDERSIZED_INTERVALS.
    rewrite Hn. apply Z.gtb_lt in Hlt. rewrite Hlt. reflexivity.
  - intros Hn Hu. unfold finish_interval, candidate_interval, NUM_UNDERSIZED_INTERVALS.
    rewrite Hn, Hu. reflexivity.
Qed.


(** ** One chunk of the window *)
Lemma foreach_app_outcome {A B} (f : A -> B -> M A) l1 l2 :
  forall a,
  outcome (foreach f (l1 ++ l2) a)
  = match outcome (foreach f l1 a) with
    | Ok a' => outcome (foreach f l2 a')
    | Err e => Err e
    end.
Proof.
  induction l1 as [|b l1 IH]; intros a; simpl; [reflexivity|].
  destruct (f a b) as [tr [a'|e]] eqn:Hf.
  - rewrite !(outcome_bind_ok (tr, Ok a') _ a' eq_refl). apply IH.
  - reflexivity.
Qed.

Lemma window_step_found X dim target acc chunk slice mm :
  hypercube_get_slice_by_dimension_id (cube chunk) (dimension_id dim) = Some slice ->
  outcome (chunk_get_minmax (table chunk) (column_type dim) (chunk_attno chunk)
             (stack_minmax X (relid (table chunk)))) = Ok (true, mm) ->
  window_step X dim target acc chunk
  = bind (chunk_get_minmax (table chunk) (column_type dim) (chunk_attno chunk)
            (stack_minmax X (relid (table chunk))))
         (fun _ =>
            accumulate X acc
              (sample_of X target (total_relation_size chunk)
                 (sub64 (range_end slice) (range_start slice))
                 (time_value_to_internal X (fst mm) (column_type dim))
                 (time_value_to_internal X (snd mm) (column_type dim)))).
Proof.
  intros Hslice Hmm. unfold window_step. rewrite Hslice. simpl.
  destruct (chunk_get_minmax _ _ _ _) as [tr r]. simpl in Hmm. subst r.
  simpl. destruct (accumulate _ _ _). reflexivity.
Qed.





(** ** The literal scenario *)
Lemma scan_window_one_chunk X cat did coord target ht dim chunk :
  0 < dimension_get_hypertable_id cat did ->
  hypertable_get_by_id cat (dimension_get_hypertable_id cat did) = Some ht ->
  hyperspace_get_dimension_by_id (space ht) did = Some dim ->
  chunk_get_window cat (dimension_get_hypertable_id cat did) coord DEFAULT_CHUNK_WINDOW
  = [chunk] ->
  forall acc,
  outcome (window_step X dim target acc_init chunk) = Ok acc ->
  outcome (scan_window X cat did coord target) = Ok (interval_length dim, acc).
Proof.
  intros Hid Hht Hdim Hwin acc Hstep. unfold scan_window.
  destruct (dimension_get_hypertable_id cat did <=? 0) eqn:Hle.
  { apply Z.leb_le in Hle. lia. }
  rewrite Hht. simpl. rewrite Hdim. simpl. rewrite Hwin. simpl.
  destruct (window_step X dim target acc_init chunk) as [tr r]. simpl in Hstep.
  subst r. reflexivity.
Qed.

(** C4. Current interval 86400, target size 100000000 bytes, and a window
    of one chunk with a slice of width 86400, a located minimum and maximum
    86400 apart and a size of 120000000 bytes: calculate_chunk_interval
    returns 72000. *)
Theorem literal_scenario_72000 X cat did coord ht dim chunk slice mm :
  0 < dimension_get_hypertable_id cat did ->
  hypertable_get_by_id cat (dimension_get_hypertable_id cat did) = Some ht ->
  hyperspace_get_dimension_by_id (space ht) did = Some dim ->
  interval_length dim = 86400 ->
  chunk_get_window cat (dimension_get_hypertable_id cat did) coord DEFAULT_CHUNK_WINDOW
  = [chunk] ->
  hypercube_get_slice_by_dimension_id (cube chunk) (dimension_id dim) = Some slice ->
  sub64 (range_end slice) (range_start slice) = 86400 ->
  total_relation_size chunk = 120000000 ->
  outcome (chunk_get_minmax (table chunk) (column_type dim) (chunk_attno chunk)
             (stack_minmax X (relid (table chunk)))) = Ok (true, mm) ->
  Double.sub (of_int (time_value_to_internal X (snd mm) (column_type dim)))
             (of_int (time_value_to_internal X (fst mm) (column_type dim)))
  = of_int 86400 ->
  outcome (calculate_chunk_interval X cat did coord 100000000) = Ok 72000.
Proof.
  intros Hid Hht Hdim Hcur Hwin Hslice Hwidth Hsize Hmm Hspan.
  assert (Hstep : outcome (window_step X dim 100000000 acc_init chunk)
                  = Ok {| chunk_interval := 72000; undersized_intervals := 0;
                          num_intervals := 1; num_undersized_intervals := 0;
                          undersized_fillfactor := d0_0 |}).
  { rewrite (window_step_found _ _ _ _ _ _ _ Hslice Hmm).
    rewrite (outcome_bind_ok _ _ _ Hmm).
    unfold sample_of. rewrite Hspan, Hwidth, Hsize. vm_compute. reflexivity. }
  rewrite (calculate_chunk_interval_outcome _ _ _ _ _ _ _
             (scan_window_one_chunk _ _ _ _ _ _ _ _ Hid Hht Hdim Hwin _ Hstep)).
  rewrite Hcur. vm_compute. reflexivity.
Qed.

Lemma literal_scenario_72000_witness :
  outcome (calculate_chunk_interval x86_64
             (one_dimension 86400 [scenario_chunk 120000000]) 1 86400 100000000)
  = Ok 72000.
Proof.
  apply (literal_scenario_72000 x86_64
           (one_dimension 86400 [scenario_chunk 120000000]) 1 86400
           {| hypertable_id := 1;
              space := [ {| dimension_id := 1; column_type := INT8OID;
                            interval_length := 86400 |} ] |}
           {| dimension_id := 1; column_type := INT8OID; interval_length := 86400 |}
           (scenario_chunk 120000000)
           {| slice_dimension_id := 1; range_start := 0; range_end := 86400 |}
           (0, 86400));
    reflexivity.
Defined.

(** ** Instances *)
Lemma no_evidence_keeps_current_interval_witness :
  outcome (calculate_chunk_interval x86_64
             (one_dimension 86400 [scenario_chunk 1000]) 1 86400 100000000)
  = Ok 86400
  /\ trace (calculate_chunk_interval x86_64
              (one_dimension 86400 [scenario_chunk 1000]) 1 86400 100000000)
     = [IndexScan 100 9001; DebugUndersized; DebugKeepPrevious 86400].
Proof.
  refine (no_evidence_keeps_current_interval x86_64
            (one_dimension 86400 [scenario_chunk 1000]) 1 86400 100000000 86400
            {| chunk_interval := 0; undersized_intervals := 86400; num_intervals := 0;
               num_undersized_intervals := 1;
               undersized_fillfactor := S754_finite false 5902958103587057 (-69) |}
            _ _ _).
  - vm_compute. reflexivity.
  - reflexivity.
  - simpl. lia.
Defined.


Lemma undersized_boost_exactly_when_witness :
  let two := one_dimension 86400 [undersized_chunk 100 0 1000; undersized_chunk 101 1 2000] in
  let one := one_dimension 86400 [undersized_chunk 100 0 1000] in
  (existsb is_boost (trace (calculate_chunk_interval x86_64 two 1 172800 100000000)) = true
   /\ outcome (candidate_interval x86_64 86400
                 {| chunk_interval := 0; undersized_intervals := 172800;
                    num_intervals := 0; num_undersized_intervals := 2;
                    undersized_fillfactor := S754_finite false 8854437155380586 (-68) |})
      = Ok (Some 950399999))
  /\ (existsb is_boost (trace (calculate_chunk_interval x86_64 one 1 172800 100000000)) = false
      /\ outcome (calculate_chunk_interval x86_64 one 1 172800 100000000) = Ok 86400).
Proof.
  split.
  - destruct (undersized_boost_exactly_when x86_64
        (one_dimension 86400 [undersized_chunk 100 0 1000; undersized_chunk 101 1 2000])
        1 172800 100000000 86400
        {| chunk_interval := 0; undersized_intervals := 172800; num_intervals := 0;
           num_undersized_intervals := 2;
           undersized_fillfactor := S754_finite false 8854437155380586 (-68) |}
        ltac:(vm_compute; reflexivity)) as [Hb [Hc _]].
    split; [exact Hb | exact (Hc eq_refl ltac:(simpl; lia))].
  - destruct (undersized_boost_exactly_when x86_64
        (one_dimension 86400 [undersized_chunk 100 0 1000]) 1 172800 100000000 86400
        {| chunk_interval := 0; undersized_intervals := 86400; num_intervals := 0;
           num_undersized_intervals := 1;
           undersized_fillfactor := S754_finite false 5902958103587057 (-69) |}
        ltac:(vm_compute; reflexivity)) as [Hb [_ Hk]].
    split; [exact Hb | exact (Hk eq_refl eq_refl)].
Defined.



(** C8, as stated, fails: one more byte in the chunk leaves the candidate
    where it was. *)
Lemma candidate_not_strictly_decreasing :
  total_relation_size (scenario_chunk 120000001)
  < total_relation_size (scenario_chunk 120000002)
  /\ outcome (candidate_of_window x86_64
                (one_dimension 86400 [scenario_chunk 120000001]) 1 86400 100000000)
     = Ok (Some 71999)
  /\ outcome (candidate_of_window x86_64
                (one_dimension 86400 [scenario_chunk 120000002]) 1 86400 100000000)
     = Ok (Some 71999).
Proof.
  repeat split; vm_compute; reflexivity.
Qed.

(** ** The two scans *)

(** C1.  On an index in ascending order the backward scan comes first and
    its value, the largest, goes to [minmax[0]]; the forward scan puts the
    smallest into [minmax[1]].  The heap scan stores them the other way
    round, and keeps in [minmax[1]] what the array held before when that is
    larger than every value. *)
Theorem indexscan_ascending_swaps_min_max :
  let rel := {| relid := 100; tuples := [[Some 1]; [Some 2]];
                indexlist := [time_asc_idx] |} in
  outcome (minmax_indexscan rel time_asc_idx 1 (0, 0)) = Ok (MINMAX_FOUND, (2, 1))
  /\ outcome (chunk_get_minmax rel INT8OID 1 (0, 0)) = Ok (true, (2, 1))
  /\ outcome (minmax_heapscan rel INT8OID 1 (0, 0)) = Ok (MINMAX_FOUND, (1, 2))
  /\ outcome (minmax_heapscan rel INT8OID 1 (0, 5)) = Ok (MINMAX_FOUND, (1, 5)).
Proof.
  repeat split; vm_compute; reflexivity.
Qed.

(** ** A larger chunk *)

(** *** The interval a usable sample implies *)
Lemma gt_nnx_mant_pos c x :
  nnf c = true -> nnx x -> gt x c = true -> x = S754_infinity false \/ (nnf x = true /\ 0 < mant x).
Proof.
  intros Hc [Hx| ->] Hgt; [right|left; reflexivity].
  split; [exact Hx|]. exact (SFltb_mant_pos c x Hc Hx Hgt).
Qed.

Lemma div_by_infinity x :
  nnf x = true -> Double.div x (S754_infinity false) = S754_zero false.
Proof.
  destruct x as [[|]|s| |[|] m e]; cbn [nnf]; try discriminate; reflexivity.
Qed.

Lemma implied_bound w sf :
  0 < w <= 2 ^ 50 -> nnx sf -> gt sf SIZE_FILLFACTOR_THRESH = true ->
  nnf (Double.div (of_int w) sf) = true
  /\ SFleb (Double.div (of_int w) sf) (of_int (2 ^ 53)) = true.
Proof.
  intros Hw Hsf Hgt.
  assert (HW : nnf (of_int w) = true) by (apply of_int_nnf; lia).
  destruct (gt_nnx_mant_pos SIZE_FILLFACTOR_THRESH sf eq_refl Hsf Hgt) as [-> | [Hn Hp]].
  - rewrite div_by_infinity by exact HW. split; reflexivity.
  - assert (H1 : SFleb (Double.div (of_int w) sf)
                       (Double.div (of_int w) SIZE_FILLFACTOR_THRESH) = true).
    { apply div_mono_r; auto; try reflexivity.
      apply SFltb_le_nnf; auto. }
    assert (H2 : SFleb (Double.div (of_int w) SIZE_FILLFACTOR_THRESH)
                       (Double.div (of_int (2 ^ 50)) SIZE_FILLFACTOR_THRESH) = true).
    { apply div_mono_l; auto; try reflexivity. apply of_int_mono. lia. }
    assert (H3 : SFleb (Double.div (of_int (2 ^ 50)) SIZE_FILLFACTOR_THRESH)
                       (of_int (2 ^ 53)) = true) by (vm_compute; reflexivity).
    assert (N3 : nnf (Double.div (of_int (2 ^ 50)) SIZE_FILLFACTOR_THRESH) = true)
      by (vm_compute; reflexivity).
    assert (N2 : nnf (Double.div (of_int w) SIZE_FILLFACTOR_THRESH) = true).
    { apply (nnx_le_nnf _ _ (div_nnx (of_int w) SIZE_FILLFACTOR_THRESH HW eq_refl eq_refl) N3 H2). }
    assert (N1 : nnf (Double.div (of_int w) sf) = true).
    { apply (nnx_le_nnf _ _ (div_nnx _ _ HW Hn Hp) N2 H1). }
    split; [exact N1|].
    apply (SFleb_trans_nnf _ _ (of_int (2 ^ 53)) N1 N2 eq_refl H1).
    apply (SFleb_trans_nnf _ _ (of_int (2 ^ 53)) N2 N3 eq_refl H2 H3).
Qed.

Lemma implied_mono w sf1 sf2 :
  0 < w <= 2 ^ 50 -> nnx sf1 -> nnx sf2 ->
  gt sf1 SIZE_FILLFACTOR_THRESH = true -> SFleb sf1 sf2 = true ->
  gt sf2 SIZE_FILLFACTOR_THRESH = true
  /\ SFleb (Double.div (of_int w) sf2) (Double.div (of_int w) sf1) = true.
Proof.
  intros Hw H1 H2 Hgt Hle.
  assert (HW : nnf (of_int w) = true) by (apply of_int_nnf; lia).
  destruct (implied_bound w sf1 Hw H1 Hgt) as [Hn1 _].
  destruct H2 as [H2| ->].
  - destruct (gt_nnx_mant_pos SIZE_FILLFACTOR_THRESH sf1 eq_refl H1 Hgt)
      as [-> | [Hn Hp]].
    + exfalso. destruct sf2 as [[|]|s| |[|] m e]; cbn [nnf] in H2; discriminate.
    + split.
      * exact (SFltb_le_trans_nnf SIZE_FILLFACTOR_THRESH sf1 sf2 eq_refl Hn H2 Hgt Hle).
      * apply div_mono_r; auto.
  - split; [reflexivity|].
    rewrite div_by_infinity by exact HW.
    apply SFleb_zero_nnx. left. exact Hn1.
Qed.

(** *** One more usable sample in the sum *)
Lemma add_sum_bound j :
  0 <= j <= 2 ->
  nnf (Double.add (of_int (j * 2 ^ 53)) (of_int (2 ^ 53))) = true
  /\ trunc_pos (Double.add (of_int (j * 2 ^ 53)) (of_int (2 ^ 53))) = (j + 1) * 2 ^ 53.
Proof.
  intros Hj. assert (Hc : j = 0 \/ j = 1 \/ j = 2) by lia.
  destruct Hc as [-> | [-> | ->]]; split; vm_compute; reflexivity.
Qed.

Lemma usable_step X ci1 ci2 j i1 i2 :
  0 <= ci2 <= ci1 -> ci1 <= j * 2 ^ 53 -> 0 <= j <= 2 ->
  nnf i1 = true -> nnf i2 = true ->
  SFleb i2 i1 = true -> SFleb i1 (of_int (2 ^ 53)) = true ->
  0 <= to_int64 X (Double.add (of_int ci2) i2)
    <= to_int64 X (Double.add (of_int ci1) i1)
  /\ to_int64 X (Double.add (of_int ci1) i1) <= (j + 1) * 2 ^ 53.
Proof.
  intros Hci Hb Hj Hn1 Hn2 Hle Hbd.
  assert (HC1 : nnf (of_int ci1) = true) by (apply of_int_nnf; lia).
  assert (HC2 : nnf (of_int ci2) = true) by (apply of_int_nnf; lia).
  assert (HCj : nnf (of_int (j * 2 ^ 53)) = true) by (apply of_int_nnf; lia).
  destruct (add_sum_bound j Hj) as [HnB HtB].
  set (B := Double.add (of_int (j * 2 ^ 53)) (of_int (2 ^ 53))) in *.
  assert (H1 : SFleb (Double.add (of_int ci1) i1) B = true).
  { apply add_mono; auto. apply of_int_mono. lia. }
  assert (H2 : SFleb (Double.add (of_int ci2) i2) (Double.add (of_int ci1) i1) = true).
  { apply add_mono; auto. apply of_int_mono. lia. }
  assert (Hmax : trunc_pos B <= INT64_MAX) by (rewrite HtB; unfold INT64_MAX; lia).
  destruct (to_int64_bounded X _ B (add_nnx _ _ HC1 Hn1) HnB H1 Hmax) as [N1 [E1 T1]].
  assert (N2 : nnf (Double.add (of_int ci2) i2) = true).
  { exact (nnx_le_nnf _ _ (add_nnx _ _ HC2 Hn2) N1 H2). }
  pose proof (trunc_pos_mono _ _ N2 N1 H2) as T2.
  rewrite E1. rewrite (to_int64_nnf X _ N2) by lia.
  rewrite HtB in T1. lia.
Qed.

(** *** A larger size *)
Lemma sample_size_mono X T S S' w mn mx :
  0 < T <= INT64_MAX -> 0 <= S <= S' -> S' <= 2 ^ 60 ->
  usable (sample_of X T S w mn mx) = true ->
  nnx (size_fillfactor (sample_of X T S w mn mx))
  /\ nnx (size_fillfactor (sample_of X T S' w mn mx))
  /\ SFleb (size_fillfactor (sample_of X T S w mn mx))
           (size_fillfactor (sample_of X T S' w mn mx)) = true.
Proof.
  intros HT HS HS' Hus. unfold usable in Hus.
  apply andb_true_iff in Hus. destruct Hus as [Hf Hsf].
  unfold sample_of in *. cbn [interval_fillfactor size_fillfactor] in *.
  set (f := Double.div (Double.sub (of_int mx) (of_int mn)) (of_int w)) in *.
  assert (HnS : nnf (of_int S) = true) by (apply of_int_nnf; lia).
  assert (HnS' : nnf (of_int S') = true) by (apply of_int_nnf; lia).
  assert (HnT : nnf (of_int T) = true) by (apply of_int_nnf; unfold INT64_MAX in *; lia).
  assert (HpT : 0 < mant (of_int T))
    by (apply of_int_mant_pos; unfold INT64_MAX in *; lia).
  pose proof (div_gt_nnx INTERVAL_FILLFACTOR_THRESH _ _ eq_refl Hf) as Hfx. fold f in Hfx.
  destruct (gt_nnx_mant_pos INTERVAL_FILLFACTOR_THRESH f eq_refl Hfx Hf)
    as [Einf | [Hnf Hpf]].
  { (* an infinite fillfactor gives the size 0, which is not usable *)
    exfalso. rewrite Einf in Hsf. rewrite div_by_infinity in Hsf by exact HnS.
    replace (to_int64 X (S754_zero false)) with 0 in Hsf by reflexivity.
    assert (Hz : Double.div (of_int 0) (of_int T) = S754_zero false).
    { change (of_int 0) with (S754_zero false).
      destruct (of_int T) as [[|]|s| |[|] m e] eqn:ET; cbn [nnf] in HnT;
        try discriminate; try reflexivity. }
    rewrite Hz in Hsf. discriminate. }
  (* the extrapolated sizes *)
  assert (Hb : SFleb (Double.div (of_int (2 ^ 60)) f) (of_int (2 ^ 61)) = true).
  { assert (Hle : SFleb (Double.div (of_int (2 ^ 60)) f)
                        (Double.div (of_int (2 ^ 60)) INTERVAL_FILLFACTOR_THRESH) = true).
    { apply div_mono_r; auto; try reflexivity. apply SFltb_le_nnf; auto. }
    pose proof (nnx_le_nnf _ (Double.div (of_int (2 ^ 60)) INTERVAL_FILLFACTOR_THRESH)
                  (div_nnx (of_int (2 ^ 60)) f eq_refl Hnf Hpf) eq_refl Hle) as Hn.
    exact (SFleb_trans_nnf _ (Double.div (of_int (2 ^ 60)) INTERVAL_FILLFACTOR_THRESH)
             (of_int (2 ^ 61)) Hn eq_refl eq_refl Hle eq_refl). }
  assert (Hn60 : nnf (Double.div (of_int (2 ^ 60)) f) = true).
  { exact (nnx_le_nnf _ (of_int (2 ^ 61)) (div_nnx (of_int (2 ^ 60)) f eq_refl Hnf Hpf)
             eq_refl Hb). }
  assert (Hq' : SFleb (Double.div (of_int S') f) (Double.div (of_int (2 ^ 60)) f) = true).
  { apply div_mono_l; auto. apply of_int_mono. lia. }
  assert (Hnq' : nnf (Double.div (of_int S') f) = true).
  { exact (nnx_le_nnf _ _ (div_nnx _ _ HnS' Hnf Hpf) Hn60 Hq'). }
  assert (Hq : SFleb (Double.div (of_int S) f) (Double.div (of_int S') f) = true).
  { apply div_mono_l; auto. apply of_int_mono. lia. }
  assert (Hnq : nnf (Double.div (of_int S) f) = true).
  { exact (nnx_le_nnf _ _ (div_nnx _ _ HnS Hnf Hpf) Hnq' Hq). }
  assert (Hq61 : SFleb (Double.div (of_int S') f) (of_int (2 ^ 61)) = true).
  { exact (SFleb_trans_nnf _ _ (of_int (2 ^ 61)) Hnq' Hn60 eq_refl Hq' Hb). }
  assert (Ht61 : trunc_pos (of_int (2 ^ 61)) = 2 ^ 61) by reflexivity.
  pose proof (trunc_pos_mono _ (of_int (2 ^ 61)) Hnq' eq_refl Hq61) as Text'.
  rewrite Ht61 in Text'.
  pose proof (trunc_pos_mono _ _ Hnq Hnq' Hq) as Text.
  rewrite (to_int64_nnf X _ Hnq) by (unfold INT64_MAX; lia).
  rewrite (to_int64_nnf X _ Hnq') by (unfold INT64_MAX; lia).
  rewrite (to_int64_nnf X _ Hnq) in Hsf by (unfold INT64_MAX; lia).
  set (ext := trunc_pos (Double.div (of_int S) f)) in *.
  set (ext' := trunc_pos (Double.div (of_int S') f)) in *.
  assert (He : nnf (of_int ext) = true) by (apply of_int_nnf; lia).
  assert (He' : nnf (of_int ext') = true) by (apply of_int_nnf; lia).
  split; [apply div_nnx; auto|]. split; [apply div_nnx; auto|].
  apply div_mono_l; auto. apply of_int_mono. lia.
Qed.

Lemma accumulate_outcome X acc s :
  outcome (accumulate X acc s) = Ok (add_sample X acc s).
Proof.
  unfold accumulate, add_sample, usable.
  destruct (gt (interval_fillfactor s) INTERVAL_FILLFACTOR_THRESH
            && gt (size_fillfactor s) SIZE_FILLFACTOR_THRESH); [reflexivity|].
  destruct (gt (interval_fillfactor s) INTERVAL_FILLFACTOR_THRESH); reflexivity.
Qed.

Lemma window_step_outcome X dim target acc chunk :
  outcome (window_step X dim target acc chunk)
  = match chunk_sample X dim target chunk with
    | Ok (Some s) => Ok (add_sample X acc s)
    | Ok None => Ok acc
    | Err e => Err e
    end.
Proof.
  unfold window_step, chunk_sample.
  destruct (hypercube_get_slice_by_dimension_id (cube chunk) (dimension_id dim))
    as [slice|]; [|reflexivity].
  cbn [deref]. rewrite (outcome_bind_ok (ret slice) _ slice eq_refl).
  destruct (chunk_get_minmax (table chunk) (column_type dim) (chunk_attno chunk)
              (stack_minmax X (relid (table chunk)))) as [tr [r|e]]; [|reflexivity].
  rewrite (outcome_bind_ok (tr, Ok r) _ r eq_refl). cbn [outcome snd].
  destruct (fst r); [apply accumulate_outcome | reflexivity].
Qed.

Lemma wrap32_small z : - 2 ^ 31 <= z < 2 ^ 31 -> wrap32 z = z.
Proof.
  intros H. unfold wrap32. rewrite Z.mod_small; lia.
Qed.

Lemma SFleb_refl_nnx x : nnx x -> SFleb x x = true.
Proof.
  intros [Hx| ->]; [apply SFleb_refl_nnf; exact Hx | reflexivity].
Qed.

Lemma usable_nnx X T S w mn mx :
  usable (sample_of X T S w mn mx) = true ->
  nnx (size_fillfactor (sample_of X T S w mn mx)).
Proof.
  unfold usable. intros H. apply andb_true_iff in H. destruct H as [_ H].
  unfold sample_of in *. cbn [size_fillfactor] in *.
  exact (div_gt_nnx SIZE_FILLFACTOR_THRESH _ _ eq_refl H).
Qed.

(** One sample more in both runs. *)
Lemma add_sample_mono X a1 a2 j s1 s2 :
  acc_le a2 a1 j -> 0 <= j <= 2 ->
  interval_fillfactor s2 = interval_fillfactor s1 ->
  slice_interval s2 = slice_interval s1 ->
  0 < slice_interval s1 <= 2 ^ 50 ->
  (usable s1 = true ->
   nnx (size_fillfactor s1) /\ nnx (size_fillfactor s2)
   /\ SFleb (size_fillfactor s1) (size_fillfactor s2) = true) ->
  (usable s1 = false -> s2 = s1) ->
  acc_le (add_sample X a2 s2) (add_sample X a1 s1) (j + 1)
  /\ num_intervals a1 <= num_intervals (add_sample X a1 s1)
  /\ (usable s1 = true -> 1 <= num_intervals (add_sample X a1 s1)).
Proof.
  intros [Hci [Hb [Hn [E1 [E2 [E3 E4]]]]]] Hj Hf Hw Hwb Hus Hnot.
  destruct (usable s1) eqn:U1.
  - destruct (Hus eq_refl) as [N1 [N2 Hle]].
    assert (U1' := U1). unfold usable in U1'. apply andb_true_iff in U1'.
    destruct U1' as [Gf Gs].
    destruct (implied_mono (slice_interval s1) _ _ Hwb N1 N2 Gs Hle) as [Gs2 Hi].
    assert (U2 : usable s2 = true).
    { unfold usable. rewrite Hf, Gf, Gs2. reflexivity. }
    destruct (implied_bound (slice_interval s1) _ Hwb N1 Gs) as [Hn1 Hb1].
    destruct (implied_bound (slice_interval s1) _ Hwb N2 Gs2) as [Hn2 _].
    destruct (usable_step X (chunk_interval a1) (chunk_interval a2) j _ _
                Hci Hb Hj Hn1 Hn2 Hi Hb1) as [Hr1 Hr2].
    unfold add_sample. rewrite U1, U2, Hw, E2.
    rewrite (wrap32_small (num_intervals a1 + 1)) by lia.
    unfold acc_le. cbn [chunk_interval undersized_intervals num_intervals
                          num_undersized_intervals undersized_fillfactor].
    repeat split; auto; lia.
  - rewrite (Hnot eq_refl). unfold add_sample. rewrite U1.
    destruct (gt (interval_fillfactor s1) INTERVAL_FILLFACTOR_THRESH).
    + unfold acc_le. cbn [chunk_interval undersized_intervals num_intervals
                            num_undersized_intervals undersized_fillfactor].
      rewrite E1, E3, E4. repeat split; auto; try lia; discriminate.
    + unfold acc_le. repeat split; auto; try lia; discriminate.
Qed.

Lemma chunk_sample_form X dim target chunk s :
  chunk_sample X dim target chunk = Ok (Some s) ->
  exists slice mn mx,
    hypercube_get_slice_by_dimension_id (cube chunk) (dimension_id dim) = Some slice
    /\ (forall size,
          chunk_sample X dim target (with_size chunk size)
          = Ok (Some (sample_of X target size
                        (sub64 (range_end slice) (range_start slice)) mn mx)))
    /\ s = sample_of X target (total_relation_size chunk)
             (sub64 (range_end slice) (range_start slice)) mn mx.
Proof.
  unfold chunk_sample. cbn [with_size table cube chunk_attno total_relation_size].
  destruct (hypercube_get_slice_by_dimension_id (cube chunk) (dimension_id dim))
    as [slice|]; [|discriminate].
  destruct (outcome (chunk_get_minmax _ _ _ _)) as [r|e]; [|discriminate].
  destruct (fst r); [|discriminate].
  intros H. inversion H. eexists slice, _, _. repeat split.
Qed.

(** The same chunks in both runs. *)
Lemma window_lockstep X dim target chunks :
  forall j a1 a2,
    acc_le a2 a1 j -> 0 <= j -> j + Z.of_nat (List.length chunks) <= 3 ->
    Forall (width_ok dim) chunks ->
    match outcome (foreach (window_step X dim target) chunks a1),
          outcome (foreach (window_step X dim target) chunks a2) with
    | Ok r1, Ok r2 =>
        acc_le r2 r1 (j + Z.of_nat (List.length chunks))
        /\ num_intervals a1 <= num_intervals r1
    | Err e1, Err e2 => e1 = e2
    | _, _ => False
    end.
Proof.
  induction chunks as [|c chunks IH]; intros j a1 a2 Hle Hj Hlen Hw.
  - simpl. rewrite Z.add_0_r. split; [exact Hle | lia].
  - cbn [foreach]. cbn [List.length] in Hlen. rewrite Nat2Z.inj_succ in Hlen.
    inversion Hw as [|c' l' Hc Hrest]; subst.
    pose proof (window_step_outcome X dim target a1 c) as O1.
    pose proof (window_step_outcome X dim target a2 c) as O2.
    destruct (chunk_sample X dim target c) as [[s|]|e] eqn:Es.
    + destruct (chunk_sample_form X dim target c s Es) as [slice [mn [mx [Hs [_ Hform]]]]].
      assert (Hwb : 0 < slice_interval s <= 2 ^ 50).
      { rewrite Hform. cbn [sample_of slice_interval]. exact (Hc slice Hs). }
      destruct (add_sample_mono X a1 a2 j s s Hle ltac:(lia) eq_refl eq_refl Hwb)
        as [Hle' [Hn' _]].
      { intros U. rewrite Hform in U. pose proof (usable_nnx _ _ _ _ _ _ U) as Hx.
        rewrite <- Hform in Hx. split; [exact Hx|]. split; [exact Hx|].
        apply SFleb_refl_nnx. exact Hx. }
      { reflexivity. }
      rewrite (outcome_bind_ok _ _ _ O1), (outcome_bind_ok _ _ _ O2).
      specialize (IH (j + 1) _ _ Hle' ltac:(lia) ltac:(lia) Hrest).
      destruct (outcome (foreach (window_step X dim target) chunks (add_sample X a1 s)));
        destruct (outcome (foreach (window_step X dim target) chunks (add_sample X a2 s)));
        auto.
      destruct IH as [IH1 IH2]. cbn [List.length]. rewrite Nat2Z.inj_succ.
      replace (j + Z.succ (Z.of_nat (List.length chunks)))
        with (j + 1 + Z.of_nat (List.length chunks)) by lia.
      split; [exact IH1 | lia].
    + rewrite (outcome_bind_ok _ _ _ O1), (outcome_bind_ok _ _ _ O2).
      assert (Hle' : acc_le a2 a1 (j + 1)).
      { unfold acc_le in *. repeat split; try tauto; lia. }
      specialize (IH (j + 1) _ _ Hle' ltac:(lia) ltac:(lia) Hrest).
      destruct (outcome (foreach (window_step X dim target) chunks a1));
        destruct (outcome (foreach (window_step X dim target) chunks a2)); auto.
      destruct IH as [IH1 IH2]. cbn [List.length]. rewrite Nat2Z.inj_succ.
      replace (j + Z.succ (Z.of_nat (List.length chunks)))
        with (j + 1 + Z.of_nat (List.length chunks)) by lia.
      split; [exact IH1 | lia].
    + destruct (window_step X dim target a1 c) as [t1 [r1|e1]]; [discriminate|].
      destruct (window_step X dim target a2 c) as [t2 [r2|e2]]; [discriminate|].
      simpl in *. congruence.
Qed.

Lemma candidate_interval_usable X cur acc :
  1 <= num_intervals acc ->
  outcome (candidate_interval X cur acc)
  = Ok (Some (div64 (chunk_interval acc) (num_intervals acc))).
Proof.
  intros H. unfold candidate_interval.
  destruct (Z.eqb_spec (num_intervals acc) 0) as [E|E]; [lia|]. reflexivity.
Qed.

Lemma div64_mono a b n :
  0 <= a <= b -> b <= 2 ^ 62 -> 1 <= n -> div64 a n <= div64 b n.
Proof.
  intros Hab Hb Hn. unfold div64.
  assert (H1 : 0 <= Z.quot a n <= a).
  { rewrite Z.quot_div_nonneg by lia. split; [apply Z.div_pos; lia|].
    apply Z.div_le_upper_bound; nia. }
  assert (H2 : 0 <= Z.quot b n <= b).
  { rewrite Z.quot_div_nonneg by lia. split; [apply Z.div_pos; lia|].
    apply Z.div_le_upper_bound; nia. }
  rewrite !wrap64_small
    by (unfold in_int64, INT64_MIN, INT64_MAX; apply andb_true_iff;
        split; apply Z.leb_le; lia).
  apply Z.quot_le_mono; lia.
Qed.

(** C8, as the source has it.  In a window of at most three chunks with
    slices of a positive width of at most 2^50, a larger size (up to 2^60
    bytes) of a usable chunk leaves the chunk usable and gives a candidate
    that is smaller or the same. *)
Theorem candidate_decreases_with_size X dim target before c after size' s acc1 :
  0 < target <= INT64_MAX ->
  0 <= total_relation_size c <= size' -> size' <= 2 ^ 60 ->
  Forall (width_ok dim) (before ++ c :: after) ->
  Z.of_nat (List.length (before ++ c :: after)) <= DEFAULT_CHUNK_WINDOW ->
  chunk_sample X dim target c = Ok (Some s) -> usable s = true ->
  outcome (foreach (window_step X dim target) (before ++ c :: after) acc_init) = Ok acc1 ->
  exists acc2 cand1 cand2,
    outcome (foreach (window_step X dim target)
               (before ++ with_size c size' :: after) acc_init) = Ok acc2
    /\ (forall cur, outcome (candidate_interval X cur acc1) = Ok (Some cand1))
    /\ (forall cur, outcome (candidate_interval X cur acc2) = Ok (Some cand2))
    /\ cand2 <= cand1.
Proof.
  intros HT HS HS' Hw Hlen Hs Hus Hrun.
  apply Forall_app in Hw. destruct Hw as [Hwb Hwca].
  inversion Hwca as [|c0 l0 Hwc Hwa]; subst.
  rewrite length_app in Hlen. cbn [List.length] in Hlen.
  unfold DEFAULT_CHUNK_WINDOW in Hlen.
  rewrite foreach_app_outcome in Hrun. rewrite foreach_app_outcome.
  (* the chunks before *)
  assert (Hinit : acc_le acc_init acc_init 0).
  { unfold acc_le, acc_init. cbn. repeat split; lia. }
  pose proof (window_lockstep X dim target before 0 acc_init acc_init Hinit
                ltac:(lia) ltac:(lia) Hwb) as Lb.
  destruct (outcome (foreach (window_step X dim target) before acc_init)) as [ab|e];
    [|discriminate].
  destruct Lb as [Lb _]. rewrite Z.add_0_l in Lb.
  set (jb := Z.of_nat (List.length before)) in *.
  (* the chunk whose size differs *)
  destruct (chunk_sample_form X dim target c s Hs) as [slice [mn [mx [Hsl [Hsz Hform]]]]].
  set (w := sub64 (range_end slice) (range_start slice)) in *.
  set (s' := sample_of X target size' w mn mx).
  destruct (sample_size_mono X target (total_relation_size c) size' w mn mx HT HS HS')
    as [N1 [N2 Hle]].
  { rewrite <- Hform. exact Hus. }
  rewrite <- Hform in N1, Hle. fold s' in N2, Hle.
  destruct (add_sample_mono X ab ab jb s s' Lb ltac:(lia)) as [Hc [_ Hn1]].
  { rewrite Hform. reflexivity. }
  { rewrite Hform. reflexivity. }
  { rewrite Hform. cbn [sample_of slice_interval]. exact (Hwc slice Hsl). }
  { intros _. auto. }
  { intros U. congruence. }
  specialize (Hn1 Hus).
  cbn [foreach] in Hrun. cbn [foreach].
  pose proof (window_step_outcome X dim target ab c) as O1. rewrite Hs in O1.
  pose proof (window_step_outcome X dim target ab (with_size c size')) as O2.
  rewrite (Hsz size') in O2. fold s' in O2.
  rewrite (outcome_bind_ok _ _ _ O1) in Hrun. rewrite (outcome_bind_ok _ _ _ O2).
  (* the chunks after *)
  pose proof (window_lockstep X dim target after (jb + 1) _ _ Hc
                ltac:(lia) ltac:(lia) Hwa) as La.
  rewrite Hrun in La.
  destruct (outcome (foreach (window_step X dim target) after (add_sample X ab s')))
    as [acc2|e]; [|contradiction].
  destruct La as [[Hci [Hb [Hn [_ [En _]]]]] Hmono].
  exists acc2, (div64 (chunk_interval acc1) (num_intervals acc1)),
    (div64 (chunk_interval acc2) (num_intervals acc2)).
  split; [reflexivity|].
  split; [intros cur; apply candidate_interval_usable; lia|].
  split; [intros cur; apply candidate_interval_usable; lia|].
  rewrite En. apply div64_mono; lia.
Qed.

Lemma candidate_decreases_with_size_witness :
  let dim := {| dimension_id := 1; column_type := INT8OID; interval_length := 86400 |} in
  exists acc2 cand1 cand2,
    outcome (foreach (window_step x86_64 dim 100000000)
               ([] ++ with_size (scenario_chunk 120000000) 130000000 :: []) acc_init)
    = Ok acc2
    /\ (forall cur, outcome (candidate_interval x86_64 cur
                               {| chunk_interval := 72000; undersized_intervals := 0;
                                  num_intervals := 1; num_undersized_intervals := 0;
                                  undersized_fillfactor := d0_0 |}) = Ok (Some cand1))
    /\ (forall cur, outcome (candidate_interval x86_64 cur acc2) = Ok (Some cand2))
    /\ cand2 <= cand1.
Proof.
  refine (candidate_decreases_with_size x86_64
            {| dimension_id := 1; column_type := INT8OID; interval_length := 86400 |}
            100000000 [] (scenario_chunk 120000000) [] 130000000
            (sample_of x86_64 100000000 120000000 86400 0 86400) _ _ _ _ _ _ _ _ _).
  - unfold INT64_MAX. lia.
  - simpl. lia.
  - lia.
  - constructor; [|constructor]. intros slice H. vm_compute in H.
    inversion H. vm_compute. split; [reflexivity | discriminate].
  - vm_compute. discriminate.
  - vm_compute. reflexivity.
  - vm_compute. reflexivity.
  - vm_compute. reflexivity.
Defined.

(** ** The sums of the undersized path *)

Lemma foreach_window_samples X dim target chunks :
  forall acc,
  outcome (foreach (window_step X dim target) chunks acc)
  = match window_samples X dim target chunks with
    | Ok ss => Ok (fold_left (add_sample X) ss acc)
    | Err e => Err e
    end.
Proof.
  induction chunks as [|c rest IH]; intros acc; [reflexivity|].
  cbn [foreach window_samples].
  pose proof (window_step_outcome X dim target acc c) as O.
  destruct (chunk_sample X dim target c) as [[s|]|e].
  - rewrite (outcome_bind_ok _ _ _ O), IH.
    destruct (window_samples X dim target rest); reflexivity.
  - rewrite (outcome_bind_ok _ _ _ O), IH.
    destruct (window_samples X dim target rest); reflexivity.
  - destruct (window_step X dim target acc c) as [tr [a|e']]; [discriminate|].
    simpl in *. exact O.
Qed.

Lemma wrap64_add_l a b : wrap64 (wrap64 a + b) = wrap64 (a + b).
Proof.
  unfold wrap64. f_equal.
  replace ((a + 2 ^ 63) mod 2 ^ 64 - 2 ^ 63 + b + 2 ^ 63)
    with ((a + 2 ^ 63) mod 2 ^ 64 + b) by lia.
  rewrite Z.add_mod_idemp_l by lia. f_equal. lia.
Qed.

Lemma wrap32_add_l a b : wrap32 (wrap32 a + b) = wrap32 (a + b).
Proof.
  unfold wrap32. f_equal.
  replace ((a + 2 ^ 31) mod 2 ^ 32 - 2 ^ 31 + b + 2 ^ 31)
    with ((a + 2 ^ 31) mod 2 ^ 32 + b) by lia.
  rewrite Z.add_mod_idemp_l by lia. f_equal. lia.
Qed.

(** The three variables of the undersized path hold the sum of the slice
    widths, the number and the sum of the size fillfactors of the undersized
    samples; the count of the usable path holds the number of usable ones. *)
Lemma fold_add_sample_sums X ss :
  forall acc,
  let r := fold_left (add_sample X) ss acc in
  wrap64 (undersized_intervals r)
  = wrap64 (undersized_intervals acc + sum_widths (filter undersized ss))
  /\ wrap32 (num_undersized_intervals r)
     = wrap32 (num_undersized_intervals acc
               + Z.of_nat (List.length (filter undersized ss)))
  /\ wrap32 (num_intervals r)
     = wrap32 (num_intervals acc + Z.of_nat (List.length (filter usable ss)))
  /\ undersized_fillfactor r
     = fold_left Double.add (map size_fillfactor (filter undersized ss))
         (undersized_fillfactor acc).
Proof.
  induction ss as [|s ss IH]; intros acc; cbn zeta.
  - cbn. rewrite !Z.add_0_r. auto.
  - cbn [fold_left filter]. specialize (IH (add_sample X acc s)). cbn zeta in IH.
    destruct IH as [I1 [I2 [I3 I4]]]. rewrite I1, I2, I3, I4. clear I1 I2 I3 I4.
    unfold add_sample.
    destruct (usable s) eqn:U.
    + assert (Hu : undersized s = false) by (unfold undersized; rewrite U; reflexivity).
      rewrite Hu.
      cbn [undersized_intervals num_undersized_intervals num_intervals
             undersized_fillfactor List.length].
      rewrite Nat2Z.inj_succ.
      split; [reflexivity|]. split; [reflexivity|]. split; [|reflexivity].
      rewrite wrap32_add_l. f_equal. lia.
    + destruct (gt (interval_fillfactor s) INTERVAL_FILLFACTOR_THRESH) eqn:G.
      * assert (Hu : undersized s = true)
          by (unfold undersized; rewrite U, G; reflexivity).
        rewrite Hu.
        cbn [undersized_intervals num_undersized_intervals num_intervals
               undersized_fillfactor List.length sum_widths fold_right map fold_left].
        rewrite Nat2Z.inj_succ. unfold add64.
        split; [|split; [|split; reflexivity]].
        -- rewrite wrap64_add_l. f_equal. fold (sum_widths (filter undersized ss)). lia.
        -- rewrite wrap32_add_l. f_equal. lia.
      * assert (Hu : undersized s = false)
          by (unfold undersized; rewrite U, G; reflexivity).
        rewrite Hu. repeat split; reflexivity.
Qed.

Lemma wrap64_idem z : wrap64 (wrap64 z) = wrap64 z.
Proof.
  pose proof (wrap64_add_l z 0) as H. rewrite !Z.add_0_r in H. exact H.
Qed.

Lemma wrap32_idem z : wrap32 (wrap32 z) = wrap32 z.
Proof.
  pose proof (wrap32_add_l z 0) as H. rewrite !Z.add_0_r in H. exact H.
Qed.

(** The variables stay in the range of their types. *)
Lemma fold_add_sample_range X ss :
  forall acc,
  wrap64 (undersized_intervals acc) = undersized_intervals acc ->
  wrap32 (num_undersized_intervals acc) = num_undersized_intervals acc ->
  wrap32 (num_intervals acc) = num_intervals acc ->
  let r := fold_left (add_sample X) ss acc in
  wrap64 (undersized_intervals r) = undersized_intervals r
  /\ wrap32 (num_undersized_intervals r) = num_undersized_intervals r
  /\ wrap32 (num_intervals r) = num_intervals r.
Proof.
  induction ss as [|s ss IH]; intros acc H1 H2 H3; cbn zeta; [cbn; auto|].
  cbn [fold_left]. apply IH; unfold add_sample;
    destruct (usable s); cbn [undersized_intervals num_undersized_intervals num_intervals];
    auto using wrap32_idem;
    destruct (gt (interval_fillfactor s) INTERVAL_FILLFACTOR_THRESH);
    cbn [undersized_intervals num_undersized_intervals num_intervals];
    auto using wrap32_idem; unfold add64; apply wrap64_idem.
Qed.

(** X14. After the loop over a window, the sum of slice widths, the count
    and the sum of size fillfactors that the undersized path divides are
    those of the undersized samples of the window, and the count of the
    usable path is the number of its usable samples (as 64-bit and 32-bit
    integers). *)
Lemma window_sums X dim target chunks ss acc :
  window_samples X dim target chunks = Ok ss ->
  outcome (foreach (window_step X dim target) chunks acc_init) = Ok acc ->
  undersized_intervals acc = wrap64 (sum_widths (filter undersized ss))
  /\ num_undersized_intervals acc
     = wrap32 (Z.of_nat (List.length (filter undersized ss)))
  /\ num_intervals acc = wrap32 (Z.of_nat (List.length (filter usable ss)))
  /\ undersized_fillfactor acc
     = fold_left Double.add (map size_fillfactor (filter undersized ss)) d0_0.
Proof.
  intros Hss Hrun. rewrite foreach_window_samples, Hss in Hrun.
  inversion Hrun as [Hacc]. clear Hrun.
  destruct (fold_add_sample_sums X ss acc_init) as [S1 [S2 [S3 S4]]].
  destruct (fold_add_sample_range X ss acc_init eq_refl eq_refl eq_refl) as [R1 [R2 R3]].
  cbn zeta in *. rewrite R1 in S1. rewrite R2 in S2. rewrite R3 in S3.
  rewrite S1, S2, S3, S4. cbn [acc_init undersized_intervals num_undersized_intervals
                                 num_intervals undersized_fillfactor].
  rewrite !Z.add_0_l. auto.
Qed.

(** ** The index scan, on any column without NULLs *)

Section IndexOrder.

Variable idx : Index.
Let a := rd_att_attnum idx.
Let kv := column_value a.
Let nn := fun t => not_null a t = true.
Let before := fun t u => index_ord idx (kv t) (kv u) = true.

Lemma index_key_le_not_null t u :
  nn t -> nn u ->
  index_key_le idx (heap_getattr t a) (heap_getattr u a) = index_ord idx (kv t) (kv u).
Proof.
  unfold nn, not_null, index_key_le, index_ord, kv, column_value.
  intros Ht Hu. apply negb_true_iff in Ht. apply negb_true_iff in Hu.
  rewrite Ht, Hu. reflexivity.
Qed.

Lemma index_ord_total x y : index_ord idx x y = false -> index_ord idx y x = true.
Proof.
  unfold index_ord. destruct (descending idx); intros H;
    apply Z.leb_gt in H; apply Z.leb_le; lia.
Qed.

Lemma index_ord_trans x y z :
  index_ord idx x y = true -> index_ord idx y z = true -> index_ord idx x z = true.
Proof.
  unfold index_ord. destruct (descending idx); intros H1 H2;
    apply Z.leb_le in H1; apply Z.leb_le in H2; apply Z.leb_le; lia.
Qed.

Lemma index_insert_Forall (P : HeapTuple -> Prop) t l :
  P t -> Forall P l -> Forall P (index_insert idx t l).
Proof.
  intros Ht. induction l as [|u l IH]; intros Hl; simpl.
  - constructor; auto.
  - inversion Hl; subst.
    destruct (index_key_le idx _ _); constructor; auto.
Qed.

Lemma index_insert_sorted t l :
  nn t -> Forall nn l -> StronglySorted before l ->
  StronglySorted before (index_insert idx t l).
Proof.
  intros Ht. induction l as [|u l IH]; intros Hn Hs; simpl.
  - constructor; [constructor | constructor].
  - inversion Hn as [|u' l' Hu Hl]; subst. inversion Hs as [|u' l' Hsl Hul]; subst.
    fold a. rewrite (index_key_le_not_null t u Ht Hu).
    destruct (index_ord idx (kv t) (kv u)) eqn:E.
    + constructor; [exact Hs|]. constructor; [exact E|].
      eapply Forall_impl; [|exact Hul]. intros v Hv. unfold before in *.
      eapply index_ord_trans; eauto.
    + constructor; [apply IH; assumption|].
      apply index_insert_Forall; [|exact Hul].
      unfold before. apply index_ord_total. exact E.
Qed.

Lemma index_insert_hd t l :
  nn t -> Forall nn l ->
  option_map kv (hd_error (index_insert idx t l))
  = Some (match hd_error l with
          | None => kv t
          | Some u => index_first idx (kv t) (kv u)
          end).
Proof.
  intros Ht Hl. destruct l as [|u l]; [reflexivity|].
  inversion Hl; subst. simpl. fold a.
  rewrite (index_key_le_not_null t u) by assumption. unfold index_first.
  destruct (index_ord idx (kv t) (kv u)); reflexivity.
Qed.

Lemma sorted_last_from u l :
  StronglySorted before (u :: l) -> Forall nn (u :: l) ->
  index_ord idx (kv u) (kv (last_from u l)) = true.
Proof.
  revert u. induction l as [|v l IH]; intros u Hs Hn; simpl.
  - unfold index_ord. destruct (descending idx); apply Z.leb_le; lia.
  - inversion Hs as [|u' l' Hsl Hul]; subst. inversion Hn; subst.
    inversion Hul; subst. eapply index_ord_trans; [eassumption|].
    apply IH; assumption.
Qed.

Lemma index_insert_cons t u l :
  index_insert idx t (u :: l)
  = if index_key_le idx (heap_getattr t a) (heap_getattr u a)
    then t :: u :: l else u :: index_insert idx t l.
Proof. reflexivity. Qed.

Lemma index_insert_last t u l :
  nn t -> Forall nn (u :: l) -> StronglySorted before (u :: l) ->
  match index_insert idx t (u :: l) with
  | [] => False
  | x :: l' => kv (last_from x l') = index_last idx (kv t) (kv (last_from u l))
  end.
Proof.
  intros Ht. revert u. induction l as [|v l IH]; intros u Hn Hs.
  - inversion Hn; subst. simpl. fold a.
    rewrite (index_key_le_not_null t u) by assumption. unfold index_last.
    destruct (index_ord idx (kv t) (kv u)); reflexivity.
  - inversion Hn as [|u' l' Hu Hl]; subst. inversion Hs as [|u' l' Hsl Hul]; subst.
    rewrite index_insert_cons.
    rewrite (index_key_le_not_null t u) by assumption.
    destruct (index_ord idx (kv t) (kv u)) eqn:E.
    + cbn [last_from]. unfold index_last.
      pose proof (sorted_last_from u (v :: l) Hs Hn) as Hlast. cbn [last_from] in Hlast.
      rewrite (index_ord_trans _ _ _ E Hlast). reflexivity.
    + specialize (IH v Hl Hsl).
      destruct (index_insert idx t (v :: l)) as [|x l'] eqn:Ei; [contradiction|].
      cbn [last_from]. exact IH.
Qed.

(** The index holds the rows in its order: the first has the extreme value
    on one side, the last the extreme value on the other. *)
Lemma index_entries_ends t ts (rel : Relation) :
  tuples rel = t :: ts -> Forall nn (t :: ts) ->
  match index_entries idx rel with
  | [] => False
  | x :: l =>
      Forall nn (x :: l) /\ StronglySorted before (x :: l)
      /\ kv x = extreme (index_first idx) (kv t) (map kv ts)
      /\ kv (last_from x l) = extreme (index_last idx) (kv t) (map kv ts)
  end.
Proof.
  unfold index_entries. intros ->. revert t.
  induction ts as [|t' ts IH]; intros t Hn.
  - simpl. split; [exact Hn|]. split; [constructor; constructor|]. split; reflexivity.
  - inversion Hn as [|u l Ht Hts]; subst. specialize (IH t' Hts).
    cbn [fold_right] in *.
    destruct (index_insert idx t' (fold_right (index_insert idx) [] ts))
      as [|x l] eqn:E; [contradiction|].
    destruct IH as [Hnn [Hs [Hfirst Hlast]]].
    pose proof (index_insert_hd t (x :: l) Ht Hnn) as Hhd.
    pose proof (index_insert_last t x l Ht Hnn Hs) as Hla.
    pose proof (index_insert_sorted t (x :: l) Ht Hnn Hs) as Hso.
    pose proof (index_insert_Forall nn t (x :: l) Ht Hnn) as Hfo.
    destruct (index_insert idx t (x :: l)) as [|y l'] eqn:E'; [contradiction|].
    cbn [hd_error option_map] in Hhd. inversion Hhd as [Hy].
    cbn [map extreme]. rewrite <- Hfirst, <- Hlast.
    repeat split; auto.
Qed.

End IndexOrder.

Lemma hd_error_rev {A} (x : A) l : hd_error (rev (x :: l)) = Some (last_from x l).
Proof.
  revert x. induction l as [|y l IH]; intros x; [reflexivity|].
  cbn [last_from]. rewrite <- IH. cbn [rev].
  destruct (rev l ++ [y]) eqn:E.
  - destruct (rev l); discriminate.
  - reflexivity.
Qed.

(** On a column without NULLs, minmax_indexscan stores the value of the last
    row of the index in [minmax[0]] and that of the first in [minmax[1]]. *)
Lemma minmax_indexscan_not_null rel idx attnum mm t ts :
  rd_att_attnum idx = attnum ->
  tuples rel = t :: ts ->
  forallb (not_null attnum) (t :: ts) = true ->
  outcome (minmax_indexscan rel idx attnum mm)
  = Ok (MINMAX_FOUND,
        (extreme (index_last idx) (column_value attnum t) (map (column_value attnum) ts),
         extreme (index_first idx) (column_value attnum t) (map (column_value attnum) ts))).
Proof.
  intros Ha Hrows Hnn. subst attnum.
  assert (Hn : Forall (fun t => not_null (rd_att_attnum idx) t = true) (t :: ts)).
  { apply Forall_forall. intros u Hu. rewrite forallb_forall in Hnn. auto. }
  pose proof (index_entries_ends idx t ts rel Hrows Hn) as He.
  unfold minmax_indexscan, index_getnext.
  destruct (index_entries idx rel) as [|x l]; [contradiction|].
  destruct He as [_ [_ [Hfirst Hlast]]].
  rewrite hd_error_rev. cbn [hd_error].
  unfold column_value in *. cbn. rewrite Hfirst, Hlast. reflexivity.
Qed.

Lemma index_first_ascending idx x y :
  descending idx = false -> index_first idx x y = Z.min x y /\ index_last idx x y = Z.max x y.
Proof.
  intros H. unfold index_first, index_last, index_ord. rewrite H.
  destruct (Z.leb_spec x y); lia.
Qed.

Lemma index_first_descending idx x y :
  descending idx = true -> index_first idx x y = Z.max x y /\ index_last idx x y = Z.min x y.
Proof.
  intros H. unfold index_first, index_last, index_ord. rewrite H.
  destruct (Z.leb_spec y x); lia.
Qed.

Lemma extreme_ext f g v vs :
  (forall x y, f x y = g x y) -> extreme f v vs = extreme g v vs.
Proof.
  intros H. revert v. induction vs as [|v' vs IH]; intros v; simpl; [reflexivity|].
  rewrite H, IH. reflexivity.
Qed.

(** On an ascending index, minmax_indexscan returns the maximum in the first
    slot and the minimum in the second; on a descending one, the minimum in
    the first and the maximum in the second. *)
Lemma minmax_indexscan_order rel idx attnum mm t ts :
  rd_att_attnum idx = attnum ->
  tuples rel = t :: ts ->
  forallb (not_null attnum) (t :: ts) = true ->
  let v := column_value attnum t in
  let vs := map (column_value attnum) ts in
  outcome (minmax_indexscan rel idx attnum mm)
  = Ok (MINMAX_FOUND,
        if descending idx
        then (extreme Z.min v vs, extreme Z.max v vs)
        else (extreme Z.max v vs, extreme Z.min v vs)).
Proof.
  intros Ha Hrows Hnn v vs.
  rewrite (minmax_indexscan_not_null rel idx attnum mm t ts Ha Hrows Hnn).
  fold v vs. destruct (descending idx) eqn:D.
  - rewrite (extreme_ext (index_last idx) Z.min)
      by (intros; apply index_first_descending; exact D).
    rewrite (extreme_ext (index_first idx) Z.max)
      by (intros; apply index_first_descending; exact D).
    reflexivity.
  - rewrite (extreme_ext (index_last idx) Z.max)
      by (intros; apply index_first_ascending; exact D).
    rewrite (extreme_ext (index_first idx) Z.min)
      by (intros; apply index_first_ascending; exact D).
    reflexivity.
Qed.

(** ** The heap scan, on any column without NULLs *)

Lemma extreme_min_acc a b vs :
  extreme Z.min (Z.min a b) vs = Z.min a (extreme Z.min b vs).
Proof.
  destruct vs as [|c vs]; simpl; [reflexivity|]. lia.
Qed.

Lemma extreme_max_acc a b vs :
  extreme Z.max (Z.max a b) vs = Z.max a (extreme Z.max b vs).
Proof.
  destruct vs as [|c vs]; simpl; [reflexivity|]. lia.
Qed.

Lemma heapscan_step_not_null attnum m0 m1 t :
  not_null attnum t = true ->
  heapscan_step cmp_proc attnum
    {| mm0 := m0; mm1 := m1; null0 := false; null1 := false |} t
  = {| mm0 := Z.min m0 (column_value attnum t);
       mm1 := Z.max m1 (column_value attnum t);
       null0 := false; null1 := false |}.
Proof.
  unfold not_null, column_value, heapscan_step. intros Hn.
  destruct (heap_getattr t attnum) as [v isnull]. cbn [fst snd] in *.
  apply negb_true_iff in Hn. subst isnull.
  cbn [null0 null1 mm0 mm1 orb]. unfold cmp_proc.
  destruct (Z.compare_spec v m0); cbn -[Z.min Z.max];
    destruct (Z.compare_spec v m1); cbn -[Z.min Z.max]; f_equal; lia.
Qed.

Lemma heapscan_fold_not_null attnum ts :
  forall m0 m1,
  forallb (not_null attnum) ts = true ->
  fold_left (heapscan_step cmp_proc attnum) ts
    {| mm0 := m0; mm1 := m1; null0 := false; null1 := false |}
  = {| mm0 := extreme Z.min m0 (map (column_value attnum) ts);
       mm1 := extreme Z.max m1 (map (column_value attnum) ts);
       null0 := false; null1 := false |}.
Proof.
  induction ts as [|t ts IH]; intros m0 m1 Hn; [reflexivity|].
  cbn [forallb] in Hn. apply andb_true_iff in Hn. destruct Hn as [Ht Hts].
  cbn [fold_left map extreme]. rewrite heapscan_step_not_null by exact Ht.
  rewrite IH by exact Hts.
  rewrite extreme_min_acc, extreme_max_acc. reflexivity.
Qed.

(** On a column without NULLs, minmax_heapscan returns the minimum in the
    first slot; the second holds the maximum or, when that is larger, what
    the array held before the call. *)
Lemma minmax_heapscan_not_null rel atttype attnum mm t ts :
  lookup_type_cache atttype = Some cmp_proc ->
  tuples rel = t :: ts ->
  forallb (not_null attnum) (t :: ts) = true ->
  let v := column_value attnum t in
  let vs := map (column_value attnum) ts in
  outcome (minmax_heapscan rel atttype attnum mm)
  = Ok (MINMAX_FOUND, (extreme Z.min v vs, Z.max (snd mm) (extreme Z.max v vs))).
Proof.
  intros Hcmp Hrows Hnn v vs. unfold minmax_heapscan. rewrite Hcmp, Hrows.
  cbn [forallb] in Hnn. apply andb_true_iff in Hnn. destruct Hnn as [Ht Hts].
  cbn [fold_left].
  assert (Hfirst : heapscan_step cmp_proc attnum
                     {| mm0 := fst mm; mm1 := snd mm; null0 := true; null1 := false |} t
                   = {| mm0 := v; mm1 := Z.max (snd mm) v;
                        null0 := false; null1 := false |}).
  { unfold not_null in Ht. unfold v, column_value, heapscan_step.
    destruct (heap_getattr t attnum) as [x isnull]. cbn [fst snd] in *.
    apply negb_true_iff in Ht. subst isnull.
    cbn [null0 null1 mm0 mm1 orb]. unfold cmp_proc.
    destruct (Z.compare_spec x (snd mm)); cbn -[Z.min Z.max]; f_equal; lia. }
  simpl bind. rewrite Hfirst. rewrite heapscan_fold_not_null by exact Hts.
  cbn. fold vs. rewrite extreme_max_acc. reflexivity.
Qed.

(** * Further properties *)

(** ** The heap scan, with NULLs *)

Lemma heapscan_step_null cmp attnum st t :
  not_null attnum t = false -> heapscan_step cmp attnum st t = st.
Proof.
  unfold not_null, heapscan_step. destruct (heap_getattr t attnum) as [v isnull].
  cbn [snd]. intros H. apply negb_false_iff in H. subst. reflexivity.
Qed.

Lemma heapscan_fold_filter cmp attnum ts :
  forall st,
  fold_left (heapscan_step cmp attnum) ts st
  = fold_left (heapscan_step cmp attnum) (filter (not_null attnum) ts) st.
Proof.
  induction ts as [|t ts IH]; intros st; [reflexivity|].
  cbn [fold_left filter]. destruct (not_null attnum t) eqn:E.
  - cbn [fold_left]. apply IH.
  - rewrite heapscan_step_null by exact E. apply IH.
Qed.

Lemma forallb_filter_same {A} (p : A -> bool) l : forallb p (filter p l) = true.
Proof.
  induction l as [|x l IH]; [reflexivity|]. cbn [filter].
  destruct (p x) eqn:E; [cbn [forallb]; rewrite E, IH; reflexivity | exact IH].
Qed.

Lemma lookup_type_cache_cmp atttype :
  lookup_type_cache atttype <> None -> lookup_type_cache atttype = Some cmp_proc.
Proof.
  unfold lookup_type_cache. destruct (existsb _ _); [reflexivity | intros H; contradiction].
Qed.

(** The loop of the heap scan as a function of the values that are not
    NULL. *)
Lemma heapscan_fold_eval attnum ts m0 m1 :
  fold_left (heapscan_step cmp_proc attnum) ts
    {| mm0 := m0; mm1 := m1; null0 := true; null1 := false |}
  = match map (column_value attnum) (filter (not_null attnum) ts) with
    | [] => {| mm0 := m0; mm1 := m1; null0 := true; null1 := false |}
    | v :: vs =>
        {| mm0 := extreme Z.min v vs; mm1 := Z.max m1 (extreme Z.max v vs);
           null0 := false; null1 := false |}
    end.
Proof.
  rewrite heapscan_fold_filter.
  destruct (filter (not_null attnum) ts) as [|t ts'] eqn:F; [reflexivity|].
  pose proof (forallb_filter_same (not_null attnum) ts) as Hnn. rewrite F in Hnn.
  pose proof (minmax_heapscan_not_null
                {| relid := 0; tuples := t :: ts'; indexlist := [] |}
                INT8OID attnum (m0, m1) t ts' eq_refl eq_refl Hnn) as H.
  cbn zeta in H. unfold minmax_heapscan in H.
  cbn [lookup_type_cache existsb Z.eqb INT8OID orb bind ret emit app tuples relid
         outcome fst snd] in H.
  cbn [map fold_left] in H |- *. injection H as H1 H2 H3.
  revert H1 H2 H3.
  generalize (fold_left (heapscan_step cmp_proc attnum) ts'
                (heapscan_step cmp_proc attnum
                   {| mm0 := m0; mm1 := m1; null0 := true; null1 := false |} t)).
  intros [a b n0 n1] H1 H2 H3. cbn [mm0 mm1 null0 null1] in *.
  subst a b. destruct n0, n1; try discriminate. reflexivity.
Qed.

(** X1. For a column type that has a comparison function, minmax_heapscan
    opens one heap scan and skips the rows whose column is NULL.  Without a
    value that is not NULL it returns MINMAX_NO_TUPLES and leaves the array
    as it was; otherwise it returns MINMAX_FOUND with the least value in
    [minmax[0]] and, in [minmax[1]], the greatest value or what that slot
    held before the call, when that is greater. *)
Theorem minmax_heapscan_skips_nulls rel atttype attnum mm :
  lookup_type_cache atttype <> None ->
  minmax_heapscan rel atttype attnum mm
  = ([HeapScan (relid rel)],
     Ok match map (column_value attnum) (filter (not_null attnum) (tuples rel)) with
        | [] => (MINMAX_NO_TUPLES, mm)
        | v :: vs =>
            (MINMAX_FOUND, (extreme Z.min v vs, Z.max (snd mm) (extreme Z.max v vs)))
        end).
Proof.
  intros Hcmp. unfold minmax_heapscan.
  rewrite (lookup_type_cache_cmp atttype Hcmp). cbn [bind ret emit app].
  rewrite heapscan_fold_eval.
  destruct (map (column_value attnum) (filter (not_null attnum) (tuples rel)));
    destruct mm; reflexivity.
Qed.

Lemma minmax_heapscan_skips_nulls_witness :
  minmax_heapscan sparse_rel INT8OID 1 (0, 4)
  = ([HeapScan 200], Ok (MINMAX_FOUND, (3, 5))).
Proof.
  exact (minmax_heapscan_skips_nulls sparse_rel INT8OID 1 (0, 4)
           ltac:(discriminate)).
Defined.

(** ** The index scan, on any column *)

Lemma index_insert_not_nil idx t l : index_insert idx t l <> [].
Proof. destruct l; simpl; [|destruct (index_key_le _ _ _)]; discriminate. Qed.

Lemma index_entries_cons idx rel t ts :
  tuples rel = t :: ts -> exists x l, index_entries idx rel = x :: l.
Proof.
  unfold index_entries. intros ->. cbn [fold_right].
  destruct (index_insert idx t (fold_right (index_insert idx) [] ts)) as [|x l] eqn:E.
  - exfalso. exact (index_insert_not_nil _ _ _ E).
  - eauto.
Qed.

Lemma index_entries_Forall idx rel (P : HeapTuple -> Prop) :
  Forall P (tuples rel) -> Forall P (index_entries idx rel).
Proof.
  unfold index_entries. induction (tuples rel) as [|t ts IH]; intros H; [constructor|].
  inversion H; subst. cbn [fold_right]. apply index_insert_Forall; auto.
Qed.

Lemma last_from_Forall {A} (P : A -> Prop) x l : Forall P (x :: l) -> P (last_from x l).
Proof.
  revert x. induction l as [|y l IH]; intros x H; inversion H; subst; [assumption|].
  cbn [last_from]. apply IH. assumption.
Qed.

(** The index scan as a function of the entries of the index. *)
Lemma minmax_indexscan_eval rel idx attnum mm :
  minmax_indexscan rel idx attnum mm
  = ([IndexScan (relid rel) (indexoid idx)],
     Ok match index_entries idx rel with
        | [] => (MINMAX_NO_TUPLES, mm)
        | x :: l => (MINMAX_FOUND, (fst (heap_getattr (last_from x l) attnum),
                                    fst (heap_getattr x attnum)))
        end).
Proof.
  unfold minmax_indexscan, index_getnext.
  destruct (index_entries idx rel) as [|x l].
  - destruct mm; reflexivity.
  - rewrite hd_error_rev. reflexivity.
Qed.

(** X2. minmax_indexscan opens one index scan and never fails: it returns
    MINMAX_NO_TUPLES and leaves the array as it was when the relation has no
    rows, and MINMAX_FOUND whenever it has one. *)
Theorem minmax_indexscan_found_iff_rows rel idx attnum mm :
  exists min max,
    minmax_indexscan rel idx attnum mm
    = ([IndexScan (relid rel) (indexoid idx)],
       Ok match tuples rel with
          | [] => (MINMAX_NO_TUPLES, mm)
          | _ :: _ => (MINMAX_FOUND, (min, max))
          end).
Proof.
  rewrite minmax_indexscan_eval. destruct (tuples rel) as [|t ts] eqn:T.
  - exists 0, 0. unfold index_entries. rewrite T. reflexivity.
  - destruct (index_entries_cons idx rel t ts T) as [x [l ->]]. eauto.
Qed.

(** X3. The index scan does not test [isnull]: on a relation with rows, all
    of them NULL in the column, it returns MINMAX_FOUND with the datum 0 in
    both slots, where the heap scan returns MINMAX_NO_TUPLES and leaves the
    array as it was. *)
Theorem indexscan_counts_null_rows rel idx atttype attnum mm t ts :
  tuples rel = t :: ts ->
  forallb (is_null attnum) (t :: ts) = true ->
  lookup_type_cache atttype <> None ->
  outcome (minmax_indexscan rel idx attnum mm) = Ok (MINMAX_FOUND, (0, 0))
  /\ outcome (minmax_heapscan rel atttype attnum mm) = Ok (MINMAX_NO_TUPLES, mm).
Proof.
  intros T Hnull Hcmp. split.
  - rewrite minmax_indexscan_eval.
    assert (Hall : Forall (fun u => heap_getattr u attnum = (0, true)) (index_entries idx rel)).
    { apply index_entries_Forall. rewrite T. apply Forall_forall. intros u Hu.
      rewrite forallb_forall in Hnull. specialize (Hnull u Hu).
      unfold is_null in Hnull. unfold heap_getattr in *.
      destruct (nth_error u (Z.to_nat (attnum - 1))) as [[v|]|]; try reflexivity.
      destruct (1 <=? attnum); [discriminate | reflexivity]. }
    destruct (index_entries_cons idx rel t ts T) as [x [l E]]. rewrite E in *.
    pose proof (last_from_Forall _ x l Hall) as Hl. cbn beta in Hl.
    inversion Hall as [|? ? Hx _]; subst. cbn [outcome snd]. rewrite Hl, Hx. reflexivity.
  - unfold minmax_heapscan. rewrite (lookup_type_cache_cmp atttype Hcmp).
    cbn [bind ret emit app outcome snd]. rewrite heapscan_fold_eval.
    replace (filter (not_null attnum) (tuples rel)) with (@nil HeapTuple);
      [destruct mm; reflexivity|].
    rewrite T. symmetry. clear T. induction (t :: ts) as [|u l IH]; [reflexivity|].
    cbn [forallb] in Hnull. apply andb_true_iff in Hnull. destruct Hnull as [Hu Hl].
    cbn [filter]. unfold not_null. unfold is_null in Hu. rewrite Hu. cbn [negb]. auto.
Qed.

Lemma indexscan_counts_null_rows_witness :
  outcome (minmax_indexscan null_rel time_desc_idx 1 (7, 8)) = Ok (MINMAX_FOUND, (0, 0))
  /\ outcome (minmax_heapscan null_rel INT8OID 1 (7, 8)) = Ok (MINMAX_NO_TUPLES, (7, 8)).
Proof.
  exact (indexscan_counts_null_rows null_rel time_desc_idx INT8OID 1 (7, 8)
           [None] [[None]] eq_refl eq_refl ltac:(discriminate)).
Defined.

(** ** The loop over the indexes *)

Lemma minmax_indexscan_rows rel idx attnum mm :
  tuples rel <> [] ->
  exists p, minmax_indexscan rel idx attnum mm
            = ([IndexScan (relid rel) (indexoid idx)], Ok (MINMAX_FOUND, p)).
Proof.
  intros H. rewrite minmax_indexscan_eval. destruct (tuples rel) as [|t ts] eqn:T;
    [contradiction|].
  destruct (index_entries_cons idx rel t ts T) as [x [l ->]]. eauto.
Qed.

(** With rows in the relation, the loop stops at the first index whose
    first column is the one asked for. *)
Lemma relation_minmax_indexscan_loop_rows rel attnum indexes :
  tuples rel <> [] ->
  forall mm,
  relation_minmax_indexscan_loop rel attnum indexes MINMAX_NO_INDEX mm
  = match find (leads attnum) indexes with
    | Some idx => minmax_indexscan rel idx attnum mm
    | None => ([], Ok (MINMAX_NO_INDEX, mm))
    end.
Proof.
  intros Hrows. induction indexes as [|idx rest IH]; intros mm; [reflexivity|].
  cbn [relation_minmax_indexscan_loop find].
  change (rd_att_attnum idx =? attnum) with (leads attnum idx).
  destruct (leads attnum idx).
  - destruct (minmax_indexscan_rows rel idx attnum mm Hrows) as [p E].
    rewrite E. reflexivity.
  - unfold ret at 1. unfold bind at 1. cbn [fst snd MinMaxResult_eqb]. rewrite IH.
    destruct (find (leads attnum) rest) as [i|]; [|reflexivity].
    destruct (minmax_indexscan rel i attnum mm) as [tr r]. reflexivity.
Qed.

(** Without rows, it scans every such index. *)
Lemma relation_minmax_indexscan_loop_no_rows rel attnum indexes :
  tuples rel = [] ->
  forall res mm, res <> MINMAX_FOUND ->
  relation_minmax_indexscan_loop rel attnum indexes res mm
  = (map (fun idx => IndexScan (relid rel) (indexoid idx)) (filter (leads attnum) indexes),
     Ok (if existsb (leads attnum) indexes then MINMAX_NO_TUPLES else res, mm)).
Proof.
  intros Hrows. induction indexes as [|idx rest IH]; intros res mm Hres; [reflexivity|].
  cbn [relation_minmax_indexscan_loop filter existsb].
  change (rd_att_attnum idx =? attnum) with (leads attnum idx).
  destruct (leads attnum idx).
  - rewrite (bind_ok _ _ _ _ (minmax_indexscan_empty rel idx attnum mm Hrows)).
    cbn [fst snd MinMaxResult_eqb]. rewrite IH by discriminate.
    cbn [fst snd map app orb]. destruct (existsb (leads attnum) rest); reflexivity.
  - assert (Hf : MinMaxResult_eqb res MINMAX_FOUND = false)
      by (destruct res; try reflexivity; contradiction).
    unfold ret at 1. unfold bind at 1. cbn [fst snd]. rewrite Hf, IH by exact Hres.
    reflexivity.
Qed.

(** X4. On a relation with rows, relation_minmax_indexscan scans one index,
    the first of the index list whose first column is the attribute asked
    for, and returns what minmax_indexscan returns on it; without such an
    index it returns MINMAX_NO_INDEX, scans nothing and leaves the array as
    it was. *)
Theorem relation_minmax_indexscan_first_match rel atttype attnum mm :
  tuples rel <> [] ->
  relation_minmax_indexscan rel atttype attnum mm
  = match find (leads attnum) (indexlist rel) with
    | Some idx => minmax_indexscan rel idx attnum mm
    | None => ([], Ok (MINMAX_NO_INDEX, mm))
    end.
Proof.
  intros H. apply relation_minmax_indexscan_loop_rows. exact H.
Qed.

Lemma relation_minmax_indexscan_first_match_witness :
  relation_minmax_indexscan (indexed_rel [[Some 4; Some 1]; [Some 9; Some 2]]) INT8OID 1 (0, 0)
  = ([IndexScan 202 9001], Ok (MINMAX_FOUND, (4, 9))).
Proof.
  exact (relation_minmax_indexscan_first_match
           (indexed_rel [[Some 4; Some 1]; [Some 9; Some 2]]) INT8OID 1 (0, 0)
           ltac:(discriminate)).
Defined.

(** X5. On a relation without rows, relation_minmax_indexscan scans every
    index whose first column is the attribute, in the order of the index
    list, and leaves the array as it was; it returns MINMAX_NO_TUPLES when
    there is such an index and MINMAX_NO_INDEX when there is none. *)
Theorem relation_minmax_indexscan_no_rows rel atttype attnum mm :
  tuples rel = [] ->
  relation_minmax_indexscan rel atttype attnum mm
  = (map (fun idx => IndexScan (relid rel) (indexoid idx))
       (filter (leads attnum) (indexlist rel)),
     Ok (if existsb (leads attnum) (indexlist rel)
         then MINMAX_NO_TUPLES else MINMAX_NO_INDEX, mm)).
Proof.
  intros H. apply relation_minmax_indexscan_loop_no_rows; [exact H | discriminate].
Qed.

Lemma relation_minmax_indexscan_no_rows_witness :
  relation_minmax_indexscan (indexed_rel []) INT8OID 1 (7, 8)
  = ([IndexScan 202 9001; IndexScan 202 9002], Ok (MINMAX_NO_TUPLES, (7, 8))).
Proof.
  exact (relation_minmax_indexscan_no_rows (indexed_rel []) INT8OID 1 (7, 8) eq_refl).
Defined.

Lemma find_existsb {A} (p : A -> bool) l :
  existsb p l = match find p l with Some _ => true | None => false end.
Proof.
  induction l as [|x l IH]; [reflexivity|]. cbn. destruct (p x); [reflexivity | exact IH].
Qed.

(** The result of the loop says whether an index leads with the column. *)
Lemma relation_minmax_indexscan_no_index rel atttype attnum mm :
  exists tr r,
    relation_minmax_indexscan rel atttype attnum mm = (tr, Ok r)
    /\ forallb is_index_scan tr = true
    /\ MinMaxResult_eqb (fst r) MINMAX_NO_INDEX = negb (existsb (leads attnum) (indexlist rel))
    /\ (existsb (leads attnum) (indexlist rel) = false -> tr = [] /\ snd r = mm).
Proof.
  unfold relation_minmax_indexscan. destruct (tuples rel) as [|t ts] eqn:T.
  - rewrite relation_minmax_indexscan_loop_no_rows by (auto; discriminate).
    eexists _, _. split; [reflexivity|]. split; [|split].
    + induction (filter _ _); [reflexivity | assumption].
    + cbn [fst]. destruct (existsb _ _); reflexivity.
    + intros E. cbn [snd]. split; [|reflexivity].
      induction (indexlist rel) as [|i l IH]; [reflexivity|].
      cbn [existsb] in E. apply orb_false_iff in E. destruct E as [E1 E2].
      cbn [filter]. rewrite E1. auto.
  - assert (Hrows : tuples rel <> []) by (rewrite T; discriminate).
    rewrite relation_minmax_indexscan_loop_rows by exact Hrows.
    rewrite find_existsb. destruct (find (leads attnum) (indexlist rel)) as [idx|].
    + destruct (minmax_indexscan_rows rel idx attnum mm Hrows) as [p E]. rewrite E.
      eexists _, _. split; [reflexivity|]. repeat split; try reflexivity; discriminate.
    + eexists _, _. split; [reflexivity|]. repeat split; reflexivity.
Qed.

Lemma table_has_minmax_index_outcome rel atttype attnum mm :
  outcome (table_has_minmax_index rel atttype attnum mm)
  = Ok (existsb (leads attnum) (indexlist rel)).
Proof.
  unfold table_has_minmax_index.
  destruct (relation_minmax_indexscan_no_index rel atttype attnum mm)
    as [tr [r [E [_ [Hr _]]]]].
  rewrite (outcome_bind_ok _ _ r) by (rewrite E; reflexivity).
  cbn [ret outcome snd]. rewrite Hr, negb_involutive. reflexivity.
Qed.

(** X6. table_has_minmax_index never fails and returns true exactly when
    some index of the relation has the attribute as its first column; it
    runs index scans only. *)
Theorem table_has_minmax_index_iff_leading rel atttype attnum mm :
  outcome (table_has_minmax_index rel atttype attnum mm)
  = Ok (existsb (leads attnum) (indexlist rel))
  /\ forallb is_index_scan (trace (table_has_minmax_index rel atttype attnum mm)) = true.
Proof.
  unfold table_has_minmax_index.
  destruct (relation_minmax_indexscan_no_index rel atttype attnum mm)
    as [tr [r [E [Htr [Hr _]]]]].
  rewrite (bind_ok _ _ _ _ E). cbn [ret fst snd outcome trace]. rewrite Hr, negb_involutive.
  rewrite app_nil_r. auto.
Qed.

(** ** chunk_get_minmax *)

(** X7. Without an index led by the attribute, chunk_get_minmax writes the
    warning and scans the heap: it returns false and leaves the array as it
    was when no row has a value that is not NULL, and true with the least
    value in [minmax[0]] otherwise ([minmax[1]] holds the greatest value or
    what the slot held before, when that is greater).  When the type has no
    comparison function it fails after the warning, before any scan. *)
Theorem chunk_get_minmax_without_index rel atttype attnum mm :
  existsb (leads attnum) (indexlist rel) = false ->
  chunk_get_minmax rel atttype attnum mm
  = match lookup_type_cache atttype with
    | None => ([WarnNoIndex (relid rel) attnum], Err (ErrNoComparison atttype))
    | Some _ =>
        ([WarnNoIndex (relid rel) attnum; HeapScan (relid rel)],
         Ok match map (column_value attnum) (filter (not_null attnum) (tuples rel)) with
            | [] => (false, mm)
            | v :: vs => (true, (extreme Z.min v vs, Z.max (snd mm) (extreme Z.max v vs)))
            end)
    end.
Proof.
  intros Hno. unfold chunk_get_minmax.
  destruct (relation_minmax_indexscan_no_index rel atttype attnum mm)
    as [tr [r [E [_ [Hr Hmm]]]]].
  rewrite Hno in Hr. destruct (Hmm Hno) as [-> Hs]. rewrite (bind_ok _ _ _ _ E).
  rewrite Hr, Hs. cbn [negb app].
  destruct (lookup_type_cache atttype) as [c|] eqn:L.
  - unfold minmax_heapscan.
    rewrite (lookup_type_cache_cmp atttype) by (rewrite L; discriminate).
    cbn [bind ret emit app fst snd]. rewrite heapscan_fold_eval.
    destruct (map (column_value attnum) (filter (not_null attnum) (tuples rel)));
      destruct mm; reflexivity.
  - unfold minmax_heapscan. rewrite L. reflexivity.
Qed.

Lemma chunk_get_minmax_without_index_witness :
  chunk_get_minmax sparse_rel INT8OID 1 (0, 4)
  = ([WarnNoIndex 200 1; HeapScan 200], Ok (true, (3, 5))).
Proof.
  exact (chunk_get_minmax_without_index sparse_rel INT8OID 1 (0, 4) eq_refl).
Defined.

(** X8. With rows, none of them NULL in the column, and an index led by
    the column, chunk_get_minmax scans the first such index and nothing
    else, and returns true; the array holds (min, max) when that index is
    descending and (max, min) when it is ascending. *)
Theorem chunk_get_minmax_index_order rel atttype attnum mm idx t ts :
  find (leads attnum) (indexlist rel) = Some idx ->
  tuples rel = t :: ts ->
  forallb (not_null attnum) (t :: ts) = true ->
  let v := column_value attnum t in
  let vs := map (column_value attnum) ts in
  chunk_get_minmax rel atttype attnum mm
  = ([IndexScan (relid rel) (indexoid idx)],
     Ok (true, if descending idx
               then (extreme Z.min v vs, extreme Z.max v vs)
               else (extreme Z.max v vs, extreme Z.min v vs))).
Proof.
  intros Hfind Hrows Hnn v vs. unfold chunk_get_minmax, relation_minmax_indexscan.
  rewrite relation_minmax_indexscan_loop_rows by (rewrite Hrows; discriminate).
  rewrite Hfind.
  assert (Ha : rd_att_attnum idx = attnum).
  { apply find_some in Hfind. destruct Hfind as [_ H]. apply Z.eqb_eq. exact H. }
  pose proof (minmax_indexscan_order rel idx attnum mm t ts Ha Hrows Hnn) as Ho.
  cbn zeta in Ho. fold v vs in Ho.
  destruct (minmax_indexscan_rows rel idx attnum mm) as [p E];
    [rewrite Hrows; discriminate|].
  rewrite E in Ho |- *. cbn [outcome snd] in Ho. inversion Ho; subst. reflexivity.
Qed.

Lemma chunk_get_minmax_index_order_witness :
  chunk_get_minmax (indexed_rel [[Some 4; Some 1]; [Some 9; Some 2]; [Some 6; None]])
    INT8OID 1 (0, 0)
  = ([IndexScan 202 9001], Ok (true, (4, 9))).
Proof.
  exact (chunk_get_minmax_index_order
           (indexed_rel [[Some 4; Some 1]; [Some 9; Some 2]; [Some 6; None]])
           INT8OID 1 (0, 0) time_desc_idx [Some 4; Some 1]
           [[Some 9; Some 2]; [Some 6; None]] eq_refl eq_refl eq_refl).
Defined.

(** ** A current interval of zero *)

Lemma dampen_zero c : dampen 0 c = ([LogMakingChange c], Ok c).
Proof.
  unfold dampen, interval_diff.
  change (of_int 0) with (S754_zero false).
  destruct (of_int c) as [s|s| |s m e]; try destruct s; cbn; reflexivity.
Qed.

(** X9. When the current interval of the dimension is 0, the change
    threshold never keeps it: the relative change is computed by a division
    by zero, is an infinity or a NaN, and any candidate is returned. *)
Theorem zero_current_interval_adopts_candidate X cat did coord target acc cand :
  outcome (scan_window X cat did coord target) = Ok (0, acc) ->
  outcome (candidate_interval X 0 acc) = Ok (Some cand) ->
  outcome (calculate_chunk_interval X cat did coord target) = Ok cand.
Proof.
  intros Hscan Hcand.
  rewrite (calculate_chunk_interval_outcome _ _ _ _ _ _ _ Hscan).
  destruct (candidate_interval X 0 acc) as [tr r] eqn:Hc. cbn [outcome snd] in Hcand.
  subst r. rewrite (finish_interval_candidate _ _ _ _ _ Hc), dampen_zero. reflexivity.
Qed.

Lemma zero_current_interval_adopts_candidate_witness :
  outcome (calculate_chunk_interval x86_64 (one_dimension 0 [scenario_chunk 110000000])
             1 0 100000000)
  = Ok 78545.
Proof.
  eapply zero_current_interval_adopts_candidate.
  - vm_compute. reflexivity.
  - vm_compute. reflexivity.
Defined.

(** ** Chunks that do not count *)

Lemma scan_window_outcome X cat did coord target ht dim :
  0 < dimension_get_hypertable_id cat did ->
  hypertable_get_by_id cat (dimension_get_hypertable_id cat did) = Some ht ->
  hyperspace_get_dimension_by_id (space ht) did = Some dim ->
  outcome (scan_window X cat did coord target)
  = match outcome (foreach (window_step X dim target)
                     (chunk_get_window cat (dimension_get_hypertable_id cat did) coord
                        DEFAULT_CHUNK_WINDOW) acc_init) with
    | Ok acc => Ok (interval_length dim, acc)
    | Err e => Err e
    end.
Proof.
  intros Hid Hht Hdim. unfold scan_window.
  destruct (dimension_get_hypertable_id cat did <=? 0) eqn:E;
    [apply Z.leb_le in E; lia|].
  rewrite Hht. cbn [deref].
  rewrite (outcome_bind_ok (ret ht) _ ht eq_refl).
  rewrite Hdim. cbn [deref].
  rewrite (outcome_bind_ok (ret dim) _ dim eq_refl).
  destruct (foreach _ _ _) as [tr [acc|e]]; reflexivity.
Qed.

Lemma calculate_chunk_interval_window X cat did coord target ht dim :
  0 < dimension_get_hypertable_id cat did ->
  hypertable_get_by_id cat (dimension_get_hypertable_id cat did) = Some ht ->
  hyperspace_get_dimension_by_id (space ht) did = Some dim ->
  outcome (calculate_chunk_interval X cat did coord target)
  = match window_samples X dim target
            (chunk_get_window cat (dimension_get_hypertable_id cat did) coord
               DEFAULT_CHUNK_WINDOW) with
    | Ok ss => outcome (finish_interval X (interval_length dim)
                          (fold_left (add_sample X) ss acc_init))
    | Err e => Err e
    end.
Proof.
  intros Hid Hht Hdim.
  pose proof (scan_window_outcome X cat did coord target ht dim Hid Hht Hdim) as Hs.
  rewrite foreach_window_samples in Hs.
  destruct (window_samples _ _ _ _) as [ss|e].
  - apply calculate_chunk_interval_outcome. exact Hs.
  - unfold calculate_chunk_interval.
    destruct (scan_window X cat did coord target) as [tr [w|e']];
      cbn [outcome snd] in Hs; [discriminate|]. inversion Hs. reflexivity.
Qed.

Lemma window_samples_app X dim target l1 l2 :
  window_samples X dim target (l1 ++ l2)
  = match window_samples X dim target l1 with
    | Ok s1 => match window_samples X dim target l2 with
               | Ok s2 => Ok (s1 ++ s2)
               | Err e => Err e
               end
    | Err e => Err e
    end.
Proof.
  induction l1 as [|c l1 IH]; cbn [app window_samples].
  - destruct (window_samples X dim target l2); reflexivity.
  - destruct (chunk_sample X dim target c) as [o|e]; [|reflexivity].
    rewrite IH. destruct (window_samples X dim target l1) as [s1|e]; [|reflexivity].
    destruct (window_samples X dim target l2) as [s2|e]; [|reflexivity].
    destruct o; reflexivity.
Qed.

Lemma chunk_sample_no_rows X dim target c :
  hypercube_get_slice_by_dimension_id (cube c) (dimension_id dim) <> None ->
  tuples (table c) = [] ->
  existsb (leads (chunk_attno c)) (indexlist (table c)) = true
  \/ lookup_type_cache (column_type dim) <> None ->
  chunk_sample X dim target c = Ok None.
Proof.
  intros Hslice Hrows Hscan. unfold chunk_sample.
  destruct (hypercube_get_slice_by_dimension_id (cube c) (dimension_id dim));
    [|contradiction].
  assert (H : outcome (chunk_get_minmax (table c) (column_type dim) (chunk_attno c)
                         (stack_minmax X (relid (table c))))
              = Ok (false, stack_minmax X (relid (table c)))).
  { unfold chunk_get_minmax, relation_minmax_indexscan.
    rewrite (bind_ok _ _ _ _
               (relation_minmax_indexscan_loop_no_rows (table c) (chunk_attno c)
                  (indexlist (table c)) Hrows MINMAX_NO_INDEX
                  (stack_minmax X (relid (table c))) ltac:(discriminate))).
    cbn [fst snd].
    destruct (existsb (leads (chunk_attno c)) (indexlist (table c))) eqn:Ex.
    - reflexivity.
    - destruct Hscan as [Hx|Hcmp]; [discriminate|]. cbn [MinMaxResult_eqb].
      unfold minmax_heapscan. rewrite (lookup_type_cache_cmp _ Hcmp), Hrows.
      destruct (stack_minmax X (relid (table c))). reflexivity. }
  rewrite H. reflexivity.
Qed.

(** X10. A chunk of the window that has no rows (and has a slice in the
    dimension, and an index led by the column or a column type with a
    comparison function) does not influence the result:
    calculate_chunk_interval returns what it returns on the window without
    that chunk. *)
Theorem empty_chunk_is_skipped X cat did coord target ht dim before c after :
  0 < dimension_get_hypertable_id cat did ->
  hypertable_get_by_id cat (dimension_get_hypertable_id cat did) = Some ht ->
  hyperspace_get_dimension_by_id (space ht) did = Some dim ->
  chunk_get_window cat (dimension_get_hypertable_id cat did) coord DEFAULT_CHUNK_WINDOW
  = before ++ c :: after ->
  hypercube_get_slice_by_dimension_id (cube c) (dimension_id dim) <> None ->
  tuples (table c) = [] ->
  existsb (leads (chunk_attno c)) (indexlist (table c)) = true
  \/ lookup_type_cache (column_type dim) <> None ->
  outcome (calculate_chunk_interval X cat did coord target)
  = outcome (calculate_chunk_interval X (with_window cat (before ++ after)) did coord target).
Proof.
  intros Hid Hht Hdim Hwin Hslice Hrows Hscan.
  rewrite (calculate_chunk_interval_window X cat did coord target ht dim Hid Hht Hdim).
  rewrite (calculate_chunk_interval_window X (with_window cat (before ++ after))
             did coord target ht dim Hid Hht Hdim).
  cbn [with_window chunk_get_window]. rewrite Hwin.
  rewrite !window_samples_app. cbn [window_samples].
  rewrite (chunk_sample_no_rows X dim target c Hslice Hrows Hscan).
  destruct (window_samples X dim target before); [|reflexivity].
  destruct (window_samples X dim target after); reflexivity.
Qed.

Lemma empty_chunk_is_skipped_witness :
  outcome (calculate_chunk_interval x86_64
             (one_dimension 86400 [scenario_chunk 120000000; empty_chunk 101]) 1 0 100000000)
  = outcome (calculate_chunk_interval x86_64
               (with_window (one_dimension 86400 [scenario_chunk 120000000; empty_chunk 101])
                  ([scenario_chunk 120000000] ++ []))
               1 0 100000000).
Proof.
  refine (empty_chunk_is_skipped x86_64
            (one_dimension 86400 [scenario_chunk 120000000; empty_chunk 101]) 1 0 100000000
            _ _ [scenario_chunk 120000000] (empty_chunk 101) [] _ eq_refl eq_refl eq_refl
            _ eq_refl (or_introl eq_refl)).
  - reflexivity.
  - discriminate.
Defined.








(** ** The last message *)

Lemma no_decision_in_scan tr :
  forallb is_scan_event tr = true -> existsb is_decision tr = false.
Proof.
  induction tr as [|ev tr IH]; [reflexivity|]. cbn [forallb existsb].
  intros H. apply andb_true_iff in H. destruct H as [Hev Htr].
  rewrite (IH Htr). destruct ev; cbn in *; congruence.
Qed.

Lemma finish_interval_decision X cur acc :
  exists interval tr,
    outcome (finish_interval X cur acc) = Ok interval
    /\ existsb is_decision tr = false
    /\ (trace (finish_interval X cur acc) = tr ++ [LogMakingChange interval]
        \/ interval = cur
           /\ (trace (finish_interval X cur acc) = tr ++ [DebugKeepPrevious cur]
               \/ exists cand,
                    trace (finish_interval X cur acc) = tr ++ [DebugBelowThreshold cand])).
Proof.
  unfold finish_interval.
  destruct (candidate_interval_cases X cur acc)
    as [[_ [_ [f [c Hc]]]] | [[_ [_ Hc]] | [_ Hc]]];
    rewrite (bind_ok _ _ _ _ Hc); cbn [fst snd trace outcome].
  - unfold dampen. destruct (le _ _); cbn.
    + exists cur, [DebugBoost f]. split; [reflexivity|]. split; [reflexivity|].
      right. split; [reflexivity|]. right. exists c. reflexivity.
    + exists c, [DebugBoost f]. split; [reflexivity|]. split; [reflexivity|].
      left. reflexivity.
  - exists cur, []. split; [reflexivity|]. split; [reflexivity|].
    right. split; [reflexivity|]. left. reflexivity.
  - unfold dampen. destruct (le _ _); cbn.
    + exists cur, []. split; [reflexivity|]. split; [reflexivity|].
      right. split; [reflexivity|]. right. eexists. reflexivity.
    + eexists _, []. split; [reflexivity|]. split; [reflexivity|].
      left. reflexivity.
Qed.

(** X12. Once the window has been scanned calculate_chunk_interval cannot
    fail, and the last message it writes is the only one about the decision:
    "making change" with exactly the interval returned, or one of the two
    messages that the old interval is kept, and then the current interval of
    the dimension is returned. *)
Theorem last_message_tells_decision X cat did coord target cur acc :
  outcome (scan_window X cat did coord target) = Ok (cur, acc) ->
  exists interval tr,
    outcome (calculate_chunk_interval X cat did coord target) = Ok interval
    /\ existsb is_decision tr = false
    /\ (trace (calculate_chunk_interval X cat did coord target)
        = tr ++ [LogMakingChange interval]
        \/ interval = cur
           /\ (trace (calculate_chunk_interval X cat did coord target)
               = tr ++ [DebugKeepPrevious cur]
               \/ exists cand,
                    trace (calculate_chunk_interval X cat did coord target)
                    = tr ++ [DebugBelowThreshold cand])).
Proof.
  intros Hscan.
  rewrite (calculate_chunk_interval_outcome _ _ _ _ _ _ _ Hscan).
  rewrite (calculate_chunk_interval_trace _ _ _ _ _ _ _ Hscan).
  destruct (finish_interval_decision X cur acc) as [i [tr [Ho [Hno Hd]]]].
  exists i, (trace (scan_window X cat did coord target) ++ tr).
  split; [exact Ho|]. split.
  - rewrite existsb_app, Hno,
      (no_decision_in_scan _ (scan_window_trace X cat did coord target)). reflexivity.
  - destruct Hd as [E | [Hi [E | [c E]]]].
    + left. rewrite E, app_assoc. reflexivity.
    + right. split; [exact Hi|]. left. rewrite E, app_assoc. reflexivity.
    + right. split; [exact Hi|]. right. exists c. rewrite E, app_assoc. reflexivity.
Qed.

Lemma last_message_tells_decision_witness :
  exists interval tr,
    outcome (calculate_chunk_interval x86_64 (one_dimension 86400 [scenario_chunk 120000000])
               1 0 100000000) = Ok interval
    /\ existsb is_decision tr = false
    /\ (trace (calculate_chunk_interval x86_64
                 (one_dimension 86400 [scenario_chunk 120000000]) 1 0 100000000)
        = tr ++ [LogMakingChange interval]
        \/ interval = 86400
           /\ (trace (calculate_chunk_interval x86_64
                        (one_dimension 86400 [scenario_chunk 120000000]) 1 0 100000000)
               = tr ++ [DebugKeepPrevious 86400]
               \/ exists cand,
                    trace (calculate_chunk_interval x86_64
                             (one_dimension 86400 [scenario_chunk 120000000]) 1 0 100000000)
                    = tr ++ [DebugBelowThreshold cand])).
Proof.
  eapply last_message_tells_decision. vm_compute. reflexivity.
Defined.

(** ** A target size of zero *)

Lemma div_by_zero_gt x c :
  gt (Double.div x (of_int 0)) c = true ->
  Double.div x (of_int 0) = S754_infinity false.
Proof.
  change (of_int 0) with (S754_zero false).
  destruct x as [s|s| |s m e]; try destruct s; cbn;
    try reflexivity; try discriminate;
    destruct c as [sc|sc| |sc mc ec]; try destruct sc; cbn; discriminate.
Qed.

Lemma sub64_range a b : - 2 ^ 63 <= sub64 a b < 2 ^ 63.
Proof.
  unfold sub64, wrap64. pose proof (Z.mod_pos_bound (a - b + 2 ^ 63) (2 ^ 64)). lia.
Qed.

Lemma add_sample_zero_target X acc size w mn mx :
  0 <= w <= 2 ^ 63 ->
  chunk_interval acc = 0 ->
  chunk_interval (add_sample X acc (sample_of X 0 size w mn mx)) = 0.
Proof.
  intros Hw Hc. unfold add_sample.
  destruct (usable (sample_of X 0 size w mn mx)) eqn:U.
  - unfold usable in U. apply andb_true_iff in U. destruct U as [_ U].
    cbn [sample_of size_fillfactor] in U.
    cbn [chunk_interval sample_of size_fillfactor slice_interval].
    rewrite (div_by_zero_gt _ _ U), Hc.
    rewrite div_by_infinity by (apply of_int_nnf; exact Hw). reflexivity.
  - destruct (gt _ _); cbn [chunk_interval]; exact Hc.
Qed.

Lemma foreach_zero_target X dim chunks :
  Forall (width_nonneg dim) chunks ->
  forall acc acc',
  chunk_interval acc = 0 ->
  outcome (foreach (window_step X dim 0) chunks acc) = Ok acc' ->
  chunk_interval acc' = 0.
Proof.
  induction chunks as [|c rest IH]; intros Hw acc acc' Hc H.
  - cbn in H. inversion H. subst. exact Hc.
  - inversion Hw as [|? ? Hwc Hwr]; subst. cbn [foreach] in H.
    pose proof (window_step_outcome X dim 0 acc c) as Hs.
    destruct (chunk_sample X dim 0 c) as [[s|]|e] eqn:Es.
    + rewrite (outcome_bind_ok _ _ _ Hs) in H. refine (IH Hwr _ _ _ H).
      destruct (chunk_sample_form X dim 0 c s Es) as [slice [mn [mx [Hsl [_ ->]]]]].
      apply add_sample_zero_target; [|exact Hc].
      pose proof (Hwc slice Hsl). pose proof (sub64_range (range_end slice) (range_start slice)).
      lia.
    + rewrite (outcome_bind_ok _ _ _ Hs) in H. apply (IH Hwr _ _ Hc H).
    + destruct (window_step X dim 0 acc c) as [tr [a|e']]; cbn in Hs; [discriminate|].
      cbn in H. discriminate.
Qed.

Lemma dampen_to_zero cur :
  0 < cur <= 2 ^ 63 -> dampen cur 0 = ([LogMakingChange 0], Ok 0).
Proof.
  intros Hc. unfold dampen, interval_diff.
  pose proof (of_int_nnf cur ltac:(lia)) as Hn.
  pose proof (of_int_mant_pos cur Hc) as Hm.
  change (of_int 0) with (S754_zero false).
  destruct (of_int cur) as [[|]|s| |[|] m e]; cbn [nnf mant] in Hn, Hm;
    try discriminate; try lia.
  reflexivity.
Qed.

(** X13. With a target size of 0, which the assertion of the function
    allows, every usable chunk adds 0 to the sum of the intervals (its size
    fillfactor is infinite): a window with a usable chunk makes
    calculate_chunk_interval return 0 for a dimension whose current interval
    is positive. *)
Theorem zero_target_gives_zero_interval X cat did coord ht dim acc :
  0 < dimension_get_hypertable_id cat did ->
  hypertable_get_by_id cat (dimension_get_hypertable_id cat did) = Some ht ->
  hyperspace_get_dimension_by_id (space ht) did = Some dim ->
  Forall (width_nonneg dim)
    (chunk_get_window cat (dimension_get_hypertable_id cat did) coord DEFAULT_CHUNK_WINDOW) ->
  0 < interval_length dim <= 2 ^ 63 ->
  outcome (scan_window X cat did coord 0) = Ok (interval_length dim, acc) ->
  num_intervals acc <> 0 ->
  outcome (calculate_chunk_interval X cat did coord 0) = Ok 0.
Proof.
  intros Hid Hht Hdim Hw Hcur Hscan Hn.
  rewrite (calculate_chunk_interval_outcome _ _ _ _ _ _ _ Hscan).
  pose proof (scan_window_outcome X cat did coord 0 ht dim Hid Hht Hdim) as Hs.
  rewrite Hscan in Hs.
  destruct (outcome (foreach (window_step X dim 0) _ acc_init)) as [acc'|e] eqn:Hf;
    [|discriminate].
  inversion Hs; subst acc'; clear Hs.
  pose proof (foreach_zero_target X dim _ Hw acc_init acc eq_refl Hf) as Hz.
  destruct (candidate_interval_cases X (interval_length dim) acc)
    as [[H0 _] | [[H0 _] | [_ E]]]; try contradiction.
  rewrite (finish_interval_candidate _ _ _ _ _ E), Hz.
  assert (Hd : div64 0 (num_intervals acc) = 0).
  { unfold div64. rewrite Z.quot_0_l by exact Hn. reflexivity. }
  rewrite Hd, (dampen_to_zero _ Hcur). reflexivity.
Qed.

Lemma zero_target_gives_zero_interval_witness :
  outcome (calculate_chunk_interval x86_64 (one_dimension 86400 [scenario_chunk 120000000])
             1 0 0)
  = Ok 0.
Proof.
  eapply (zero_target_gives_zero_interval x86_64
            (one_dimension 86400 [scenario_chunk 120000000]) 1 0).
  - reflexivity.
  - reflexivity.
  - reflexivity.
  - constructor; [|constructor]. intros slice H. cbn in H. inversion H. subst.
    vm_compute. discriminate.
  - cbn. lia.
  - vm_compute. reflexivity.
  - vm_compute. discriminate.
Defined.

(** ** The counters of the loop, on two undersized chunks *)

Lemma window_sums_witness :
  exists ss acc,
    window_samples x86_64
      {| dimension_id := 1; column_type := INT8OID; interval_length := 86400 |} 100000000
      [undersized_chunk 100 0 1000; undersized_chunk 101 1 2000] = Ok ss
    /\ undersized_intervals acc = wrap64 (sum_widths (filter undersized ss))
    /\ num_undersized_intervals acc
       = wrap32 (Z.of_nat (List.length (filter undersized ss)))
    /\ num_intervals acc = wrap32 (Z.of_nat (List.length (filter usable ss)))
    /\ undersized_fillfactor acc
       = fold_left Double.add (map size_fillfactor (filter undersized ss)) d0_0.
Proof.
  eexists _, _. split; [vm_compute; reflexivity|].
  eapply (window_sums x86_64
            {| dimension_id := 1; column_type := INT8OID; interval_length := 86400 |}
            100000000 [undersized_chunk 100 0 1000; undersized_chunk 101 1 2000]).
  - vm_compute. reflexivity.
  - vm_compute. reflexivity.
Defined.

(** ** Exact results *)

Lemma SFleb_antisym_nnf x y :
  nnf x = true -> nnf y = true -> SFleb x y = true -> SFleb y x = true -> x = y.
Proof.
  destruct x as [[|]|sx| |[|] mx ex], y as [[|]|sy| |[|] my ey];
    cbn [nnf]; try discriminate; intros _ _ H1 H2.
  - reflexivity.
  - apply SFleb_finite in H1. apply SFleb_finite in H2.
    assert (ex = ey) by lia. subst ey.
    assert (Z.pos mx = Z.pos my) by lia. congruence.
Qed.

(** A rounding whose value is that of a canonical double is this double. *)
Lemma repr_exact K x N D e z :
  repr x N D e -> nnf z = true ->
  0 <= e + K -> 0 <= expo z + K ->
  N * 2 ^ (e + K) = mant z * D * 2 ^ (expo z + K) ->
  x = z.
Proof.
  intros Hx Hz HK1 HK2 Hv.
  pose proof (nnf_repr z Hz) as Hrz.
  assert (H1 : SFleb x z = true).
  { apply (RND_mono K x N D e z (mant z) 1 (expo z) Hx Hrz HK1 HK2).
    unfold vle. lia. }
  assert (H2 : SFleb z x = true).
  { apply (RND_mono K z (mant z) 1 (expo z) x N D e Hrz Hx HK2 HK1).
    unfold vle. lia. }
  apply SFleb_antisym_nnf; auto.
  exact (nnx_le_nnf x z (repr_nnx x N D e Hx) Hz H1).
Qed.

(** The canonical double of a positive integer below 2^53. *)
Lemma of_int_val K z :
  0 <= z < 2 ^ 53 -> 1074 <= K ->
  nnf (of_int z) = true /\ val K (of_int z) = z * 2 ^ K.
Proof.
  intros Hz HK.
  assert (Hn : nnf (of_int z) = true) by (apply of_int_nnf; lia).
  split; [exact Hn|].
  destruct (Z.eq_dec z 0) as [->|Hne]; [reflexivity|].
  set (d := Zdigits2 z).
  pose proof (Zdigits2_bounds z ltac:(lia)) as [Hl Hh]. fold d in Hl, Hh.
  pose proof (Zdigits2_pos z ltac:(lia)) as Hd. fold d in Hd.
  assert (Hd53 : d <= 53) by (apply Zdigits2_le; lia).
  pose proof (pow2_pos (53 - d) ltac:(lia)) as Hp.
  set (m := z * 2 ^ (53 - d)).
  assert (Hm : 0 < m) by (unfold m; nia).
  set (c := S754_finite false (Z.to_pos m) (d - 53)).
  assert (Hc : nnf c = true).
  { unfold c. cbn [nnf]. unfold bounded, canonical_mantissa.
    change (Z.pos (digits2_pos (Z.to_pos m))) with (Zdigits2 (Z.pos (Z.to_pos m))).
    rewrite Z2Pos.id by exact Hm. unfold m.
    rewrite Zdigits2_shift by lia. fold d. rewrite fexp_spec.
    apply andb_true_iff. split; [apply Z.eqb_eq; lia | apply Z.leb_le].
    change (emax - prec) with 971. lia. }
  destruct (binary_normalize_repr z 0 ltac:(lia)) as [N [e' [Hr [He' Hv]]]].
  fold (of_int z) in Hr.
  assert (E : of_int z = c).
  { apply (repr_exact K (of_int z) N 1 e' c Hr Hc); cbn [c mant expo]; try lia.
    rewrite Z2Pos.id by exact Hm. rewrite Hv by lia. unfold m.
    rewrite Z.add_0_l, Z.mul_1_r, <- Z.mul_assoc, <- Z.pow_add_r by lia.
    f_equal. f_equal. lia. }
  rewrite E. unfold val. cbn [c mant expo]. rewrite Z2Pos.id by exact Hm. unfold m.
  rewrite <- Z.mul_assoc, <- Z.pow_add_r by lia. f_equal. f_equal. lia.
Qed.

Lemma to_int64_of_int X z : 0 <= z < 2 ^ 53 -> to_int64 X (of_int z) = z.
Proof.
  intros Hz. destruct (of_int_val 1074 z Hz ltac:(lia)) as [Hn Hv].
  pose proof (trunc_pos_val 1074 (of_int z) Hn ltac:(lia)) as Ht.
  rewrite Hv, Z.div_mul in Ht by lia.
  rewrite to_int64_nnf; [exact Ht | exact Hn | rewrite Ht; unfold INT64_MAX; lia].
Qed.

Lemma div_self x : nnf x = true -> 0 < mant x -> Double.div x x = d1_0.
Proof.
  intros Hx Hm. destruct (div_repr x x Hx Hx Hm) as [N [e [Hr [He Hv]]]].
  apply (repr_exact 2045 _ N (mant x) e d1_0 Hr eq_refl); cbn [d1_0 mant expo]; try lia.
  rewrite Hv by lia. rewrite Z.sub_diag, Z.add_0_l.
  change (Z.pos 4503599627370496) with (2 ^ 52).
  replace 2045 with (52 + (-52 + 2045)) at 1 by lia.
  rewrite (Z.pow_add_r 2 52 (-52 + 2045)) by lia. ring.
Qed.

Lemma div_one x : nnf x = true -> Double.div x d1_0 = x.
Proof.
  intros Hx. destruct (nnf_bounds x Hx) as [_ [He _]].
  destruct (div_repr x d1_0 Hx eq_refl ltac:(cbn; lia)) as [N [e [Hr [Hge Hv]]]].
  apply (repr_exact 2045 _ N (mant d1_0) e x Hr Hx); try lia.
  rewrite Hv by lia. cbn [d1_0 mant expo].
  change (Z.pos 4503599627370496) with (2 ^ 52).
  replace (expo x - -52 + 2045) with (52 + (expo x + 2045)) by lia.
  rewrite (Z.pow_add_r 2 52 (expo x + 2045)) by lia. ring.
Qed.

Lemma add_of_int a b :
  0 <= a -> 0 <= b -> a + b < 2 ^ 53 ->
  Double.add (of_int a) (of_int b) = of_int (a + b).
Proof.
  intros Ha Hb Hab.
  destruct (of_int_val 1074 a ltac:(lia) ltac:(lia)) as [Hna Hva].
  destruct (of_int_val 1074 b ltac:(lia) ltac:(lia)) as [Hnb Hvb].
  destruct (of_int_val 1074 (a + b) ltac:(lia) ltac:(lia)) as [Hn Hv].
  destruct (nnf_bounds _ Hn) as [_ [He _]].
  destruct (add_repr (of_int a) (of_int b) Hna Hnb) as [N [e [Hr [Hge Hs]]]].
  apply (repr_exact 1074 _ N 1 e (of_int (a + b)) Hr Hn); try lia.
  rewrite Hs by lia. rewrite Hva, Hvb, Z.mul_1_r. fold (val 1074 (of_int (a + b))).
  rewrite Hv. ring.
Qed.


(** ** Chunks that are on target *)

Lemma sample_on_target X T w mn mx :
  0 < w < 2 ^ 53 -> 0 < T < 2 ^ 53 ->
  Double.sub (of_int mx) (of_int mn) = of_int w ->
  sample_of X T T w mn mx
  = {| slice_interval := w; interval_fillfactor := d1_0;
       extrapolated_chunk_size := T; size_fillfactor := d1_0 |}.
Proof.
  intros Hw HT Hs. unfold sample_of. rewrite Hs.
  rewrite (div_self (of_int w)) by (first [apply of_int_nnf | apply of_int_mant_pos]; lia).
  rewrite (div_one (of_int T)) by (apply of_int_nnf; lia).
  rewrite to_int64_of_int by lia.
  rewrite (div_self (of_int T)) by (first [apply of_int_nnf | apply of_int_mant_pos]; lia).
  reflexivity.
Qed.

Lemma add_sample_on_target X acc w T :
  0 < w < 2 ^ 53 -> 0 <= chunk_interval acc -> chunk_interval acc + w < 2 ^ 53 ->
  let s := {| slice_interval := w; interval_fillfactor := d1_0;
              extrapolated_chunk_size := T; size_fillfactor := d1_0 |} in
  chunk_interval (add_sample X acc s) = chunk_interval acc + w
  /\ num_intervals (add_sample X acc s) = wrap32 (num_intervals acc + 1).
Proof.
  intros Hw Hc Hsum s. unfold add_sample.
  change (usable s) with true. cbn [chunk_interval num_intervals slice_interval size_fillfactor s].
  rewrite (div_one (of_int w)) by (apply of_int_nnf; lia).
  rewrite add_of_int by lia. rewrite to_int64_of_int by lia. auto.
Qed.

Lemma chunk_sample_on_target X dim T w c :
  0 < w < 2 ^ 53 -> 0 < T < 2 ^ 53 ->
  on_target X dim T w c ->
  chunk_sample X dim T c
  = Ok (Some {| slice_interval := w; interval_fillfactor := d1_0;
                extrapolated_chunk_size := T; size_fillfactor := d1_0 |}).
Proof.
  intros Hw HT [slice [mm [Hs [Hwd [Hsz [Hmm Hsub]]]]]].
  unfold chunk_sample. rewrite Hs, Hmm. cbn [fst snd]. rewrite Hwd, Hsz.
  rewrite (sample_on_target X T w _ _ Hw HT Hsub). reflexivity.
Qed.

Lemma foreach_on_target X dim T w chunks :
  0 < w <= 2 ^ 50 -> 0 < T < 2 ^ 53 ->
  Forall (on_target X dim T w) chunks ->
  forall acc j,
  chunk_interval acc = j * w -> num_intervals acc = j ->
  0 <= j -> j + Z.of_nat (List.length chunks) <= 4 ->
  exists acc',
    outcome (foreach (window_step X dim T) chunks acc) = Ok acc'
    /\ chunk_interval acc' = (j + Z.of_nat (List.length chunks)) * w
    /\ num_intervals acc' = j + Z.of_nat (List.length chunks).
Proof.
  intros Hw HT. induction chunks as [|c rest IH]; intros Hall acc j Hc Hn Hj Hlen.
  - exists acc. cbn. rewrite Z.add_0_r. auto.
  - pose proof (Forall_inv Hall) as Hon. pose proof (Forall_inv_tail Hall) as Hrest.
    cbn [List.length] in Hlen |- *. rewrite Nat2Z.inj_succ in Hlen |- *.
    cbn [foreach].
    pose proof (window_step_outcome X dim T acc c) as Hs.
    rewrite (chunk_sample_on_target X dim T w c ltac:(lia) HT Hon) in Hs.
    rewrite (outcome_bind_ok _ _ _ Hs).
    destruct (add_sample_on_target X acc w T ltac:(lia) ltac:(nia) ltac:(nia))
      as [Hc' Hn'].
    set (s := {| slice_interval := w; interval_fillfactor := d1_0;
                 extrapolated_chunk_size := T; size_fillfactor := d1_0 |}) in *.
    assert (H1 : chunk_interval (add_sample X acc s) = (j + 1) * w)
      by (rewrite Hc', Hc; ring).
    assert (H2 : num_intervals (add_sample X acc s) = j + 1)
      by (rewrite Hn', Hn; apply wrap32_small; lia).
    destruct (IH Hrest (add_sample X acc s) (j + 1) H1 H2 ltac:(lia) ltac:(lia))
      as [acc' [Ho [Hci Hni]]].
    exists acc'. split; [exact Ho|]. split; [rewrite Hci; ring | lia].
Qed.

Lemma dampen_same w :
  0 < w < 2 ^ 53 -> dampen w w = ([DebugBelowThreshold w], Ok w).
Proof.
  intros Hw. unfold dampen, interval_diff.
  rewrite (div_self (of_int w)) by (first [apply of_int_nnf | apply of_int_mant_pos]; lia).
  reflexivity.
Qed.

(** X29. When every chunk of the window (one to three chunks) is on
    target, that is, its data spans the whole slice, of width [w], and its
    size is the target size, the candidate interval is [w]; and when the
    current interval of the dimension is [w] too, calculate_chunk_interval
    returns it unchanged: the interval is a fixed point. *)
Theorem on_target_window_keeps_interval X cat did coord T ht dim w :
  0 < dimension_get_hypertable_id cat did ->
  hypertable_get_by_id cat (dimension_get_hypertable_id cat did) = Some ht ->
  hyperspace_get_dimension_by_id (space ht) did = Some dim ->
  0 < w <= 2 ^ 50 ->
  0 < T < 2 ^ 53 ->
  chunk_get_window cat (dimension_get_hypertable_id cat did) coord DEFAULT_CHUNK_WINDOW
  <> [] ->
  Z.of_nat (List.length (chunk_get_window cat (dimension_get_hypertable_id cat did) coord
                           DEFAULT_CHUNK_WINDOW)) <= DEFAULT_CHUNK_WINDOW ->
  Forall (on_target X dim T w)
    (chunk_get_window cat (dimension_get_hypertable_id cat did) coord DEFAULT_CHUNK_WINDOW) ->
  outcome (candidate_of_window X cat did coord T) = Ok (Some w)
  /\ (interval_length dim = w ->
      outcome (calculate_chunk_interval X cat did coord T) = Ok w).
Proof.
  intros Hid Hht Hdim Hw HT Hne Hlen Hall.
  pose proof (scan_window_outcome X cat did coord T ht dim Hid Hht Hdim) as Hs.
  set (chunks := chunk_get_window cat (dimension_get_hypertable_id cat did) coord
                   DEFAULT_CHUNK_WINDOW) in *.
  unfold DEFAULT_CHUNK_WINDOW in Hlen.
  destruct (foreach_on_target X dim T w chunks Hw HT Hall acc_init 0)
    as [acc [Ho [Hci Hni]]]; try reflexivity; try lia.
  rewrite Ho in Hs. rewrite Z.add_0_l in Hci, Hni.
  assert (Hpos : 0 < Z.of_nat (List.length chunks)).
  { destruct chunks; [contradiction | cbn [List.length]; lia]. }
  assert (Hcand : candidate_interval X (interval_length dim) acc = ([], Ok (Some w))).
  { destruct (candidate_interval_cases X (interval_length dim) acc)
      as [[H0 _] | [[H0 _] | [_ E]]]; try lia.
    rewrite E, Hci, Hni. unfold div64.
    rewrite (Z.mul_comm _ w), Z.quot_mul by lia.
    rewrite wrap64_small; [reflexivity|].
    unfold in_int64, INT64_MIN, INT64_MAX. apply andb_true_iff.
    split; apply Z.leb_le; lia. }
  split.
  - unfold candidate_of_window. rewrite (outcome_bind_ok _ _ _ Hs).
    cbn [fst snd]. rewrite Hcand. reflexivity.
  - intros Hcur. rewrite (calculate_chunk_interval_outcome _ _ _ _ _ _ _ Hs).
    rewrite (finish_interval_candidate _ _ _ _ _ Hcand), Hcur.
    rewrite dampen_same by lia. reflexivity.
Qed.

Lemma on_target_window_keeps_interval_witness :
  outcome (candidate_of_window x86_64
             (one_dimension 86400 [scenario_chunk 100000000; scenario_chunk 100000000])
             1 0 100000000) = Ok (Some 86400)
  /\ (86400 = 86400 ->
      outcome (calculate_chunk_interval x86_64
                 (one_dimension 86400 [scenario_chunk 100000000; scenario_chunk 100000000])
                 1 0 100000000) = Ok 86400).
Proof.
  refine (on_target_window_keeps_interval x86_64
            (one_dimension 86400 [scenario_chunk 100000000; scenario_chunk 100000000])
            1 0 100000000 _ _ 86400 _ eq_refl eq_refl _ _ _ _ _).
  - reflexivity.
  - vm_compute. split; [reflexivity | discriminate].
  - vm_compute. split; reflexivity.
  - discriminate.
  - vm_compute. discriminate.
  - assert (H : on_target x86_64
                  {| dimension_id := 1; column_type := INT8OID; interval_length := 86400 |}
                  100000000 86400 (scenario_chunk 100000000)).
    { exists {| slice_dimension_id := 1; range_start := 0; range_end := 86400 |}, (0, 86400).
      repeat split; vm_compute; reflexivity. }
    repeat constructor; exact H.
Defined.

(** ** The memory budget: errors *)

Lemma read_blocks_err X S name :
  config_blocks X S name = None ->
  read_blocks X S name = ([ConfigRead name], Err (config_error S name)).
Proof.
  unfold config_blocks, read_blocks, config_error.
  destruct (GetConfigOption S name); [intros ->|]; reflexivity.
Qed.

(** X15. Without an override, estimate_effective_memory_cache_size reads
    shared_buffers first and fails at the first option that is missing or
    does not parse, with the error of that option: effective_cache_size is
    not read when shared_buffers fails.  When both can be read it
    succeeds. *)
Theorem estimate_fails_on_first_bad_option X S :
  fixed_effective_memory_cache_size S <= 0 ->
  (config_blocks X S "shared_buffers" = None ->
   estimate_effective_memory_cache_size X S
   = ([ConfigRead "shared_buffers"], Err (config_error S "shared_buffers")))
  /\ (config_blocks X S "shared_buffers" <> None ->
      config_blocks X S "effective_cache_size" = None ->
      estimate_effective_memory_cache_size X S
      = ([ConfigRead "shared_buffers"; ConfigRead "effective_cache_size"],
         Err (config_error S "effective_cache_size")))
  /\ (config_blocks X S "shared_buffers" <> None ->
      config_blocks X S "effective_cache_size" <> None ->
      exists bytes,
        estimate_effective_memory_cache_size X S
        = ([ConfigRead "shared_buffers"; ConfigRead "effective_cache_size"], Ok bytes)).
Proof.
  intros Hf. unfold estimate_effective_memory_cache_size.
  destruct (fixed_effective_memory_cache_size S >? 0) eqn:E;
    [apply Z.gtb_lt in E; lia|].
  split; [|split].
  - intros H. rewrite (bind_err _ _ _ _ (read_blocks_err X S _ H)). reflexivity.
  - intros H1 H2. destruct (config_blocks X S "shared_buffers") as [sb|] eqn:E1;
      [|contradiction].
    rewrite (bind_ok _ _ _ _ (read_blocks_ok X S _ sb E1)).
    rewrite (bind_err _ _ _ _ (read_blocks_err X S _ H2)). reflexivity.
  - intros H1 H2. destruct (config_blocks X S "shared_buffers") as [sb|] eqn:E1;
      [|contradiction].
    destruct (config_blocks X S "effective_cache_size") as [ecs|] eqn:E2;
      [|contradiction].
    rewrite (bind_ok _ _ _ _ (read_blocks_ok X S _ sb E1)).
    rewrite (bind_ok _ _ _ _ (read_blocks_ok X S _ ecs E2)).
    eexists. reflexivity.
Qed.

Lemma estimate_fails_on_first_bad_option_witness :
  estimate_effective_memory_cache_size x86_64 settings_with_unit
  = ([ConfigRead "shared_buffers"; ConfigRead "effective_cache_size"],
     Err (ErrParseConfig "effective_cache_size")).
Proof.
  refine (proj1 (proj2 (estimate_fails_on_first_bad_option x86_64 settings_with_unit _))
            _ eq_refl).
  - cbn. lia.
  - discriminate.
Defined.

(** ** Sizes given as text *)

Lemma blocks_to_bytes X nblocks :
  0 < BLCKSZ X <= 32768 -> - 2 ^ 31 <= nblocks < 2 ^ 31 ->
  mul64 nblocks (BLCKSZ X) = nblocks * BLCKSZ X.
Proof.
  intros HB Hn. unfold mul64. apply wrap64_small.
  unfold in_int64, INT64_MIN, INT64_MAX. apply andb_true_iff.
  split; apply Z.leb_le; nia.
Qed.

Lemma convert_text_memory_amount_ok X amount nblocks :
  0 < BLCKSZ X <= 32768 -> parses_int32 X ->
  parse_int X amount = Some nblocks ->
  convert_text_memory_amount_to_bytes X (Some amount) = ([], Done (nblocks * BLCKSZ X)).
Proof.
  intros HB Hp Ha. unfold convert_text_memory_amount_to_bytes. rewrite Ha.
  cbn zeta. rewrite blocks_to_bytes by eauto. reflexivity.
Qed.

(** X17. convert_text_memory_amount_to_bytes writes nothing; it fails with
    "invalid data amount" when the text does not parse, and otherwise
    returns the number of blocks times the block size exactly (the 64-bit
    product does not overflow), a number between -2^46 and 2^46. *)
Theorem convert_text_memory_amount_exact X amount :
  0 < BLCKSZ X <= 32768 -> parses_int32 X ->
  convert_text_memory_amount_to_bytes X (Some amount)
  = ([], match parse_int X amount with
         | Some nblocks => Done (nblocks * BLCKSZ X)
         | None => Failed ErrInvalidDataAmount
         end)
  /\ (forall bytes,
        answer (convert_text_memory_amount_to_bytes X (Some amount)) = Done bytes ->
        - 2 ^ 46 <= bytes < 2 ^ 46).
Proof.
  intros HB Hp. destruct (parse_int X amount) as [n|] eqn:E.
  - rewrite (convert_text_memory_amount_ok X amount n HB Hp E). split; [reflexivity|].
    intros bytes H. inversion H. subst. specialize (Hp _ _ E). nia.
  - unfold convert_text_memory_amount_to_bytes. rewrite E. split; [reflexivity|].
    discriminate.
Qed.

Lemma convert_text_memory_amount_exact_witness :
  convert_text_memory_amount_to_bytes x86_64 (Some "131072"%string)
  = ([], Done 1073741824).
Proof.
  exact (proj1 (convert_text_memory_amount_exact x86_64 "131072"
                  ltac:(cbn; lia) parse_decimal_int32)).
Defined.

(** X18. set_effective_memory_cache_size stores the amount in bytes in the
    static variable and returns it.  A positive amount is then what
    estimate_effective_memory_cache_size returns, without reading the
    configuration; an amount of zero or less switches the override off: the
    estimate is the one made with the initial value -1 of the variable. *)
Theorem set_effective_memory_cache_size_then_estimate X S amount nblocks :
  0 < BLCKSZ X <= 32768 -> parses_int32 X ->
  parse_int X amount = Some nblocks ->
  set_effective_memory_cache_size X S amount
  = ([], Done (nblocks * BLCKSZ X, with_fixed S (nblocks * BLCKSZ X)))
  /\ (0 < nblocks ->
      estimate_effective_memory_cache_size X (with_fixed S (nblocks * BLCKSZ X))
      = ([], Ok (nblocks * BLCKSZ X)))
  /\ (nblocks <= 0 ->
      estimate_effective_memory_cache_size X (with_fixed S (nblocks * BLCKSZ X))
      = estimate_effective_memory_cache_size X (with_fixed S (-1))).
Proof.
  intros HB Hp Ha. split; [|split].
  - unfold set_effective_memory_cache_size.
    rewrite (convert_text_memory_amount_ok X amount nblocks HB Hp Ha). reflexivity.
  - intros Hn. unfold estimate_effective_memory_cache_size.
    cbn [with_fixed fixed_effective_memory_cache_size].
    destruct (nblocks * BLCKSZ X >? 0) eqn:E; [reflexivity|].
    rewrite Z.gtb_ltb in E. apply Z.ltb_ge in E. nia.
  - intros Hn. unfold estimate_effective_memory_cache_size.
    cbn [with_fixed fixed_effective_memory_cache_size].
    destruct (nblocks * BLCKSZ X >? 0) eqn:E; [apply Z.gtb_lt in E; nia|].
    reflexivity.
Qed.

Lemma set_effective_memory_cache_size_then_estimate_witness :
  set_effective_memory_cache_size x86_64 (settings_16GB (-1)) "131072"
  = ([], Done (1073741824, with_fixed (settings_16GB (-1)) 1073741824))
  /\ estimate_effective_memory_cache_size x86_64
       (with_fixed (settings_16GB (-1)) 1073741824)
     = ([], Ok 1073741824)
  /\ estimate_effective_memory_cache_size x86_64 (with_fixed (settings_16GB 5) (0 * 8192))
     = estimate_effective_memory_cache_size x86_64 (with_fixed (settings_16GB 5) (-1)).
Proof.
  pose proof (set_effective_memory_cache_size_then_estimate x86_64 (settings_16GB (-1))
                "131072" 131072 ltac:(cbn; lia) parse_decimal_int32 eq_refl) as [H1 [H2 _]].
  pose proof (set_effective_memory_cache_size_then_estimate x86_64 (settings_16GB 5)
                "0" 0 ltac:(cbn; lia) parse_decimal_int32 eq_refl) as [_ [_ H3]].
  split; [exact H1|]. split; [exact (H2 ltac:(lia)) | exact (H3 ltac:(lia))].
Defined.

(** ** The initial target size *)

(** Without the override, the estimate is the product of the larger
    option and the block size, or half of the system memory. *)
Lemma estimate_without_override X S bytes :
  0 < BLCKSZ X <= 32768 ->
  parses_int32 X ->
  0 <= system_memory_bytes S <= INT64_MAX ->
  fixed_effective_memory_cache_size S <= 0 ->
  outcome (estimate_effective_memory_cache_size X S) = Ok bytes ->
  - 2 ^ 46 <= bytes <= Z.quot (system_memory_bytes S) 2.
Proof.
  intros HB Hp Hm Hf. unfold estimate_effective_memory_cache_size.
  destruct (fixed_effective_memory_cache_size S >? 0) eqn:E;
    [apply Z.gtb_lt in E; lia|].
  destruct (config_blocks X S "shared_buffers") as [sb|] eqn:E1.
  2:{ rewrite (bind_err _ _ _ _ (read_blocks_err X S _ E1)). discriminate. }
  rewrite (bind_ok _ _ _ _ (read_blocks_ok X S _ sb E1)).
  destruct (config_blocks X S "effective_cache_size") as [ecs|] eqn:E2.
  2:{ rewrite (bind_err _ _ _ _ (read_blocks_err X S _ E2)). discriminate. }
  rewrite (bind_ok _ _ _ _ (read_blocks_ok X S _ ecs E2)).
  cbn [ret outcome fst snd].
  assert (Hsb : - 2 ^ 31 <= sb < 2 ^ 31).
  { unfold config_blocks in E1. destruct (GetConfigOption S "shared_buffers");
      [eapply Hp; eauto | discriminate]. }
  assert (Hecs : - 2 ^ 31 <= ecs < 2 ^ 31).
  { unfold config_blocks in E2. destruct (GetConfigOption S "effective_cache_size");
      [eapply Hp; eauto | discriminate]. }
  rewrite (blocks_to_bytes X (Z.max sb ecs) HB) by lia.
  assert (Hd : div64 (system_memory_bytes S) 2 = Z.quot (system_memory_bytes S) 2).
  { unfold div64. apply wrap64_small. unfold in_int64, INT64_MIN, INT64_MAX in *.
    apply andb_true_iff. split; apply Z.leb_le; Z.quot_rem_to_equations; lia. }
  rewrite Hd. intros H. inversion H as [Hb]. clear H.
  assert (Hq : 0 <= Z.quot (system_memory_bytes S) 2)
    by (Z.quot_rem_to_equations; lia).
  destruct (Z.max sb ecs * BLCKSZ X >? Z.quot (system_memory_bytes S) 2) eqn:G.
  - split; [lia | lia].
  - rewrite Z.gtb_ltb in G. apply Z.ltb_ge in G. split; [nia | exact G].
Qed.

(** X16. Without an override, the initial chunk target size is at most an
    eighth of the system memory. *)
Theorem initial_target_at_most_eighth_of_memory X S target :
  0 < BLCKSZ X <= 32768 ->
  parses_int32 X ->
  0 <= system_memory_bytes S <= INT64_MAX ->
  fixed_effective_memory_cache_size S <= 0 ->
  outcome (calculate_initial_chunk_target_size X S) = Ok target ->
  target <= Z.quot (system_memory_bytes S) 8.
Proof.
  intros HB Hp Hm Hf. unfold calculate_initial_chunk_target_size.
  destruct (estimate_effective_memory_cache_size X S) as [tr [bytes|e]] eqn:E;
    [|discriminate].
  pose proof (estimate_without_override X S bytes HB Hp Hm Hf
                ltac:(rewrite E; reflexivity)) as Hb.
  rewrite (bind_ok _ _ _ _ eq_refl). cbn [ret outcome fst snd].
  intros H. inversion H as [Ht]. clear H.
  unfold div64, DEFAULT_NUM_CHUNKS_TO_FIT_IN_CACHE_MEM.
  unfold INT64_MAX in Hm.
  rewrite wrap64_small.
  - Z.quot_rem_to_equations. lia.
  - unfold in_int64, INT64_MIN, INT64_MAX. apply andb_true_iff.
    split; apply Z.leb_le; Z.quot_rem_to_equations; lia.
Qed.

Lemma initial_target_at_most_eighth_of_memory_witness :
  1073741824 <= Z.quot (system_memory_bytes (settings_16GB (-1))) 8.
Proof.
  exact (initial_target_at_most_eighth_of_memory x86_64 (settings_16GB (-1)) 1073741824
           ltac:(cbn; lia) parse_decimal_int32 ltac:(cbn; lia) ltac:(cbn; lia) eq_refl).
Defined.

(** ** The monad of the setup functions *)

Lemma sbind_done {A B} (m : Setup A) (f : A -> Setup B) tr a :
  m = (tr, Done a) -> sbind m f = (tr ++ reports (f a), answer (f a)).
Proof. intros ->. unfold sbind. destruct (f a); reflexivity. Qed.

Lemma sbind_failed {A B} (m : Setup A) (f : A -> Setup B) tr e :
  m = (tr, Failed e) -> sbind m f = (tr, Failed e).
Proof. intros ->. reflexivity. Qed.

Lemma sbind_answer_done {A B} (m : Setup A) (f : A -> Setup B) b :
  answer (sbind m f) = Done b ->
  exists a, answer m = Done a /\ answer (f a) = Done b.
Proof.
  destruct m as [tr [a|e]]; unfold sbind, answer; [|discriminate].
  destruct (f a) as [tr' r] eqn:E. cbn [snd]. intros ->. exists a.
  rewrite E. split; reflexivity.
Qed.

Lemma sbind_reports {A B} (m : Setup A) (f : A -> Setup B) :
  reports (sbind m f)
  = reports m ++ match answer m with
                 | Done a => reports (f a)
                 | Failed _ => []
                 end.
Proof.
  destruct m as [tr [a|e]]; cbn [sbind reports answer fst snd].
  - destruct (f a); reflexivity.
  - rewrite app_nil_r. reflexivity.
Qed.

Lemma sbind_answer {A B} (m : Setup A) (f : A -> Setup B) :
  answer (sbind m f)
  = match answer m with
    | Done a => answer (f a)
    | Failed e => Failed e
    end.
Proof.
  destruct m as [tr [a|e]]; cbn [sbind answer snd]; [|reflexivity].
  destruct (f a); reflexivity.
Qed.

(** ** chunk_target_size_in_bytes *)

(** X19. chunk_target_size_in_bytes never returns a negative size, and
    returns 0 without reading or parsing anything when the text compares
    equal to "off" or to "disable". *)
Theorem chunk_target_size_never_negative X B S text :
  (forall bytes,
     answer (chunk_target_size_in_bytes X B S text) = Done bytes -> 0 <= bytes)
  /\ (pg_strcasecmp B text "off" = 0 \/ pg_strcasecmp B text "disable" = 0 ->
      chunk_target_size_in_bytes X B S text = ([], Done 0)).
Proof.
  unfold chunk_target_size_in_bytes. cbn zeta. split.
  - intros bytes.
    destruct ((pg_strcasecmp B text "off" =? 0) || (pg_strcasecmp B text "disable" =? 0)).
    + intros H. inversion H. lia.
    + intros H. apply sbind_answer_done in H. destruct H as [b [_ H]].
      inversion H. destruct (Z.leb_spec b 0); lia.
  - intros [H|H]; rewrite H; cbn [Z.eqb orb]; [|rewrite orb_true_r]; reflexivity.
Qed.

Lemma chunk_target_size_never_negative_witness :
  chunk_target_size_in_bytes x86_64 (example_backend (table_50 []) hypertable_50)
    (settings_16GB (-1)) "Off"
  = ([], Done 0).
Proof.
  exact (proj2 (chunk_target_size_never_negative x86_64
                  (example_backend (table_50 []) hypertable_50) (settings_16GB (-1)) "Off")
           (or_introl eq_refl)).
Defined.

(** X20. For a text that compares equal to "estimate" (and not to "off" or
    "disable"), chunk_target_size_in_bytes reads what
    estimate_effective_memory_cache_size reads and returns a quarter of its
    estimate, or 0 when that is negative; it fails with the error of the
    estimate when the estimate fails. *)
Theorem chunk_target_size_estimate X B S text :
  pg_strcasecmp B text "off" <> 0 ->
  pg_strcasecmp B text "disable" <> 0 ->
  pg_strcasecmp B text "estimate" = 0 ->
  chunk_target_size_in_bytes X B S text
  = (map Reported (trace (estimate_effective_memory_cache_size X S)),
     match outcome (estimate_effective_memory_cache_size X S) with
     | Ok bytes => Done (Z.max 0 (div64 bytes DEFAULT_NUM_CHUNKS_TO_FIT_IN_CACHE_MEM))
     | Err e => Failed (Raised e)
     end).
Proof.
  intros H1 H2 H3. unfold chunk_target_size_in_bytes. cbn zeta.
  apply Z.eqb_neq in H1. apply Z.eqb_neq in H2. rewrite H1, H2, H3. cbn [orb Z.eqb].
  unfold calculate_initial_chunk_target_size, lift.
  destruct (estimate_effective_memory_cache_size X S) as [tr [m|e]];
    cbn [bind ret trace outcome fst snd sbind sret].
  - rewrite !app_nil_r. f_equal. f_equal.
    destruct (Z.leb_spec (div64 m DEFAULT_NUM_CHUNKS_TO_FIT_IN_CACHE_MEM) 0); lia.
  - reflexivity.
Qed.

Lemma chunk_target_size_estimate_witness :
  chunk_target_size_in_bytes x86_64 (example_backend (table_50 []) hypertable_50)
    (settings_16GB (-1)) "ESTIMATE"
  = ([Reported (ConfigRead "shared_buffers"); Reported (ConfigRead "effective_cache_size")],
     Done 1073741824).
Proof.
  refine (chunk_target_size_estimate x86_64 (example_backend (table_50 []) hypertable_50)
            (settings_16GB (-1)) "ESTIMATE" _ _ eq_refl); discriminate.
Defined.

(** X21. For any other text, chunk_target_size_in_bytes returns the number
    of blocks the text parses to times the block size, or 0 when that is
    zero or less, and fails with "invalid data amount" when the text does
    not parse; it reads no configuration. *)
Theorem chunk_target_size_explicit X B S text :
  0 < BLCKSZ X <= 32768 -> parses_int32 X ->
  pg_strcasecmp B text "off" <> 0 ->
  pg_strcasecmp B text "disable" <> 0 ->
  pg_strcasecmp B text "estimate" <> 0 ->
  chunk_target_size_in_bytes X B S text
  = ([], match parse_int X text with
         | Some nblocks => Done (Z.max 0 (nblocks * BLCKSZ X))
         | None => Failed ErrInvalidDataAmount
         end).
Proof.
  intros HB Hp H1 H2 H3. unfold chunk_target_size_in_bytes. cbn zeta.
  apply Z.eqb_neq in H1. apply Z.eqb_neq in H2. apply Z.eqb_neq in H3.
  rewrite H1, H2, H3. cbn [orb].
  destruct (parse_int X text) as [n|] eqn:E.
  - rewrite (sbind_done _ _ _ _ (convert_text_memory_amount_ok X text n HB Hp E)).
    cbn [sret reports answer fst snd app]. f_equal. f_equal.
    destruct (Z.leb_spec (n * BLCKSZ X) 0); lia.
  - unfold convert_text_memory_amount_to_bytes. rewrite E. reflexivity.
Qed.

Lemma chunk_target_size_explicit_witness :
  chunk_target_size_in_bytes x86_64 (example_backend (table_50 []) hypertable_50)
    (settings_16GB (-1)) "12800"
  = ([], Done 104857600).
Proof.
  refine (chunk_target_size_explicit x86_64 (example_backend (table_50 []) hypertable_50)
            (settings_16GB (-1)) "12800" _ parse_decimal_int32 _ _ _);
    [cbn; lia | discriminate ..].
Defined.

(** ** chunk_sizing_func_validate *)

Lemma OidIsValid_true oid : OidIsValid oid = true <-> oid <> InvalidOid.
Proof.
  unfold OidIsValid. rewrite negb_true_iff. apply Z.eqb_neq.
Qed.

Lemma sizing_signature_test form :
  negb (pronargs form =? CHUNK_SIZING_FUNC_NARGS)
  || negb (nth 0 (proargtypes form) InvalidOid =? INT4OID)
  || negb (nth 1 (proargtypes form) InvalidOid =? INT8OID)
  || negb (nth 2 (proargtypes form) InvalidOid =? INT8OID)
  || negb (prorettype form =? INT8OID) = false
  <-> sizing_signature form.
Proof.
  unfold sizing_signature, CHUNK_SIZING_FUNC_NARGS.
  rewrite !orb_false_iff, !negb_false_iff, !Z.eqb_eq. tauto.
Qed.

Lemma chunk_sizing_func_validate_ok B func info form :
  OidIsValid func = true ->
  SearchSysCache1_PROCOID B func = Some form ->
  sizing_signature form ->
  chunk_sizing_func_validate B func info
  = ([], Done (option_map (fun i => with_func B i func form) info)).
Proof.
  intros Hv Hs Hsig. unfold chunk_sizing_func_validate. rewrite Hv, Hs. cbn [negb].
  apply sizing_signature_test in Hsig. cbn zeta. rewrite Hsig.
  destruct info; reflexivity.
Qed.

Lemma chunk_sizing_func_validate_inv B func info tr after :
  chunk_sizing_func_validate B func info = (tr, Done after) ->
  tr = []
  /\ OidIsValid func = true
  /\ exists form,
       SearchSysCache1_PROCOID B func = Some form
       /\ sizing_signature form
       /\ after = option_map (fun i => with_func B i func form) info.
Proof.
  unfold chunk_sizing_func_validate.
  destruct (OidIsValid func) eqn:Hv; cbn [negb]; [|discriminate].
  destruct (SearchSysCache1_PROCOID B func) as [form|] eqn:Hs; [|discriminate].
  cbn zeta.
  destruct (negb (pronargs form =? CHUNK_SIZING_FUNC_NARGS) || _ || _ || _ || _) eqn:Ht;
    [discriminate|].
  apply sizing_signature_test in Ht. intros H. inversion H; subst.
  split; [reflexivity|]. split; [reflexivity|]. exists form.
  split; [reflexivity|]. split; [exact Ht|]. destruct info; reflexivity.
Qed.

Lemma chunk_sizing_func_validate_reports B func info :
  reports (chunk_sizing_func_validate B func info) = [].
Proof.
  unfold chunk_sizing_func_validate.
  destruct (OidIsValid func); cbn [negb]; [|reflexivity].
  destruct (SearchSysCache1_PROCOID B func) as [form|]; [|reflexivity].
  cbn zeta.
  destruct (negb (pronargs form =? CHUNK_SIZING_FUNC_NARGS) || _ || _ || _ || _);
    reflexivity.
Qed.

(** X22. chunk_sizing_func_validate writes no message.  It accepts exactly
    the valid Oids of functions found in pg_proc whose signature is
    (int4, int8, int8) -> int8; on success it stores the function in the
    info it was given and leaves the table, the target size, the column, the
    index flag and the target size in bytes as they were. *)
Theorem chunk_sizing_func_validate_accepts B fn info :
  reports (chunk_sizing_func_validate B fn info) = []
  /\ ((exists after, answer (chunk_sizing_func_validate B fn info) = Done after)
      <-> fn <> InvalidOid
          /\ exists form,
               SearchSysCache1_PROCOID B fn = Some form /\ sizing_signature form)
  /\ (forall i after,
        info = Some i ->
        answer (chunk_sizing_func_validate B fn info) = Done after ->
        exists i',
          after = Some i'
          /\ func i' = fn
          /\ table_relid i' = table_relid i
          /\ target_size i' = target_size i
          /\ colname i' = colname i
          /\ check_for_index i' = check_for_index i
          /\ target_size_bytes i' = target_size_bytes i).
Proof.
  split; [apply chunk_sizing_func_validate_reports|]. split; [split|].
  - intros [after H].
    destruct (chunk_sizing_func_validate B fn info) as [tr r] eqn:E.
    cbn [answer snd] in H. subst r.
    destruct (chunk_sizing_func_validate_inv B fn info tr after E)
      as [_ [Hv [form [Hs [Hsig _]]]]].
    split; [apply OidIsValid_true; exact Hv | exists form; auto].
  - intros [Hv [form [Hs Hsig]]]. apply OidIsValid_true in Hv.
    rewrite (chunk_sizing_func_validate_ok B fn info form Hv Hs Hsig).
    eexists. reflexivity.
  - intros i after -> H.
    destruct (chunk_sizing_func_validate B fn (Some i)) as [tr r] eqn:E.
    cbn [answer snd] in H. subst r.
    destruct (chunk_sizing_func_validate_inv B fn (Some i) tr after E)
      as [_ [_ [form [_ [_ Ha]]]]].
    subst after. cbn [option_map]. eexists. split; [reflexivity|].
    repeat split; reflexivity.
Qed.

Lemma chunk_sizing_func_validate_accepts_witness :
  (exists after,
     answer (chunk_sizing_func_validate (example_backend (table_50 []) hypertable_50)
               7000 None) = Done after)
  /\ ~ (exists after,
          answer (chunk_sizing_func_validate (example_backend (table_50 []) hypertable_50)
                    7001 None) = Done after).
Proof.
  split.
  - apply (proj1 (proj2 (chunk_sizing_func_validate_accepts
                           (example_backend (table_50 []) hypertable_50) 7000 None))).
    split; [discriminate|]. eexists. split; [reflexivity|].
    repeat split; reflexivity.
  - intros H.
    apply (proj1 (proj2 (chunk_sizing_func_validate_accepts
                           (example_backend (table_50 []) hypertable_50) 7001 None))) in H.
    destruct H as [_ [form [Hs [Hn _]]]]. inversion Hs; subst. discriminate.
Defined.

(** ** chunk_adaptive_sizing_info_validate *)

(** What the function writes after the target size is known. *)
Lemma validate_tail_reports {A} X B bytes (check : bool) relid name atttype attnum (x : A) :
  forall (tr : list SetupEvent) (r : reply A),
  (sbind (if (bytes >? 0) && (bytes <? 10 * MB) then semit WarnSmallTargetSize else sret tt)
     (fun _ =>
        sbind (if check
               then sbind (open_table_has_minmax_index X B relid atttype attnum)
                      (fun has_index =>
                         if negb has_index
                         then semit (WarnNoIndexOnHypertable name relid)
                         else sret tt)
               else sret tt)
          (fun _ => sret x))) = (tr, r) ->
  0 < bytes ->
  existsb is_small_target_warning tr = (bytes <? 10 * MB)
  /\ forallb (fun ev => negb (is_hypertable_update ev)) tr = true
  /\ (check = false -> existsb is_hypertable_index_warning tr = false /\ r = Done x)
  /\ (check = true ->
      match heap_open B relid with
      | Some rel =>
          r = Done x
          /\ existsb is_hypertable_index_warning tr
             = negb (existsb (leads attnum) (indexlist rel))
      | None => r = Failed (ErrCouldNotOpenRelation relid)
      end).
Proof.
  intros tr r E Hpos.
  assert (Hgt : (bytes >? 0) = true) by (apply Z.gtb_lt; lia).
  rewrite Hgt in E. cbn [andb] in E.
  destruct check.
  - unfold open_table_has_minmax_index in E.
    destruct (heap_open B relid) as [rel|].
    + pose proof (table_has_minmax_index_outcome rel atttype attnum
                    (stack_minmax X relid)) as Ho.
      unfold lift in E. rewrite Ho in E.
      set (scans := trace (table_has_minmax_index rel atttype attnum
                             (stack_minmax X relid))) in *.
      assert (Hs1 : existsb is_small_target_warning (map Reported scans) = false)
        by (clear; induction scans; [reflexivity | assumption]).
      assert (Hs2 : existsb is_hypertable_index_warning (map Reported scans) = false)
        by (clear; induction scans; [reflexivity | assumption]).
      assert (Hs3 : forallb (fun ev => negb (is_hypertable_update ev))
                      (map Reported scans) = true)
        by (clear; induction scans; [reflexivity | assumption]).
      destruct (bytes <? 10 * MB);
        destruct (existsb (leads attnum) (indexlist rel));
        cbn in E; inversion E; subst; clear E;
        cbn [existsb forallb is_small_target_warning is_hypertable_index_warning
               is_hypertable_update negb orb andb];
        rewrite ?existsb_app, ?forallb_app, ?Hs1, ?Hs2, ?Hs3, ?app_nil_r;
        cbn [existsb forallb is_small_target_warning is_hypertable_index_warning
               is_hypertable_update negb orb andb];
        rewrite ?Hs1, ?Hs2, ?Hs3;
        (split; [reflexivity|]); (split; [reflexivity|]);
        (split; [discriminate|]); intros _; split; reflexivity.
    + destruct (bytes <? 10 * MB); cbn in E; inversion E; subst; clear E;
        (split; [reflexivity|]); (split; [reflexivity|]);
        (split; [discriminate|]); intros _; reflexivity.
  - destruct (bytes <? 10 * MB); cbn in E; inversion E; subst; clear E;
      (split; [reflexivity|]); (split; [reflexivity|]);
      (split; [intros _; split; reflexivity | discriminate]).
Qed.

Lemma chunk_target_size_in_bytes_nonneg X B S text tr bytes :
  chunk_target_size_in_bytes X B S text = (tr, Done bytes) -> 0 <= bytes.
Proof.
  unfold chunk_target_size_in_bytes. cbn zeta.
  destruct ((pg_strcasecmp B text "off" =? 0) || (pg_strcasecmp B text "disable" =? 0)).
  - intros H. inversion H. lia.
  - intros H. assert (Ha : answer (sbind
        (if pg_strcasecmp B text "estimate" =? 0
         then lift (calculate_initial_chunk_target_size X S)
         else convert_text_memory_amount_to_bytes X (Some text))
        (fun b => sret (if b <=? 0 then 0 else b))) = Done bytes) by (rewrite H; reflexivity).
    apply sbind_answer_done in Ha. destruct Ha as [b [_ Hb]].
    inversion Hb. destruct (Z.leb_spec b 0); lia.
Qed.

Lemma chunk_target_size_in_bytes_reports X B S text :
  forallb is_config_report (reports (chunk_target_size_in_bytes X B S text)) = true.
Proof.
  unfold chunk_target_size_in_bytes. cbn zeta.
  destruct ((pg_strcasecmp B text "off" =? 0) || (pg_strcasecmp B text "disable" =? 0));
    [reflexivity|].
  rewrite sbind_reports.
  assert (Hr : forall b, reports (sret (A := Z) (if b <=? 0 then 0 else b)) = [])
    by reflexivity.
  destruct (pg_strcasecmp B text "estimate" =? 0).
  - unfold lift at 1. cbn [reports fst]. rewrite forallb_app.
    assert (Hc : forallb is_config_report
                   (map Reported (trace (calculate_initial_chunk_target_size X S))) = true).
    { unfold calculate_initial_chunk_target_size, estimate_effective_memory_cache_size.
      destruct (fixed_effective_memory_cache_size S >? 0); [reflexivity|].
      unfold read_blocks.
      destruct (GetConfigOption S "shared_buffers") as [v|]; [|reflexivity].
      destruct (parse_int X v); [|reflexivity].
      destruct (GetConfigOption S "effective_cache_size") as [w|]; [|reflexivity].
      destruct (parse_int X w); reflexivity. }
    rewrite Hc. destruct (answer _); reflexivity.
  - unfold convert_text_memory_amount_to_bytes. destruct (parse_int X text); reflexivity.
Qed.

(** The function, when it returns: the checks that were passed, the object
    it leaves and the messages it wrote after the target size was known. *)
Lemma chunk_adaptive_sizing_info_validate_inv X B S info info' :
  answer (chunk_adaptive_sizing_info_validate X B S info) = Done info' ->
  exists name form tr1 tr2,
    OidIsValid (table_relid info) = true
    /\ colname info = Some name
    /\ OidIsValid (get_atttype B (table_relid info)
                     (get_attnum B (table_relid info) name)) = true
    /\ OidIsValid (func info) = true
    /\ SearchSysCache1_PROCOID B (func info) = Some form
    /\ sizing_signature form
    /\ info' = set_target_size_bytes (with_func B info (func info) form)
                 (target_size_bytes info')
    /\ 0 <= target_size_bytes info'
    /\ match target_size info with
       | None => tr1 = [] /\ target_size_bytes info' = 0
       | Some text =>
           chunk_target_size_in_bytes X B S text = (tr1, Done (target_size_bytes info'))
       end
    /\ reports (chunk_adaptive_sizing_info_validate X B S info) = tr1 ++ tr2
    /\ (target_size_bytes info' = 0 -> tr2 = [])
    /\ (0 < target_size_bytes info' ->
        existsb is_small_target_warning tr2 = (target_size_bytes info' <? 10 * MB)
        /\ forallb (fun ev => negb (is_hypertable_update ev)) tr2 = true
        /\ (check_for_index info = false ->
            existsb is_hypertable_index_warning tr2 = false)
        /\ (check_for_index info = true ->
            exists rel,
              heap_open B (table_relid info) = Some rel
              /\ existsb is_hypertable_index_warning tr2
                 = negb (existsb (leads (get_attnum B (table_relid info) name))
                           (indexlist rel)))).
Proof.
  unfold chunk_adaptive_sizing_info_validate.
  destruct (OidIsValid (table_relid info)) eqn:Ht; cbn [negb]; [|discriminate].
  destruct (colname info) as [name|] eqn:Hc; [|discriminate].
  cbn zeta.
  destruct (OidIsValid (get_atttype B (table_relid info)
                          (get_attnum B (table_relid info) name))) eqn:Ha;
    cbn [negb]; [|discriminate].
  destruct (chunk_sizing_func_validate B (func info) (Some info)) as [tr0 [after|e]] eqn:Ev;
    [|discriminate].
  destruct (chunk_sizing_func_validate_inv B (func info) (Some info) tr0 after Ev)
    as [-> [Hf [form [Hs [Hsig ->]]]]].
  rewrite (sbind_done _ _ _ _ eq_refl). cbn [option_map pointee app].
  set (info1 := with_func B info (func info) form).
  assert (Hts : target_size info1 = target_size info) by reflexivity.
  assert (Hck : check_for_index info1 = check_for_index info) by reflexivity.
  assert (Hrel : table_relid info1 = table_relid info) by reflexivity.
  assert (Hfn : func info1 = func info) by reflexivity.
  rewrite Hts.
  set (size := match target_size info with
               | None => sret (set_target_size_bytes info1 0)
               | Some text =>
                   sbind (chunk_target_size_in_bytes X B S text)
                     (fun bytes => sret (set_target_size_bytes info1 bytes))
               end).
  assert (Hsize : (exists tr e, size = (tr, Failed e))
                  \/ exists tr1 bytes,
                       size = (tr1, Done (set_target_size_bytes info1 bytes))
                       /\ 0 <= bytes
                       /\ match target_size info with
                          | None => tr1 = [] /\ bytes = 0
                          | Some text =>
                              chunk_target_size_in_bytes X B S text = (tr1, Done bytes)
                          end).
  { unfold size. destruct (target_size info) as [text|].
    - destruct (chunk_target_size_in_bytes X B S text) as [tr1 [bytes|e]] eqn:Eb.
      + right. exists tr1, bytes. rewrite (sbind_done _ _ _ _ eq_refl).
        cbn [sret reports answer fst snd]. rewrite app_nil_r.
        split; [reflexivity|]. split; [|reflexivity].
        eapply chunk_target_size_in_bytes_nonneg; eauto.
      + left. eexists _, _. reflexivity.
    - right. exists [], 0. split; [reflexivity|]. split; [lia | auto]. }
  clearbody size.
  destruct Hsize as [[tr [e ->]] | [tr1 [bytes [-> [Hb Hm]]]]]; [discriminate|].
  rewrite (sbind_done _ _ _ _ eq_refl).
  cbn [set_target_size_bytes target_size_bytes func check_for_index table_relid].
  fold (func info1). rewrite Hfn, Hf. cbn [negb]. rewrite orb_false_r.
  rewrite Hrel, Hck.
  destruct (Z.leb_spec bytes 0) as [Hle|Hgt].
  - cbn [sret reports answer fst snd]. intros H. inversion H; subst; clear H.
    cbn [set_target_size_bytes target_size_bytes].
    exists name, form, tr1, [].
    do 10 (split; [first [assumption | reflexivity | lia]|]).
    split; [intros _; reflexivity | intros; lia].
  - cbn [reports answer fst snd].
    destruct (sbind (if (bytes >? 0) && (bytes <? 10 * MB)
                     then semit WarnSmallTargetSize else sret tt) _) as [tr2 r2] eqn:Et.
    cbn [reports answer fst snd]. intros ->.
    destruct (validate_tail_reports X B bytes (check_for_index info) (table_relid info)
                name _ _ _ tr2 (Done info') Et Hgt) as [T1 [T2 [T3 T4]]].
    assert (Hi : info' = set_target_size_bytes info1 bytes).
    { destruct (check_for_index info).
      - specialize (T4 eq_refl). destruct (heap_open B (table_relid info));
          [destruct T4 as [T4 _]; congruence | discriminate].
      - destruct (T3 eq_refl) as [_ T3']. congruence. }
    subst info'. cbn [set_target_size_bytes target_size_bytes].
    exists name, form, tr1, tr2.
    do 10 (split; [first [assumption | reflexivity | lia]|]).
    split; [intros; lia|]. intros _.
    split; [exact T1|]. split; [exact T2|]. split; [intros E; apply (T3 E)|].
    intros E. specialize (T4 E). destruct (heap_open B (table_relid info)) as [rel|];
      [|discriminate].
    exists rel. split; [reflexivity | apply T4].
Qed.


(** X23. When chunk_adaptive_sizing_info_validate returns, the fields the
    caller has set are unchanged, the table Oid is valid, the column is
    named and has a type in the table, the function is valid and has the
    signature of a sizing function, and the target size in bytes is not
    negative, and is 0 when no target size was given. *)
Theorem validated_sizing_info X B S info info' :
  answer (chunk_adaptive_sizing_info_validate X B S info) = Done info' ->
  (table_relid info' = table_relid info
   /\ func info' = func info
   /\ target_size info' = target_size info
   /\ colname info' = colname info
   /\ check_for_index info' = check_for_index info)
  /\ table_relid info <> InvalidOid
  /\ (exists name,
        colname info = Some name
        /\ get_atttype B (table_relid info) (get_attnum B (table_relid info) name)
           <> InvalidOid)
  /\ func info <> InvalidOid
  /\ (exists form,
        SearchSysCache1_PROCOID B (func info) = Some form /\ sizing_signature form)
  /\ 0 <= target_size_bytes info'
  /\ (target_size info = None -> target_size_bytes info' = 0).
Proof.
  intros H.
  destruct (chunk_adaptive_sizing_info_validate_inv X B S info info' H)
    as [name [form [tr1 [tr2 [Ht [Hc [Ha [Hf [Hs [Hsig [Hi [Hb [Hm _]]]]]]]]]]]]].
  split; [rewrite Hi; repeat split; reflexivity|].
  split; [apply OidIsValid_true; exact Ht|].
  split; [exists name; split; [exact Hc | apply OidIsValid_true; exact Ha]|].
  split; [apply OidIsValid_true; exact Hf|].
  split; [exists form; auto|].
  split; [exact Hb|].
  intros Hn. rewrite Hn in Hm. apply Hm.
Qed.

Lemma validated_sizing_info_witness :
  let info' := validated_50 (Some "100000"%string) true 819200000 in
  (table_relid info' = 50 /\ func info' = 7000
   /\ target_size info' = Some "100000"%string
   /\ colname info' = Some "time"%string /\ check_for_index info' = true)
  /\ 50 <> InvalidOid
  /\ (exists name,
        Some "time"%string = Some name
        /\ get_atttype (example_backend (table_50 [time_desc_idx]) hypertable_50) 50
             (get_attnum (example_backend (table_50 [time_desc_idx]) hypertable_50) 50 name)
           <> InvalidOid)
  /\ 7000 <> InvalidOid
  /\ (exists form,
        SearchSysCache1_PROCOID (example_backend (table_50 [time_desc_idx]) hypertable_50)
          7000 = Some form
        /\ sizing_signature form)
  /\ 0 <= target_size_bytes info'
  /\ (Some "100000"%string = None -> target_size_bytes info' = 0).
Proof.
  exact (validated_sizing_info x86_64 (example_backend (table_50 [time_desc_idx]) hypertable_50)
           (settings_16GB (-1)) (info_50 (Some "100000"%string) true)
           (validated_50 (Some "100000"%string) true 819200000) eq_refl).
Defined.

Lemma no_warning_in_config_reports tr :
  forallb is_config_report tr = true ->
  existsb is_small_target_warning tr = false
  /\ existsb is_hypertable_index_warning tr = false
  /\ forallb (fun ev => negb (is_hypertable_update ev)) tr = true.
Proof.
  induction tr as [|ev tr IH]; [auto|]. cbn [forallb existsb]. intros H.
  apply andb_true_iff in H. destruct H as [Hev Htr].
  destruct (IH Htr) as [H1 [H2 H3]]. rewrite H1, H2, H3.
  destruct ev as [[]| | |]; try discriminate; auto.
Qed.

Lemma target_size_reports X B S (target : option string) tr1 bytes :
  match target with
  | None => tr1 = [] /\ bytes = 0
  | Some text => chunk_target_size_in_bytes X B S text = (tr1, Done bytes)
  end ->
  forallb is_config_report tr1 = true.
Proof.
  destruct target as [text|].
  - intros H. pose proof (chunk_target_size_in_bytes_reports X B S text) as Hr.
    rewrite H in Hr. exact Hr.
  - intros [-> _]. reflexivity.
Qed.

(** X24. When the validated target size is 0 (adaptive chunking is
    disabled), the validation has written no warning and opened no
    relation: it has at most read the configuration (for "estimate"), and
    written nothing at all when no target size was given. *)
Theorem disabled_sizing_checks_no_index X B S info info' :
  answer (chunk_adaptive_sizing_info_validate X B S info) = Done info' ->
  target_size_bytes info' = 0 ->
  forallb is_config_report (reports (chunk_adaptive_sizing_info_validate X B S info)) = true
  /\ (target_size info = None ->
      reports (chunk_adaptive_sizing_info_validate X B S info) = []).
Proof.
  intros H H0.
  destruct (chunk_adaptive_sizing_info_validate_inv X B S info info' H)
    as [name [form [tr1 [tr2 [_ [_ [_ [_ [_ [_ [_ [_ [Hm [Hr [Hz _]]]]]]]]]]]]]]].
  rewrite Hr, (Hz H0), app_nil_r. split.
  - eapply target_size_reports; eauto.
  - intros Hn. rewrite Hn in Hm. apply Hm.
Qed.

Lemma disabled_sizing_checks_no_index_witness :
  forallb is_config_report
    (reports (chunk_adaptive_sizing_info_validate x86_64
                (example_backend (table_50 []) hypertable_50) (settings_16GB (-1))
                (info_50 (Some "disable"%string) true))) = true
  /\ (Some "disable"%string = None ->
      reports (chunk_adaptive_sizing_info_validate x86_64
                 (example_backend (table_50 []) hypertable_50) (settings_16GB (-1))
                 (info_50 (Some "disable"%string) true)) = []).
Proof.
  exact (disabled_sizing_checks_no_index x86_64 (example_backend (table_50 []) hypertable_50)
           (settings_16GB (-1)) (info_50 (Some "disable"%string) true)
           (validated_50 (Some "disable"%string) true 0) eq_refl eq_refl).
Defined.

(** X25. When the validated target size is positive, the warning about a
    small target size is written exactly when the size is below 10 MB, and
    the warning about a missing index exactly when check_for_index is set
    and no index of the table is led by the column. *)
Theorem sizing_warnings X B S info info' :
  answer (chunk_adaptive_sizing_info_validate X B S info) = Done info' ->
  0 < target_size_bytes info' ->
  existsb is_small_target_warning
    (reports (chunk_adaptive_sizing_info_validate X B S info))
  = (target_size_bytes info' <? 10 * MB)
  /\ (check_for_index info = false ->
      existsb is_hypertable_index_warning
        (reports (chunk_adaptive_sizing_info_validate X B S info)) = false)
  /\ (check_for_index info = true ->
      exists name rel,
        colname info = Some name
        /\ heap_open B (table_relid info) = Some rel
        /\ existsb is_hypertable_index_warning
             (reports (chunk_adaptive_sizing_info_validate X B S info))
           = negb (existsb (leads (get_attnum B (table_relid info) name)) (indexlist rel))).
Proof.
  intros H Hpos.
  destruct (chunk_adaptive_sizing_info_validate_inv X B S info info' H)
    as [name [form [tr1 [tr2 [_ [Hc [_ [_ [_ [_ [_ [_ [Hm [Hr [_ Ht]]]]]]]]]]]]]]].
  destruct (Ht Hpos) as [T1 [_ [T3 T4]]].
  destruct (no_warning_in_config_reports tr1 (target_size_reports X B S _ _ _ Hm))
    as [N1 [N2 _]].
  rewrite Hr, !existsb_app, N1, N2. cbn [orb].
  split; [exact T1|]. split; [exact T3|].
  intros E. destruct (T4 E) as [rel [Ho Hw]]. exists name, rel. auto.
Qed.

Lemma sizing_warnings_witness :
  existsb is_small_target_warning
    (reports (chunk_adaptive_sizing_info_validate x86_64
                (example_backend (table_50 []) hypertable_50) (settings_16GB (-1))
                (info_50 (Some "1000"%string) true)))
  = (8192000 <? 10 * MB)
  /\ (true = false ->
      existsb is_hypertable_index_warning
        (reports (chunk_adaptive_sizing_info_validate x86_64
                    (example_backend (table_50 []) hypertable_50) (settings_16GB (-1))
                    (info_50 (Some "1000"%string) true))) = false)
  /\ (true = true ->
      exists name rel,
        Some "time"%string = Some name
        /\ heap_open (example_backend (table_50 []) hypertable_50) 50 = Some rel
        /\ existsb is_hypertable_index_warning
             (reports (chunk_adaptive_sizing_info_validate x86_64
                         (example_backend (table_50 []) hypertable_50) (settings_16GB (-1))
                         (info_50 (Some "1000"%string) true)))
           = negb (existsb (leads (get_attnum (example_backend (table_50 []) hypertable_50)
                                     50 name)) (indexlist rel))).
Proof.
  exact (sizing_warnings x86_64 (example_backend (table_50 []) hypertable_50)
           (settings_16GB (-1)) (info_50 (Some "1000"%string) true)
           (validated_50 (Some "1000"%string) true 8192000) eq_refl eq_refl).
Defined.

(** ** chunk_adaptive_set *)

Lemma forallb_sbind {A B} (P : SetupEvent -> bool) (m : Setup A) (f : A -> Setup B) :
  forallb P (reports m) = true ->
  (forall a, forallb P (reports (f a)) = true) ->
  forallb P (reports (sbind m f)) = true.
Proof.
  intros Hm Hf. rewrite sbind_reports, forallb_app, Hm.
  destruct (answer m); [apply Hf | reflexivity].
Qed.

Lemma forallb_lift {A} (P : SetupEvent -> bool) (m : M A) :
  (forall ev, P (Reported ev) = true) -> forallb P (reports (lift m)) = true.
Proof.
  intros H. unfold lift, reports. cbn [fst].
  induction (trace m) as [|ev tr IH]; [reflexivity|]. cbn [map forallb].
  rewrite H, IH. reflexivity.
Qed.

Lemma chunk_target_size_in_bytes_no_update X B S text :
  forallb no_update (reports (chunk_target_size_in_bytes X B S text)) = true.
Proof.
  pose proof (chunk_target_size_in_bytes_reports X B S text) as H.
  apply no_warning_in_config_reports in H. apply H.
Qed.

(** The validation writes nothing to the catalog. *)
Lemma chunk_adaptive_sizing_info_validate_no_update X B S info :
  forallb no_update (reports (chunk_adaptive_sizing_info_validate X B S info)) = true.
Proof.
  unfold chunk_adaptive_sizing_info_validate.
  destruct (OidIsValid (table_relid info)); cbn [negb]; [|reflexivity].
  destruct (colname info) as [name|]; [|reflexivity]. cbn zeta.
  destruct (OidIsValid _); cbn [negb]; [|reflexivity].
  apply forallb_sbind.
  { rewrite chunk_sizing_func_validate_reports. reflexivity. }
  intros after. apply forallb_sbind.
  { destruct (target_size (pointee info after)) as [text|]; [|reflexivity].
    apply forallb_sbind; [apply chunk_target_size_in_bytes_no_update | reflexivity]. }
  intros i. destruct ((target_size_bytes i <=? 0) || negb (OidIsValid (func i)));
    [reflexivity|].
  apply forallb_sbind.
  { destruct ((target_size_bytes i >? 0) && (target_size_bytes i <? 10 * MB));
      reflexivity. }
  intros _. apply forallb_sbind; [|reflexivity].
  destruct (check_for_index i); [|reflexivity].
  apply forallb_sbind.
  - unfold open_table_has_minmax_index. destruct (heap_open B (table_relid i));
      [apply forallb_lift; reflexivity | reflexivity].
  - intros has. destruct (negb has); reflexivity.
Qed.

Lemma existsb_no_update tr :
  forallb no_update tr = true -> existsb is_hypertable_update tr = false.
Proof.
  induction tr as [|ev tr IH]; [reflexivity|]. cbn [forallb existsb]. intros H.
  apply andb_true_iff in H. destruct H as [Hev Htr]. rewrite (IH Htr).
  unfold no_update in Hev. apply negb_true_iff in Hev. rewrite Hev. reflexivity.
Qed.

(** The function, in terms of the validation it runs. *)
Lemma chunk_adaptive_set_cases X B S relid target f :
  let info0 := {| table_relid := relid;
                  target_size := target;
                  func := match f with None => InvalidOid | Some fn => fn end;
                  colname := None;
                  check_for_index := true;
                  func_schema := EmptyString;
                  func_name := EmptyString;
                  target_size_bytes := 0 |} in
  (exists e, chunk_adaptive_set X B S relid target f = ([], Failed e))
  \/ exists ht name,
       OidIsValid relid = true
       /\ hypertable_cache_get_entry B relid = Some ht
       /\ open_dimension_column ht = Some name
       /\ ((exists e,
              answer (chunk_adaptive_sizing_info_validate X B S (set_colname info0 name))
              = Failed e
              /\ chunk_adaptive_set X B S relid target f
                 = (reports (chunk_adaptive_sizing_info_validate X B S
                               (set_colname info0 name)), Failed e))
           \/ exists info',
                answer (chunk_adaptive_sizing_info_validate X B S (set_colname info0 name))
                = Done info'
                /\ chunk_adaptive_set X B S relid target f
                   = if is_composite (get_call_result_type B)
                     then
                       let ht' := {| open_dimension_column := open_dimension_column ht;
                                     chunk_sizing_func := func info';
                                     chunk_target_size := target_size_bytes info' |} in
                       (reports (chunk_adaptive_sizing_info_validate X B S
                                   (set_colname info0 name))
                        ++ [HypertableUpdate relid ht'],
                        Done ((func info', target_size_bytes info'), ht'))
                     else
                       (reports (chunk_adaptive_sizing_info_validate X B S
                                   (set_colname info0 name)),
                        Failed ErrRecordContext)).
Proof.
  intros info0. unfold chunk_adaptive_set. fold info0.
  cbn [table_relid info0].
  destruct (OidIsValid relid) eqn:Hv; cbn [negb]; [|left; eexists; reflexivity].
  destruct (hypertable_cache_get_entry B relid) as [ht|] eqn:Hh;
    [|left; eexists; reflexivity].
  destruct (open_dimension_column ht) as [name|] eqn:Hd; [|left; eexists; reflexivity].
  right. exists ht, name. split; [reflexivity|]. split; [reflexivity|].
  split; [exact Hd|]. cbn zeta.
  destruct (chunk_adaptive_sizing_info_validate X B S (set_colname info0 name))
    as [tr [info'|e]] eqn:Ev.
  - right. exists info'. split; [reflexivity|].
    rewrite (sbind_done _ _ _ _ eq_refl). cbn [reports fst].
    assert (Hf : OidIsValid (func info') = true /\ table_relid info' = relid).
    { assert (Ha : answer (chunk_adaptive_sizing_info_validate X B S
                             (set_colname info0 name)) = Done info')
        by (rewrite Ev; reflexivity).
      destruct (chunk_adaptive_sizing_info_validate_inv X B S _ _ Ha)
        as [n [form [tr1 [tr2 [_ [_ [_ [Hf [_ [_ [Hi _]]]]]]]]]]].
      rewrite Hi. split; [exact Hf | reflexivity]. }
    destruct Hf as [Hf Hrel].
    destruct (is_composite (get_call_result_type B)); cbn [negb].
    + rewrite Hf. cbn. rewrite Hd, Hrel. reflexivity.
    + cbn. rewrite app_nil_r. reflexivity.
  - left. exists e. split; reflexivity.
Qed.

(** X26. chunk_adaptive_set fails whenever the function argument is NULL,
    also when the hypertable has a sizing function of its own: the
    validation rejects the invalid Oid before the branch that would keep the
    function of the hypertable is reached.  Nothing is written to the
    catalog, and when the table, the hypertable, its open dimension and the
    column are in order the error is "invalid chunk sizing function". *)
Theorem chunk_adaptive_set_needs_function X B S relid target :
  (exists e, answer (chunk_adaptive_set X B S relid target None) = Failed e)
  /\ existsb is_hypertable_update (reports (chunk_adaptive_set X B S relid target None))
     = false
  /\ (forall ht name,
        relid <> InvalidOid ->
        hypertable_cache_get_entry B relid = Some ht ->
        open_dimension_column ht = Some name ->
        get_atttype B relid (get_attnum B relid name) <> InvalidOid ->
        chunk_adaptive_set X B S relid target None = ([], Failed ErrInvalidSizingFunc)).
Proof.
  split; [|split].
  - destruct (chunk_adaptive_set_cases X B S relid target None)
      as [[e E] | [ht [name [_ [_ [_ [[e [_ E]] | [info' [Ha _]]]]]]]]].
    + exists e. rewrite E. reflexivity.
    + exists e. rewrite E. reflexivity.
    + destruct (chunk_adaptive_sizing_info_validate_inv X B S _ _ Ha)
        as [n [form [tr1 [tr2 [_ [_ [_ [Hf _]]]]]]]].
      discriminate.
  - destruct (chunk_adaptive_set_cases X B S relid target None)
      as [[e E] | [ht [name [_ [_ [_ [[e [_ E]] | [info' [Ha _]]]]]]]]].
    + rewrite E. reflexivity.
    + rewrite E. apply existsb_no_update.
      apply chunk_adaptive_sizing_info_validate_no_update.
    + destruct (chunk_adaptive_sizing_info_validate_inv X B S _ _ Ha)
        as [n [form [tr1 [tr2 [_ [_ [_ [Hf _]]]]]]]].
      discriminate.
  - intros ht name Hv Hh Hd Ha. apply OidIsValid_true in Hv. apply OidIsValid_true in Ha.
    unfold chunk_adaptive_set. cbn [table_relid]. rewrite Hv, Hh, Hd. cbn [negb].
    unfold chunk_adaptive_sizing_info_validate.
    cbn [set_colname table_relid colname func]. rewrite Hv, Ha. reflexivity.
Qed.

Lemma chunk_adaptive_set_needs_function_witness :
  chunk_adaptive_set x86_64 (example_backend (table_50 [time_desc_idx]) hypertable_50)
    (settings_16GB (-1)) 50 (Some "100000"%string) None
  = ([], Failed ErrInvalidSizingFunc).
Proof.
  refine (proj2 (proj2 (chunk_adaptive_set_needs_function x86_64
                          (example_backend (table_50 [time_desc_idx]) hypertable_50)
                          (settings_16GB (-1)) 50 (Some "100000"%string)))
            hypertable_50 "time"%string _ eq_refl eq_refl _); discriminate.
Defined.

(** X27. When chunk_adaptive_set succeeds, a function was given, it is
    valid and has the signature of a sizing function; the values returned
    are that function and the target size in bytes; the hypertable written
    has this function and this size (not negative, and 0 when no target size
    was given) and the open dimension it had; the update of the hypertable
    is the last thing the call does, and its only update. *)
Theorem chunk_adaptive_set_persists X B S relid target f values ht' :
  answer (chunk_adaptive_set X B S relid target f) = Done (values, ht') ->
  exists fn ht form tr,
    f = Some fn
    /\ fn <> InvalidOid
    /\ SearchSysCache1_PROCOID B fn = Some form
    /\ sizing_signature form
    /\ hypertable_cache_get_entry B relid = Some ht
    /\ values = (fn, chunk_target_size ht')
    /\ chunk_sizing_func ht' = fn
    /\ 0 <= chunk_target_size ht'
    /\ open_dimension_column ht' = open_dimension_column ht
    /\ (target = None -> chunk_target_size ht' = 0)
    /\ reports (chunk_adaptive_set X B S relid target f)
       = tr ++ [HypertableUpdate relid ht']
    /\ existsb is_hypertable_update tr = false.
Proof.
  intros H.
  destruct (chunk_adaptive_set_cases X B S relid target f)
    as [[e E] | [ht [name [_ [Hh [_ [[e [_ E]] | [info' [Ha E]]]]]]]]];
    try (rewrite E in H; discriminate).
  destruct (chunk_adaptive_sizing_info_validate_inv X B S _ _ Ha)
    as [n [form [tr1 [tr2 [_ [_ [_ [Hf [Hs [Hsig [Hi [Hb [Hm _]]]]]]]]]]]]].
  cbn [set_colname func target_size] in Hf, Hs, Hm.
  assert (Hfn : func info' = match f with Some fn => fn | None => InvalidOid end)
    by (rewrite Hi; reflexivity).
  destruct f as [fn|]; [|discriminate].
  rewrite E in H |- *. destruct (is_composite (get_call_result_type B)); [|discriminate].
  cbn zeta in H |- *. cbn [answer snd] in H. inversion H; subst values ht'; clear H.
  cbn [chunk_target_size chunk_sizing_func open_dimension_column reports fst].
  exists fn, ht, form,
    (reports (chunk_adaptive_sizing_info_validate X B S
                (set_colname
                   {| table_relid := relid; func := fn; target_size := target;
                      colname := None; check_for_index := true;
                      func_schema := EmptyString; func_name := EmptyString;
                      target_size_bytes := 0 |} name))).
  split; [reflexivity|]. split; [apply OidIsValid_true; exact Hf|].
  split; [exact Hs|]. split; [exact Hsig|]. split; [exact Hh|].
  split; [rewrite Hfn; reflexivity|]. split; [exact Hfn|]. split; [exact Hb|].
  split; [reflexivity|].
  split; [intros ->; apply Hm|].
  split; [reflexivity|].
  apply existsb_no_update. apply chunk_adaptive_sizing_info_validate_no_update.
Qed.

Lemma chunk_adaptive_set_persists_witness :
  let B := example_backend (table_50 [time_desc_idx]) hypertable_50 in
  let ht' := {| open_dimension_column := Some "time"%string;
                chunk_sizing_func := 7000;
                chunk_target_size := 819200000 |} in
  exists fn ht form tr,
    Some 7000 = Some fn
    /\ fn <> InvalidOid
    /\ SearchSysCache1_PROCOID B fn = Some form
    /\ sizing_signature form
    /\ hypertable_cache_get_entry B 50 = Some ht
    /\ (7000, 819200000) = (fn, chunk_target_size ht')
    /\ chunk_sizing_func ht' = fn
    /\ 0 <= chunk_target_size ht'
    /\ open_dimension_column ht' = open_dimension_column ht
    /\ (Some "100000"%string = None -> chunk_target_size ht' = 0)
    /\ reports (chunk_adaptive_set x86_64 B (settings_16GB (-1)) 50
                  (Some "100000"%string) (Some 7000))
       = tr ++ [HypertableUpdate 50 ht']
    /\ existsb is_hypertable_update tr = false.
Proof.
  exact (chunk_adaptive_set_persists x86_64
           (example_backend (table_50 [time_desc_idx]) hypertable_50)
           (settings_16GB (-1)) 50 (Some "100000"%string) (Some 7000)
           (7000, 819200000)
           {| open_dimension_column := Some "time"%string;
              chunk_sizing_func := 7000;
              chunk_target_size := 819200000 |} eq_refl).
Defined.

(** X28. chunk_adaptive_set updates the hypertable exactly when it
    succeeds: a call that fails writes nothing to the catalog. *)
Theorem hypertable_updated_iff_success X B S relid target f :
  existsb is_hypertable_update (reports (chunk_adaptive_set X B S relid target f))
  = match answer (chunk_adaptive_set X B S relid target f) with
    | Done _ => true
    | Failed _ => false
    end.
Proof.
  pose proof (chunk_adaptive_sizing_info_validate_no_update X B S) as Hno.
  destruct (chunk_adaptive_set_cases X B S relid target f)
    as [[e E] | [ht [name [_ [_ [_ [[e [_ E]] | [info' [_ E]]]]]]]]]; rewrite E.
  - reflexivity.
  - cbn [reports answer fst snd]. apply existsb_no_update. apply Hno.
  - destruct (is_composite (get_call_result_type B)); cbn zeta;
      cbn [reports answer fst snd].
    + rewrite existsb_app. cbn. apply orb_true_r.
    + apply existsb_no_update. apply Hno.
Qed.

(** ** Switching adaptive chunking off *)

Lemma chunk_target_size_in_bytes_off X B S text :
  pg_strcasecmp B text "off" = 0 \/ pg_strcasecmp B text "disable" = 0 ->
  chunk_target_size_in_bytes X B S text = ([], Done 0).
Proof.
  unfold chunk_target_size_in_bytes. cbn zeta.
  intros [H|H]; rewrite H; cbn [Z.eqb orb]; [|rewrite orb_true_r]; reflexivity.
Qed.

(** X30. Switching adaptive chunking off: for a hypertable with an open
    dimension on an existing column and a valid sizing function,
    chunk_adaptive_set with no target size, or with one that compares equal
    to "off" or to "disable", stores the function and the target size 0 and
    returns them; it reads no configuration, looks for no index and writes
    no warning. *)
Theorem chunk_adaptive_set_off X B S relid target fn ht name form :
  relid <> InvalidOid ->
  hypertable_cache_get_entry B relid = Some ht ->
  open_dimension_column ht = Some name ->
  get_atttype B relid (get_attnum B relid name) <> InvalidOid ->
  fn <> InvalidOid ->
  SearchSysCache1_PROCOID B fn = Some form ->
  sizing_signature form ->
  get_call_result_type B = TYPEFUNC_COMPOSITE ->
  match target with
  | None => True
  | Some text => pg_strcasecmp B text "off" = 0 \/ pg_strcasecmp B text "disable" = 0
  end ->
  let ht' := {| open_dimension_column := Some name;
                chunk_sizing_func := fn;
                chunk_target_size := 0 |} in
  chunk_adaptive_set X B S relid target (Some fn)
  = ([HypertableUpdate relid ht'], Done ((fn, 0), ht')).
Proof.
  intros Hrel Hht Hdim Hatt Hfn Hform Hsig Hcomp Hoff ht'.
  apply OidIsValid_true in Hrel. apply OidIsValid_true in Hatt.
  apply OidIsValid_true in Hfn.
  unfold chunk_adaptive_set. cbn [table_relid]. rewrite Hrel, Hht, Hdim. cbn [negb].
  set (info := set_colname _ name).
  assert (Hv : chunk_adaptive_sizing_info_validate X B S info
               = ([], Done (set_target_size_bytes (with_func B info fn form) 0))).
  { unfold chunk_adaptive_sizing_info_validate.
    cbn [info set_colname table_relid colname func]. rewrite Hrel, Hatt. cbn [negb].
    fold info.
    rewrite (sbind_done _ _ _ _
               (chunk_sizing_func_validate_ok B fn (Some info) form Hfn Hform Hsig)).
    cbn [option_map pointee app with_func target_size info set_colname].
    destruct target as [text|].
    - rewrite (sbind_done _ _ _ _ (chunk_target_size_in_bytes_off X B S text Hoff)).
      reflexivity.
    - reflexivity. }
  rewrite (sbind_done _ _ _ _ Hv). rewrite Hcomp.
  cbn [is_composite negb set_target_size_bytes with_func func target_size_bytes
         table_relid info set_colname].
  rewrite Hfn. reflexivity.
Qed.

Lemma chunk_adaptive_set_off_witness :
  chunk_adaptive_set x86_64 (example_backend (table_50 []) hypertable_50)
    (settings_16GB (-1)) 50 (Some "OFF"%string) (Some 7000)
  = ([HypertableUpdate 50 {| open_dimension_column := Some "time"%string;
                             chunk_sizing_func := 7000;
                             chunk_target_size := 0 |}],
     Done ((7000, 0), {| open_dimension_column := Some "time"%string;
                         chunk_sizing_func := 7000;
                         chunk_target_size := 0 |})).
Proof.
  refine (chunk_adaptive_set_off x86_64 (example_backend (table_50 []) hypertable_50)
            (settings_16GB (-1)) 50 (Some "OFF"%string) 7000 hypertable_50 "time" _
            _ eq_refl eq_refl _ _ eq_refl _ eq_refl (or_introl eq_refl)).
  - discriminate.
  - discriminate.
  - discriminate.
  - repeat split; reflexivity.
Defined.
